(** * droplet: a normalized object pool (src/index.ts)

    A shallow embedding of the [ObjectPool] class and of the helpers it is
    built from, followed by the properties of the write path (normalization
    with cycle detection), of the read path (denormalization through a
    per-call cache) and of the notification pass. *)

From Stdlib Require Import Ascii.
From stdpp Require Import base gmap sets list strings pretty.

Set Warnings "-clear-no-such-hyp".

Local Open Scope string_scope.
Local Open Scope list_scope.

(** ** JavaScript values

    A [JSONValue] of the source is a primitive or a reference to an object
    living on the JavaScript heap.  The write path distinguishes objects by
    raw identity ([visited.has(value)]), so input values are modelled
    together with a heap: a pointer is an address, a heap cell is an array
    or a plain object.  The numbers of the model are those with an integer
    value: [SNum n] is the Number that the literal [n] denotes, which is the
    double nearest to [n]. *)

Inductive scalar :=
| SUndefined
| SNull
| SBool (b : bool)
| SNum (n : Z)
| SStr (s : string).

Definition addr := positive.

Inductive JSONValue :=
| JScalar (s : scalar)
| JPtr (a : addr).

(** Plain objects are association lists in [Object.entries] order; a
    JavaScript object has each of its keys once.  Keys are ordinary
    property names: the integer-like names, which the engine enumerates
    first, and the accessor [__proto__] are not told apart from the
    others.  An object with a property named [__proto__] is outside what
    the mapping helpers are modelled for; the properties that depend on the
    objects they build leave such inputs and pools out, by the hypotheses
    [ordinary_heap] and [ordinary_pool]. *)
Inductive JSNode :=
| JArray (items : list JSONValue)
| JObject (entries : list (string * JSONValue)).

Abbreviation Heap := (gmap addr JSNode).

(** Values stored in the pool are produced by [objectMap] and [arrayMap]
    only: fresh frozen objects, hence finite trees.  A reference marker is
    the one-field object [{ __ref: ref }]. *)
#[warnings="-register-all"]
Inductive PoolAny :=
| PScalar (s : scalar)
| PArray (items : list PoolAny)
| PObject (entries : list (string * PoolAny)).

Record PoolObject := mkPoolObject {
  updatedAt : nat;
  fields : list (string * PoolAny)
}.

(** The result of a resolution.  The objects built by [resolvePoolObject]
    are registered in the cache before they are filled and are handed out
    by reference, so the result graph can be cyclic: [RShared ref] is the
    reference to the one object that the cache holds for [ref]. *)
#[warnings="-register-all"]
Inductive Resolved :=
| RScalar (s : scalar)
| RArray (items : list Resolved)
| RObject (entries : list (string * Resolved))
| RShared (ref : string).

(** The cache of one resolution pass ([stack] in the source): the object
    registered for each ref, with the properties assigned to it so far. *)
Abbreviation Stack := (gmap string (list (string * Resolved))).

(** A listener is known by its name.  What it does when it is called is
    outside the pool (the listeners that [observe] registers leave the
    value aside, [read] the ref again and set a signal). *)
Definition listener := nat.

Record ObjectPool := mkObjectPool {
  generation : nat;
  listeners : gmap string (list listener);
  backing : gmap string PoolObject
}.

(** ** Property access on plain objects *)

Section Objects.
Context {A : Type}.

(** [obj[key]] *)
Fixpoint obj_get (key : string) (obj : list (string * A)) : option A :=
  match obj with
  | [] => None
  | (k, v) :: rest => if decide (key = k) then Some v else obj_get key rest
  end.

(** [obj[key] = value]: an existing property keeps its place, a new one
    is appended. *)
Fixpoint obj_set (key : string) (value : A) (obj : list (string * A))
  : list (string * A) :=
  match obj with
  | [] => [(key, value)]
  | (k, v) :: rest =>
      if decide (key = k) then (k, value) :: rest
      else (k, v) :: obj_set key value rest
  end.

(** [{ ...target, ...source }] continues an object literal whose
    properties so far are [target]. *)
Definition obj_spread (target source : list (string * A))
  : list (string * A) :=
  foldl (λ acc kv, obj_set kv.1 kv.2 acc) target source.

Definition keys (obj : list (string * A)) : list string := obj.*1.
End Objects.

(** ** Computations with state, exceptions and fuel

    [None] stands for a computation that did not finish within its fuel (or
    followed an address that the heap does not hold); an exception leaves
    the state as it was when it was thrown. *)

Inductive Outcome (A : Type) :=
| Return (a : A)
| Throw (msg : string).
Arguments Return {A} a.
Arguments Throw {A} msg.

Definition M (S A : Type) : Type := S → option (Outcome A * S).

Section Monad.
Context {S : Type}.

Definition ret {A} (a : A) : M S A := λ s, Some (Return a, s).

Definition bind {A B} (m : M S A) (k : A → M S B) : M S B :=
  λ s, match m s with
       | None => None
       | Some (Throw msg, s') => Some (Throw msg, s')
       | Some (Return a, s') => k a s'
       end.

Definition throw {A} (msg : string) : M S A := λ s, Some (Throw msg, s).
Definition get : M S S := λ s, Some (Return s, s).
Definition modify (f : S → S) : M S unit := λ s, Some (Return tt, f s).
Definition diverge {A} : M S A := λ _, None.
End Monad.

Notation "'let*' x := m 'in' k" := (bind m (λ x, k))
  (at level 10, x name, m at level 100, k at level 200,
   format "'let*'  x  :=  m  'in'  '/' k").
Notation "'do' m 'in' k" := (bind m (λ _, k))
  (at level 10, m at level 100, k at level 200,
   format "'do'  m  'in'  '/' k").

(** ** The two mapping helpers of the source *)

Section Helpers.
Context {S T U : Type}.

(** [arrayMap = (arr, fn) => Object.freeze(arr.map(fn))] *)
Fixpoint arrayMap (fn : T → M S U) (arr : list T) : M S (list U) :=
  match arr with
  | [] => ret []
  | item :: rest =>
      let* u := fn item in
      let* us := arrayMap fn rest in
      ret (u :: us)
  end.

(** The loop of [objectMap]: [acc[key] = fn(value)] for each entry. *)
Fixpoint objectMap_loop (fn : T → M S U) (entries : list (string * T))
    (acc : list (string * U)) : M S (list (string * U)) :=
  match entries with
  | [] => ret acc
  | (key, value) :: rest =>
      let* u := fn value in
      objectMap_loop fn rest (obj_set key u acc)
  end.

Definition objectMap (fn : T → M S U) (obj : list (string * T))
  : M S (list (string * U)) :=
  objectMap_loop fn obj [].

(** [for (const item of items) fn(item)] *)
Fixpoint forOf (fn : T → M S U) (items : list T) : M S unit :=
  match items with
  | [] => ret tt
  | item :: rest => do fn item in forOf fn rest
  end.
End Helpers.

Definition REF_LABEL : string := "__ref".
Definition TYPE_LABEL : string := "__type".

(** ** The string of a number

    What a template literal prints for a number (Number::toString): the
    shortest decimal digits that denote the same double, written out in
    full up to 21 digits and with an exponent beyond. *)

(** The double nearest to the integer [n >= 0]: 53 significant bits, ties
    to even; [None] is Infinity. *)
Definition to_double (n : Z) : option Z :=
  if (n <? 9007199254740992)%Z then Some n
  else
    let e := (Z.log2 n - 52)%Z in
    let q := (n / 2 ^ e)%Z in
    let r := (n mod 2 ^ e)%Z in
    let half := (2 ^ (e - 1))%Z in
    let q' :=
      if (half <? r)%Z || ((r =? half)%Z && Z.odd q) then (q + 1)%Z else q in
    let v := (q' * 2 ^ e)%Z in
    if (v <? 2 ^ 1024)%Z then Some v else None.

(** Among the numbers with [k] significant digits, the one that denotes
    the double [v] (of [d] digits) and is nearest to it, if there is one:
    it is one of the two multiples of [10 ^ (d - k)] next to [v]; of two
    that are equally near, the one with the even digits. *)
Definition shortest_at (v d k : Z) : option Z :=
  let unit := (10 ^ (d - k))%Z in
  let lo := (v / unit * unit)%Z in
  let hi := (lo + unit)%Z in
  let denotes c := bool_decide (to_double c = Some v) in
  match denotes lo, denotes hi with
  | true, true =>
      if (v - lo <? hi - v)%Z then Some lo
      else if (hi - v <? v - lo)%Z then Some hi
      else if Z.even (v / unit) then Some lo else Some hi
  | true, false => Some lo
  | false, true => Some hi
  | false, false => None
  end.

(** The number with the fewest significant digits that denotes [v]. *)
Fixpoint shortest (fuel : nat) (v d k : Z) : Z :=
  match fuel with
  | 0%nat => v
  | S fuel' =>
      match shortest_at v d k with
      | Some c => c
      | None => shortest fuel' v d (k + 1)
      end
  end.

Fixpoint strip_zeros (rev_digits : list Ascii.ascii) : list Ascii.ascii :=
  match rev_digits with
  | "0"%char :: rest => strip_zeros rest
  | _ => rev_digits
  end.

(** The string of a double [v > 0] with an integer value. *)
Definition positive_to_string (v : Z) : string :=
  let d := Z.of_nat (String.length (pretty v)) in
  let digits := pretty (shortest (Z.to_nat d) v d 1) in
  let n := Z.of_nat (String.length digits) in
  if (n <=? 21)%Z then digits
  else
    match rev (strip_zeros (rev (String.list_ascii_of_string digits))) with
    | [] => digits
    | [s] => String s ("e+" +:+ pretty (n - 1)%Z)
    | s :: rest =>
        String s ("." +:+ String.string_of_list_ascii rest
                      +:+ "e+" +:+ pretty (n - 1)%Z)
    end.

(** [`${n}`]: a safe integer is printed in its decimal digits, which are
    the shortest that denote it. *)
Definition number_to_string (n : Z) : string :=
  if (Z.abs n <? 9007199254740992)%Z then pretty n
  else
    match to_double (Z.abs n) with
    | None => if (n <? 0)%Z then "-Infinity" else "Infinity"
    | Some v =>
        if (n <? 0)%Z then "-" +:+ positive_to_string v
        else positive_to_string v
    end.

(** ** identify *)

(** [`${type}:${id}`] for an id that is a string or a number. *)
Definition identify (obj : list (string * JSONValue)) : option string :=
  match obj_get "id" obj, obj_get TYPE_LABEL obj with
  | Some (JScalar (SStr id)), Some (JScalar (SStr type)) =>
      Some (type +:+ ":" +:+ id)
  | Some (JScalar (SNum id)), Some (JScalar (SStr type)) =>
      Some (type +:+ ":" +:+ number_to_string id)
  | _, _ => None
  end.

(** ** The read path *)

(** JavaScript truthiness of a resolved value, as tested by [if (match)]. *)
Definition truthy (v : Resolved) : bool :=
  match v with
  | RScalar SUndefined | RScalar SNull => false
  | RScalar (SBool b) => b
  | RScalar (SNum n) => bool_decide (n ≠ 0%Z)
  | RScalar (SStr s) => bool_decide (s ≠ "")
  | RArray _ | RObject _ | RShared _ => true
  end.

(** [acc[key] = value], where [acc] is the object the cache holds for
    [ref]. *)
Definition assign (ref key : string) (value : Resolved) (stack : Stack)
  : Stack :=
  <[ref := obj_set key value (default [] (stack !! ref))]> stack.

(** The loop of [resolvePoolObject]. *)
Fixpoint resolveFields (resolve : PoolAny → M Stack Resolved) (ref : string)
    (entries : list (string * PoolAny)) : M Stack unit :=
  match entries with
  | [] => ret tt
  | (key, item) :: rest =>
      let* v := resolve item in
      do modify (assign ref key v) in
      resolveFields resolve ref rest
  end.

(** [resolveValue] and [resolvePoolObject], over the backing store.  The
    recursion follows the refs that stored markers carry, so it is counted
    down on fuel. *)
Section Resolver.
Variable store : gmap string PoolObject.

Fixpoint resolveValue (fuel : nat) (value : PoolAny) {struct fuel}
  : M Stack Resolved :=
  match fuel with
  | 0 => diverge
  | S fuel' =>
      match value with
      | PScalar s => ret (RScalar s)
      | PArray items =>
          let* vs := arrayMap (resolveValue fuel') items in
          ret (RArray vs)
      | PObject entries =>
          let inline :=
            (let* vs := objectMap (resolveValue fuel') entries in
             ret (RObject vs)) in
          match obj_get REF_LABEL entries with
          | Some (PScalar (SStr ref)) =>
              let* found := resolvePoolObject fuel' ref in
              if truthy found then ret found else inline
          | _ => inline
          end
      end
  end
with resolvePoolObject (fuel : nat) (ref : string) {struct fuel}
  : M Stack Resolved :=
  match fuel with
  | 0 => diverge
  | S fuel' =>
      let* stack := get in
      if decide (is_Some (stack !! ref)) then ret (RShared ref)
      else
        match store !! ref with
        | None => ret (RScalar SNull)
        | Some poolObject =>
            do modify (insert ref []) in
            do resolveFields (resolveValue fuel') ref (fields poolObject) in
            ret (RShared ref)
        end
  end.
End Resolver.

Arguments resolveValue : simpl never.
Arguments resolvePoolObject : simpl never.

(** [read = ref => this.resolvePoolObject(ref, new Map())]: the value
    returned, together with the cache in which its shared objects live. *)
Definition read (fuel : nat) (this : ObjectPool) (ref : string)
  : option (Outcome Resolved * Stack) :=
  resolvePoolObject (backing this) fuel ref ∅.

(** ** The write path *)

(** The state that one [write] call threads through the normalization:
    the pool, the visited input nodes and the refs touched.  The latter is
    a JavaScript [Set]: no duplicates, iterated in insertion order. *)
Record Normalizing := mkNormalizing {
  pool : ObjectPool;
  visited : gset addr;
  references : list string
}.

(** [references.add(x)] *)
Definition set_add (x : string) (s : list string) : list string :=
  if decide (x ∈ s) then s else s ++ [x].

(** [visited.add(value)] *)
Definition visit (a : addr) (st : Normalizing) : Normalizing :=
  mkNormalizing (pool st) ({[a]} ∪ visited st) (references st).

(** [references.add(ref)] *)
Definition touch (ref : string) (st : Normalizing) : Normalizing :=
  mkNormalizing (pool st) (visited st) (set_add ref (references st)).

(** [this.backing.set(ref, poolObject)] *)
Definition backing_set (ref : string) (o : PoolObject) (st : Normalizing)
  : Normalizing :=
  mkNormalizing
    (mkObjectPool (generation (pool st)) (listeners (pool st))
                  (<[ref := o]> (backing (pool st))))
    (visited st) (references st).

(** The message of the error that [updateValue] throws. *)
Definition CYCLIC : string := "Cyclic reference detected".

(** [{ [REF_LABEL]: ref }] *)
Definition marker (ref : string) : PoolAny :=
  PObject [(REF_LABEL, PScalar (SStr ref))].

(** [updatePoolObject]; [update] is the closure
    [item => this.updateValue(item, visited, references)].  The entity is
    looked up before the fields are normalized, and stored after. *)
Definition updatePoolObject (update : JSONValue → M Normalizing PoolAny)
    (data : list (string * JSONValue)) (ref : string)
  : M Normalizing PoolAny :=
  do modify (touch ref) in
  let* st := get in
  let existing := backing (pool st) !! ref in
  let* new := objectMap update data in
  let* now := get in
  let time := generation (pool now) in
  let fields' :=
    obj_spread (obj_spread [] (from_option fields [] existing)) new in
  do modify (backing_set ref (mkPoolObject time fields')) in
  ret (marker ref).

(** [updateValue], over the heap of the input.  The recursion follows the
    pointers of the input, so it is counted down on fuel. *)
Section Normalizer.
Variable heap : Heap.

Fixpoint updateValue (fuel : nat) (value : JSONValue) {struct fuel}
  : M Normalizing PoolAny :=
  match fuel with
  | 0 => diverge
  | S fuel' =>
      match value with
      | JScalar s => ret (PScalar s)
      | JPtr a =>
          let* st := get in
          if decide (a ∈ visited st) then throw CYCLIC
          else
            do modify (visit a) in
            match heap !! a with
            | None => diverge
            | Some (JArray items) =>
                let* vs := arrayMap (updateValue fuel') items in
                ret (PArray vs)
            | Some (JObject data) =>
                match identify data with
                | Some ref => updatePoolObject (updateValue fuel') data ref
                | None =>
                    let* vs := objectMap (updateValue fuel') data in
                    ret (PObject vs)
                end
            end
      end
  end.
End Normalizer.

Arguments updateValue : simpl never.

(** ** Notification *)

(** What a notification pass does, in order: the resolutions it asks for
    (with the cache before and after) and the listener calls it makes. *)
Inductive Event :=
| Resolve (ref : string) (before : Stack) (value : Resolved) (after : Stack)
| Call (ref : string) (fn : listener) (value : Resolved).

(** [value === null] *)
Definition is_null (v : Resolved) : bool :=
  match v with RScalar SNull => true | _ => false end.

(** The loop of [notify] over the touched refs, with [acc] as the state:
    a ref whose listener set is missing or empty is passed over; the others
    are resolved, and their listeners called in turn unless the value is
    [null]. *)
Fixpoint notifyEach (fuel : nat) (this : ObjectPool) (refs : list string)
  : M Stack (list Event) :=
  match refs with
  | [] => ret []
  | ref :: rest =>
      match listeners this !! ref with
      | Some (fn :: fns) =>
          let* before := get in
          let* value := resolvePoolObject (backing this) fuel ref in
          let* after := get in
          let* evs := notifyEach fuel this rest in
          if is_null value then ret (Resolve ref before value after :: evs)
          else ret (Resolve ref before value after
                      :: map (λ f, Call ref f value) (fn :: fns) ++ evs)
      | _ => notifyEach fuel this rest
      end
  end.

(** [notify], starting from [acc = new Map()]. *)
Definition notify (fuel : nat) (this : ObjectPool) (refs : list string)
  : option (Outcome (list Event) * Stack) :=
  notifyEach fuel this refs ∅.

(** ** write *)

(** [this.generation += 1] *)
Definition tick (this : ObjectPool) : ObjectPool :=
  mkObjectPool (S (generation this)) (listeners this) (backing this).

(** [get time()] *)
Definition time (this : ObjectPool) : nat := generation this.

(** [write]: the outcome of the call, the pool it leaves and the events of
    its notification pass.  A call that throws leaves the pool as the
    normalization has made it. *)
Definition write (fuel : nat) (heap : Heap) (this : ObjectPool)
    (items : list JSONValue)
  : option (Outcome unit * ObjectPool * list Event) :=
  match forOf (updateValue heap fuel) items (mkNormalizing this ∅ []) with
  | None => None
  | Some (Throw msg, st) => Some (Throw msg, pool st, [])
  | Some (Return _, st) =>
      let this' := tick (pool st) in
      match notify fuel this' (references st) with
      | None => None
      | Some (Throw msg, _) => Some (Throw msg, this', [])
      | Some (Return evs, _) => Some (Return tt, this', evs)
      end
  end.

(** ** observe: the hooks of the signal

    [observe] hands the signal two hooks, which register and unregister its
    listener under the ref; the signal itself is outside the pool.  A listener
    set is a JavaScript [Set]: no duplicates, insertion order. *)

(** [listeners.add(listener)] *)
Definition listener_add (fn : listener) (fns : list listener) : list listener :=
  if decide (fn ∈ fns) then fns else fns ++ [fn].

(** [listeners.delete(listener)] *)
Definition listener_delete (fn : listener) (fns : list listener)
  : list listener :=
  filter (λ f, f ≠ fn) fns.

(** The hook [watched]: the set of the ref, or a new one, is put in the
    registry and the listener added to it. *)
Definition watched (ref : string) (fn : listener) (this : ObjectPool)
  : ObjectPool :=
  let fns := default [] (listeners this !! ref) in
  mkObjectPool (generation this)
    (<[ref := listener_add fn fns]> (listeners this)) (backing this).

(** The hook [unwatched]: the listener is deleted from the set of the ref,
    if there is one, and the set is deleted from the registry when it is
    left empty. *)
Definition unwatched (ref : string) (fn : listener) (this : ObjectPool)
  : ObjectPool :=
  match listeners this !! ref with
  | None => this
  | Some fns =>
      let fns' := listener_delete fn fns in
      if decide (fns' = [])
      then mkObjectPool (generation this) (delete ref (listeners this))
             (backing this)
      else mkObjectPool (generation this) (<[ref := fns']> (listeners this))
             (backing this)
  end.

(** ** Vocabulary of the properties *)

(** *** Loops

    What is said of the body [fn] of a loop at one element [x]. *)

(** The body moves the state along [R]. *)
Definition steps {S T U : Type} (R : S → S → Prop) (fn : T → M S U) (x : T)
  : Prop :=
  ∀ s o s', fn x s = Some (o, s') → R s s'.

(** The body does not throw. *)
Definition returns {S T U : Type} (fn : T → M S U) (x : T) : Prop :=
  ∀ s o s', fn x s = Some (o, s') → ∃ u, o = Return u.

(** The body throws nothing but [msg]. *)
Definition throws_only {S T U : Type} (fn : T → M S U) (msg : string) (x : T)
  : Prop :=
  ∀ s m s', fn x s = Some (Throw m, s') → m = msg.

(** What [f] computes, [g] computes. *)
Definition below {S T U : Type} (f g : T → M S U) (x : T) : Prop :=
  ∀ s r, f x s = Some r → g x s = Some r.

(** From a state in [Q] the body returns, for some fuel, in [Q]. *)
Definition finishes {S T U : Type} (fn : nat → T → M S U) (Q : S → Prop)
    (x : T) : Prop :=
  ∀ s, Q s → ∃ n u s', fn n x s = Some (Return u, s') ∧ Q s'.

(** From a state in [Q] the body runs to an outcome, in [Q]. *)
Definition runs {S T U : Type} (fn : T → M S U) (Q : S → Prop) (x : T)
  : Prop :=
  ∀ s, Q s → ∃ o s', fn x s = Some (o, s') ∧ Q s'.

(** When the body returns, [P] relates the states. *)
Definition linked {S T U : Type} (fn : T → M S U)
    (P : list T → S → S → Prop) (x : T) : Prop :=
  ∀ s u s', fn x s = Some (Return u, s') → P [x] s s'.

(** *** Stored values *)

(** Induction on a stored value, with the hypothesis for each element of
    an array and each property of an object. *)
Section PoolAnyInd.
Variable P : PoolAny → Prop.
Hypothesis P_scalar : ∀ s, P (PScalar s).
Hypothesis P_array : ∀ items, Forall P items → P (PArray items).
Hypothesis P_object : ∀ entries, Forall P entries.*2 → P (PObject entries).

Fixpoint PoolAny_nested_ind (v : PoolAny) : P v :=
  match v with
  | PScalar s => P_scalar s
  | PArray items =>
      P_array items
        ((fix go l : Forall P l :=
            match l with
            | [] => List.Forall_nil P
            | x :: l' => List.Forall_cons P x l' (PoolAny_nested_ind x) (go l')
            end) items)
  | PObject entries =>
      P_object entries
        ((fix go l : Forall P l.*2 :=
            match l with
            | [] => List.Forall_nil P
            | kx :: l' =>
                List.Forall_cons P kx.2 l'.*2
                  (PoolAny_nested_ind kx.2) (go l')
            end) entries)
  end.
End PoolAnyInd.

(** An object all of whose properties are scalars, as an input object, a
    stored object or a resolved one. *)
Definition scalar_entries {A} (inj : scalar → A) (obj : list (string * scalar))
  : list (string * A) :=
  prod_map id inj <$> obj.

(** *** The cache of a resolution *)

(** The objects that [s] holds are in [s'], as they are. *)
Definition extends (s s' : Stack) : Prop :=
  ∀ r, is_Some (s !! r) → s' !! r = s !! r.

(** The cache holds objects for stored refs only. *)
Definition cached_stored (store : gmap string PoolObject) (s : Stack) : Prop :=
  ∀ r, is_Some (s !! r) → is_Some (store !! r).

Definition good (store : gmap string PoolObject) (s s' : Stack) : Prop :=
  extends s s' ∧ (cached_stored store s → cached_stored store s').

(** The number of stored refs for which the cache holds no object yet. *)
Definition pending (store : gmap string PoolObject) (s : Stack) : nat :=
  size (dom store ∖ dom s).

(** The outcomes of [resolvePoolObject]: the shared object of the ref, or
    [null] for a ref that is neither cached nor stored. *)
Definition resolved_ref (store : gmap string PoolObject) (ref : string)
    (s : Stack) (o : Outcome Resolved) (s' : Stack) : Prop :=
  (o = Return (RShared ref) ∧ is_Some (s' !! ref)) ∨
  (o = Return (RScalar SNull) ∧ store !! ref = None ∧ s !! ref = None
   ∧ s' = s).

(** *** Input graphs *)

Definition children (node : JSNode) : list JSONValue :=
  match node with
  | JArray items => items
  | JObject entries => entries.*2
  end.

(** The object found by following a path of positions (in a batch, in an
    array, among the entries of an object) from a list of values. *)
Fixpoint node_at (heap : Heap) (values : list JSONValue) (path : list nat)
  : option addr :=
  match path with
  | [] => None
  | i :: path' =>
      match values !! i with
      | Some (JPtr a) =>
          match path' with
          | [] => Some a
          | _ =>
              match heap !! a with
              | Some node => node_at heap (children node) path'
              | None => None
              end
          end
      | _ => None
      end
  end.

Definition points_into (heap : Heap) (value : JSONValue) : Prop :=
  match value with
  | JScalar _ => True
  | JPtr a => is_Some (heap !! a)
  end.

(** Every object that an object of the heap refers to is in the heap. *)
Definition heap_closed (heap : Heap) : Prop :=
  ∀ a node, heap !! a = Some node → Forall (points_into heap) (children node).

#[global] Instance points_into_dec heap v : Decision (points_into heap v).
Proof. destruct v; simpl; apply _. Defined.

#[global] Instance heap_closed_dec heap : Decision (heap_closed heap).
Proof.
  apply (map_Forall_dec
           (λ (_ : addr) node, Forall (points_into heap) (children node))).
Defined.

(** Starting with the visited set [V], a traversal of [values] that ends
    with [V'] has met each object it can reach once: by one path only, and
    not in [V]. *)
Definition met_once (heap : Heap) (values : list JSONValue)
    (V V' : gset addr) : Prop :=
  V ⊆ V' ∧
  ∀ p a, node_at heap values p = Some a →
    (a ∉ V) ∧ (a ∈ V') ∧ (∀ p', node_at heap values p' = Some a → p' = p).

(** *** The state of a normalization *)

(** The counter and the listeners are left alone, stored entities stay
    stored, visited nodes stay visited, and the touched refs remain a set. *)
Definition advances (st st' : Normalizing) : Prop :=
  generation (pool st') = generation (pool st) ∧
  listeners (pool st') = listeners (pool st) ∧
  dom (backing (pool st)) ⊆ dom (backing (pool st')) ∧
  visited st ⊆ visited st' ∧
  (NoDup (references st) → NoDup (references st')).

(** The pool after a flat object with identity [ref] has been written. *)
Definition after_flat_write (this : ObjectPool) (ref : string)
    (obj : list (string * scalar)) : ObjectPool :=
  mkObjectPool (S (generation this)) (listeners this)
    (<[ref := mkPoolObject (generation this)
                (obj_spread
                   (obj_spread []
                      (from_option fields [] (backing this !! ref)))
                   (obj_spread [] (scalar_entries PScalar obj)))]>
       (backing this)).

(** *** The events of a notification pass *)

(** The resolutions that a pass asked for on behalf of [ref]. *)
Fixpoint resolutions_of (ref : string) (evs : list Event)
  : list (Stack * Resolved * Stack) :=
  match evs with
  | [] => []
  | Resolve r before value after :: evs' =>
      if decide (r = ref) then (before, value, after) :: resolutions_of ref evs'
      else resolutions_of ref evs'
  | Call _ _ _ :: evs' => resolutions_of ref evs'
  end.

(** The listener calls that a pass made for [ref]. *)
Fixpoint calls_of (ref : string) (evs : list Event)
  : list (listener * Resolved) :=
  match evs with
  | [] => []
  | Call r fn value :: evs' =>
      if decide (r = ref) then (fn, value) :: calls_of ref evs'
      else calls_of ref evs'
  | Resolve _ _ _ _ :: evs' => calls_of ref evs'
  end.

(** One cache is passed from each resolution of the pass to the next. *)
Fixpoint chained (s : Stack) (evs : list Event) (final : Stack) : Prop :=
  match evs with
  | [] => final = s
  | Resolve _ before _ after :: evs' => before = s ∧ chained after evs' final
  | Call _ _ _ :: evs' => chained s evs' final
  end.

(** What the pass owes to one touched ref: nothing when the ref has no
    listener; otherwise one resolution, and a call of each listener with
    the value of that resolution unless the value is [null]. *)
Definition notified (fuel : nat) (this : ObjectPool) (ref : string)
    (evs : list Event) : Prop :=
  match listeners this !! ref with
  | None | Some [] => resolutions_of ref evs = [] ∧ calls_of ref evs = []
  | Some fns =>
      ∃ before value after,
        resolutions_of ref evs = [(before, value, after)] ∧
        resolvePoolObject (backing this) fuel ref before
          = Some (Return value, after) ∧
        calls_of ref evs =
          if is_null value then [] else map (λ fn, (fn, value)) fns
  end.

(** *** The listener registry *)

(** Every listener set of the registry has a listener, and has it once. *)
Definition registry_wf (this : ObjectPool) : Prop :=
  map_Forall (λ (_ : string) fns, fns ≠ [] ∧ NoDup fns) (listeners this).

(** *** What a call to write leaves *)

(** [ref] is the identity of an object of the heap. *)
Definition identity_in (heap : Heap) (ref : string) : Prop :=
  ∃ a data, heap !! a = Some (JObject data) ∧ identify data = Some ref.

(** Each entity of [b0] is an entity of [b], with the field names it had. *)
Definition retains (b0 b : gmap string PoolObject) : Prop :=
  ∀ r po0, b0 !! r = Some po0 →
    ∃ po, b !! r = Some po ∧ ∀ k, k ∈ keys (fields po0) → k ∈ keys (fields po).

(** The fields of each entity have distinct names. *)
Definition pool_wf (this : ObjectPool) : Prop :=
  map_Forall (λ (_ : string) po, NoDup (keys (fields po))) (backing this).

(** The touched refs are kept, the new ones are identities of objects of
    the heap, and the entities of the other refs are as they were. *)
Definition frames (heap : Heap) (st st' : Normalizing) : Prop :=
  references st ⊆ references st' ∧
  (∀ r, r ∈ references st' → r ∈ references st ∨ identity_in heap r) ∧
  (∀ r, r ∉ references st' →
        backing (pool st') !! r = backing (pool st) !! r).

(** The entities stamped with the current generation stay stamped. *)
Definition stamps (st st' : Normalizing) : Prop :=
  generation (pool st') = generation (pool st) ∧
  ∀ r po, backing (pool st) !! r = Some po →
    updatedAt po = generation (pool st) →
    ∃ po', backing (pool st') !! r = Some po' ∧
           updatedAt po' = generation (pool st').

(** Moreover each ref touched in between is stored, and stamped. *)
Definition commits (st st' : Normalizing) : Prop :=
  stamps st st' ∧
  ∀ r, r ∈ references st' →
    r ∈ references st ∨
    ∃ po, backing (pool st') !! r = Some po ∧
          updatedAt po = generation (pool st').

(** The visited objects that have an identity have been touched. *)
Definition visited_touched (heap : Heap) (st : Normalizing) : Prop :=
  ∀ a data ref, a ∈ visited st → heap !! a = Some (JObject data) →
    identify data = Some ref → ref ∈ references st.

(** Whether a node is an object with the identity [ref]. *)
Definition has_identity (ref : string) (node : JSNode) : Prop :=
  match node with
  | JObject data => identify data = Some ref
  | JArray _ => False
  end.

#[global] Instance has_identity_dec ref node : Decision (has_identity ref node).
Proof. destruct node; simpl; apply _. Defined.

#[global] Instance identity_in_dec heap ref : Decision (identity_in heap ref).
Proof.
  destruct (decide (map_Exists (λ _ : addr, has_identity ref) heap))
    as [Hyes|Hno].
  - left. destruct Hyes as (a & [items|data] & Hnode & Hid); [done|].
    by exists a, data.
  - right. intros (a & data & Hnode & Hid). apply Hno.
    by exists a, (JObject data).
Defined.

(** *** Data without identities *)

(** The resolved value with the structure of a stored value. *)
Fixpoint to_resolved (p : PoolAny) : Resolved :=
  match p with
  | PScalar s => RScalar s
  | PArray items => RArray (map to_resolved items)
  | PObject entries =>
      RObject
        ((fix go (l : list (string * PoolAny)) : list (string * Resolved) :=
            match l with
            | [] => []
            | kx :: l' => (kx.1, to_resolved kx.2) :: go l'
            end) entries)
  end.

(** The object has a string under [__ref]. *)
Definition marker_shaped (entries : list (string * PoolAny)) : bool :=
  match obj_get REF_LABEL entries with
  | Some (PScalar (SStr _)) => true
  | _ => false
  end.

(** A stored value in which no object has the shape of a marker, and each
    object has its keys once. *)
Fixpoint plain (p : PoolAny) : bool :=
  match p with
  | PScalar _ => true
  | PArray items => forallb plain items
  | PObject entries =>
      negb (marker_shaped entries) && bool_decide (NoDup (keys entries))
      && (fix go (l : list (string * PoolAny)) : bool :=
            match l with
            | [] => true
            | kx :: l' => plain kx.2 && go l'
            end) entries
  end.

(** The tree that an input value denotes when none of the objects in it
    has an identity. *)
Fixpoint plain_of (heap : Heap) (fuel : nat) (value : JSONValue)
  : option PoolAny :=
  match fuel with
  | 0 => None
  | S fuel' =>
      match value with
      | JScalar s => Some (PScalar s)
      | JPtr a =>
          match heap !! a with
          | Some (JArray items) => PArray <$> mapM (plain_of heap fuel') items
          | Some (JObject data) =>
              match identify data with
              | Some _ => None
              | None =>
                  PObject <$>
                    mapM (λ kx, pair kx.1 <$> plain_of heap fuel' kx.2) data
              end
          | None => None
          end
      end
  end.

(** The fields of an object, as trees. *)
Definition plain_fields (heap : Heap) (fuel : nat)
    (data : list (string * JSONValue)) : option (list (string * PoolAny)) :=
  mapM (λ kx, pair kx.1 <$> plain_of heap fuel kx.2) data.

(** Each object of the heap has its keys once. *)
Definition objects_wf (heap : Heap) : Prop :=
  map_Forall
    (λ (_ : addr) node,
       match node with
       | JObject data => NoDup (keys data)
       | JArray _ => True
       end) heap.

#[global] Instance objects_wf_dec heap : Decision (objects_wf heap).
Proof.
  apply map_Forall_dec. intros a [items|data]; apply _.
Defined.

(** The pool and the touched refs are those of [st]. *)
Definition same_pool (st st' : Normalizing) : Prop :=
  pool st' = pool st ∧ references st' = references st.

(** *** Ordinary property names

    An assignment [acc[key] = value] to a fresh object creates the property
    [key], unless [key] is [__proto__], for which it calls the setter of
    [Object.prototype].  The objects that the two mapping helpers build are
    modelled for the other names. *)

Definition PROTO : string := "__proto__".

(** No object of the input has a property named [__proto__]. *)
Definition ordinary_heap (heap : Heap) : Prop :=
  map_Forall
    (λ (_ : addr) node,
       match node with
       | JObject data => PROTO ∉ keys data
       | JArray _ => True
       end) heap.

#[global] Instance ordinary_heap_dec heap : Decision (ordinary_heap heap).
Proof.
  apply map_Forall_dec. intros a [items|data]; apply _.
Defined.

(** No object in the stored value has a property named [__proto__]. *)
Fixpoint ordinary (p : PoolAny) : bool :=
  match p with
  | PScalar _ => true
  | PArray items => forallb ordinary items
  | PObject entries =>
      negb (bool_decide (PROTO ∈ keys entries))
      && (fix go (l : list (string * PoolAny)) : bool :=
            match l with
            | [] => true
            | kx :: l' => ordinary kx.2 && go l'
            end) entries
  end.

(** The same for each entity of the pool, as in every pool that has been
    written to by [write] only. *)
Definition ordinary_pool (this : ObjectPool) : Prop :=
  map_Forall (λ (_ : string) po, ordinary (PObject (fields po)) = true)
    (backing this).

#[global] Instance ordinary_pool_dec this : Decision (ordinary_pool this).
Proof. apply map_Forall_dec. intros r po. apply _. Defined.

(** *** Places in a value *)






(** ** Pools and inputs of the examples *)

Definition empty_pool : ObjectPool := mkObjectPool 0 ∅ ∅.

(** A listener on [user:1]. *)
Definition watched_pool : ObjectPool :=
  mkObjectPool 4 {[ "user:1" := [7%nat] ]} ∅.

(** A post whose author is not stored. *)
Definition dangling_pool : ObjectPool :=
  mkObjectPool 1 ∅
    {[ "post:1" := mkPoolObject 0
         [("id", PScalar (SNum 1)); ("__type", PScalar (SStr "post"));
          ("author", marker "user:7")] ]}.

Definition alice_obj : list (string * scalar) :=
  [("id", SNum 1); ("__type", SStr "user"); ("name", SStr "Alice")].

Definition aged_obj : list (string * scalar) :=
  [("id", SNum 1); ("__type", SStr "user"); ("age", SNum 30)].

(** Two writes of the same user. *)
Definition users_heap : Heap :=
  {[ 1%positive := JObject (scalar_entries JScalar alice_obj);
     2%positive := JObject (scalar_entries JScalar aged_obj) ]}.

(** The same two objects with the label [type] in place of [__type]. *)
Definition plain_heap : Heap :=
  {[ 1%positive :=
       JObject [("id", JScalar (SNum 1)); ("type", JScalar (SStr "user"));
                ("name", JScalar (SStr "Alice"))];
     2%positive :=
       JObject [("id", JScalar (SNum 1)); ("type", JScalar (SStr "user"));
                ("age", JScalar (SNum 30))] ]}.

(** An object that contains itself. *)
Definition self_heap : Heap :=
  {[ 1%positive := JObject [("self", JPtr 1%positive)] ]}.


(** Alice, and an object that contains itself. *)
Definition batch_heap : Heap :=
  {[ 1%positive := JObject (scalar_entries JScalar alice_obj);
     2%positive := JObject [("self", JPtr 2%positive)] ]}.

(** Alice with her friend Bob nested in her, and, for a later call, Bob
    with Alice nested in him. *)
Definition friends_heap : Heap :=
  {[ 1%positive :=
       JObject [("id", JScalar (SNum 1)); ("__type", JScalar (SStr "user"));
                ("name", JScalar (SStr "Alice")); ("friend", JPtr 2%positive)];
     2%positive :=
       JObject [("id", JScalar (SNum 2)); ("__type", JScalar (SStr "user"));
                ("name", JScalar (SStr "Bob"))];
     3%positive :=
       JObject [("id", JScalar (SNum 2)); ("__type", JScalar (SStr "user"));
                ("friend", JPtr 4%positive)];
     4%positive :=
       JObject [("id", JScalar (SNum 1)); ("__type", JScalar (SStr "user"))] ]}.

(** The pool that a call leaves, whatever its outcome. *)
Definition pool_after (fuel : nat) (heap : Heap) (this : ObjectPool)
    (items : list JSONValue) : ObjectPool :=
  match write fuel heap this items with
  | Some (_, this', _) => this'
  | None => this
  end.

Definition pool_with_alice : ObjectPool :=
  Eval vm_compute in pool_after 3 users_heap empty_pool [JPtr 1%positive].

Definition pool_after_batch : ObjectPool :=
  Eval vm_compute in
    pool_after 3 batch_heap empty_pool [JPtr 1%positive; JScalar (SNum 5)].

Definition pool_after_rejection : ObjectPool :=
  Eval vm_compute in
    pool_after 3 batch_heap watched_pool [JPtr 1%positive; JPtr 2%positive].

Definition pool_of_friends : ObjectPool :=
  Eval vm_compute in pool_after 4 friends_heap empty_pool [JPtr 1%positive].

(** The entities refer to each other once Bob has been written again. *)
Definition pool_of_mutual_friends : ObjectPool :=
  Eval vm_compute in
    pool_after 4 friends_heap pool_of_friends [JPtr 3%positive].

(** The pool of the two friends with a listener on Alice, none on Bob, and
    one on a ref that is not stored; the events and the final cache of a
    notification pass over the three refs. *)
Definition pool_heard_by_two : ObjectPool :=
  mkObjectPool (generation pool_of_friends)
    {[ "user:1" := [7%nat]; "ghost:1" := [8%nat] ]}
    (backing pool_of_friends).

Definition heard_by_two : list Event :=
  Eval vm_compute in
    match notify 4 pool_heard_by_two ["user:1"; "user:2"; "ghost:1"] with
    | Some (Return evs, _) => evs
    | _ => []
    end.

Definition heard_cache : Stack :=
  Eval vm_compute in
    match notify 4 pool_heard_by_two ["user:1"; "user:2"; "ghost:1"] with
    | Some (_, cache) => cache
    | None => ∅
    end.

(** With a listener on Alice and none on Bob: the pool after the write of
    Alice, and the events of its notification pass. *)
Definition pool_heard : ObjectPool :=
  Eval vm_compute in pool_after 4 friends_heap watched_pool [JPtr 1%positive].

Definition heard : list Event :=
  Eval vm_compute in
    match write 4 friends_heap watched_pool [JPtr 1%positive] with
    | Some (_, _, evs) => evs
    | None => []
    end.

(** Alice written, and then her age. *)
Definition pool_with_aged : ObjectPool :=
  Eval vm_compute in
    pool_after 3 users_heap pool_with_alice [JPtr 2%positive].

(** Alice written to the pool of the post. *)
Definition pool_with_post_and_alice : ObjectPool :=
  Eval vm_compute in
    pool_after 3 users_heap dangling_pool [JPtr 1%positive].

(** An object with an object of its own identity nested in it. *)
Definition selfish_heap : Heap :=
  {[ 1%positive :=
       JObject [("id", JScalar (SNum 1)); ("__type", JScalar (SStr "user"));
                ("me", JPtr 2%positive)];
     2%positive :=
       JObject [("id", JScalar (SNum 1)); ("__type", JScalar (SStr "user"));
                ("nick", JScalar (SStr "Al"))] ]}.

Definition pool_selfish : ObjectPool :=
  Eval vm_compute in pool_after 4 selfish_heap empty_pool [JPtr 1%positive].

(** A user with an array of tags and an address that has no identity. *)
Definition profile_heap : Heap :=
  {[ 1%positive :=
       JObject [("id", JScalar (SNum 3)); ("__type", JScalar (SStr "user"));
                ("tags", JPtr 2%positive); ("address", JPtr 3%positive)];
     2%positive := JArray [JScalar (SStr "b"); JScalar (SStr "a");
                           JPtr 4%positive];
     3%positive := JObject [("city", JScalar (SStr "Oslo"));
                            ("zip", JScalar (SNum 150))];
     4%positive := JArray [JScalar SNull] ]}.

Definition pool_profile : ObjectPool :=
  Eval vm_compute in pool_after 5 profile_heap empty_pool [JPtr 1%positive].


(** * Properties *)

(** Numbers as a template literal prints them: in full up to 21 digits,
    with the shortest digits that denote the double, and with an exponent
    beyond. *)
Example number_to_string_examples :
  number_to_string 0 = "0" ∧
  number_to_string (-45) = "-45" ∧
  number_to_string 9007199254740993 = "9007199254740992" ∧
  number_to_string (2 ^ 60) = "1152921504606847000" ∧
  number_to_string 123456789012345678901 = "123456789012345680000" ∧
  number_to_string (10 ^ 21) = "1e+21" ∧
  number_to_string (- 10 ^ 21) = "-1e+21" ∧
  number_to_string (2 ^ 70) = "1.1805916207174113e+21" ∧
  number_to_string (2 ^ 1024) = "Infinity" ∧
  identify [("id", JScalar (SNum (10 ^ 21))); ("__type", JScalar (SStr "user"))]
    = Some "user:1e+21".
Proof. split_and!; vm_compute; reflexivity. Qed.

Example identify_alice :
  identify (scalar_entries JScalar alice_obj) = Some "user:1".
Proof. reflexivity. Qed.

(** ** Plain objects *)

Section ObjectFacts.
Context {A : Type}.
Implicit Types (obj acc : list (string * A)) (k key : string) (v : A).

Lemma obj_get_set_eq k v obj : obj_get k (obj_set k v obj) = Some v.
Proof.
  induction obj as [|[k' v'] obj IH]; simpl.
  - by rewrite decide_True.
  - destruct (decide (k = k')) as [->|Hne]; simpl.
    + by rewrite decide_True.
    + by rewrite decide_False.
Qed.

Lemma obj_get_set_ne k k' v obj :
  k ≠ k' → obj_get k (obj_set k' v obj) = obj_get k obj.
Proof.
  intros Hne. induction obj as [|[k0 v0] obj IH]; simpl.
  - by rewrite decide_False.
  - destruct (decide (k' = k0)) as [->|Hne0]; simpl.
    + by rewrite !decide_False.
    + destruct (decide (k = k0)); done.
Qed.

Lemma obj_get_None k obj : obj_get k obj = None ↔ k ∉ keys obj.
Proof.
  unfold keys. induction obj as [|[k' v'] obj IH]; simpl.
  - split; [intros _; apply not_elem_of_nil | done].
  - rewrite not_elem_of_cons. destruct (decide (k = k')) as [->|Hne].
    + split; [done | intros [? _]; done].
    + rewrite IH. tauto.
Qed.

Lemma obj_get_Some_elem k v obj : obj_get k obj = Some v → (k, v) ∈ obj.
Proof.
  induction obj as [|[k' v'] obj IH]; simpl; [done|].
  destruct (decide (k = k')) as [->|Hne].
  - intros [= ->]. left.
  - intros H. right. auto.
Qed.

Lemma obj_get_elem k v obj :
  NoDup (keys obj) → (k, v) ∈ obj → obj_get k obj = Some v.
Proof.
  unfold keys. induction obj as [|[k' v'] obj IH]; simpl.
  - intros _ H. by apply elem_of_nil in H.
  - rewrite NoDup_cons. intros [Hk Hnd] [[= -> ->]|Hin]%elem_of_cons.
    + by rewrite decide_True.
    + rewrite decide_False; [auto|].
      intros ->. apply Hk. apply list_elem_of_fmap. by exists (k', v).
Qed.

Lemma keys_set_fresh k v obj :
  k ∉ keys obj → obj_set k v obj = obj ++ [(k, v)].
Proof.
  unfold keys. induction obj as [|[k' v'] obj IH]; simpl; [done|].
  rewrite not_elem_of_cons. intros [Hne Hk].
  rewrite decide_False by done. by rewrite IH.
Qed.

(** Assigning the entries of an object with distinct keys, none of which
    the target has, appends them. *)
Lemma obj_spread_fresh acc obj :
  NoDup (keys obj) → (∀ k, k ∈ keys obj → k ∉ keys acc) →
  obj_spread acc obj = acc ++ obj.
Proof.
  unfold obj_spread, keys. revert acc.
  induction obj as [|[k v] obj IH]; intros acc Hnd Hfresh; simpl.
  - by rewrite app_nil_r.
  - apply NoDup_cons in Hnd as [Hk Hnd]. simpl in *.
    rewrite keys_set_fresh by (apply Hfresh; left).
    rewrite IH, <- app_assoc; [done | done |].
    intros k' Hk'. rewrite fmap_app, elem_of_app. simpl.
    intros [Hin|Hin%list_elem_of_singleton].
    + eapply Hfresh; [right|]; done.
    + by subst.
Qed.

Lemma obj_spread_nil obj : NoDup (keys obj) → obj_spread [] obj = obj.
Proof.
  intros Hnd. rewrite obj_spread_fresh; [done | done |].
  intros k _. apply not_elem_of_nil.
Qed.

(** New keys win, the others are retained. *)
Lemma obj_get_spread k acc obj :
  NoDup (keys obj) →
  obj_get k (obj_spread acc obj) =
    match obj_get k obj with
    | Some v => Some v
    | None => obj_get k acc
    end.
Proof.
  unfold obj_spread, keys. revert acc.
  induction obj as [|[k' v'] obj IH]; intros acc Hnd; simpl; [done|].
  apply NoDup_cons in Hnd as [Hk Hnd]. rewrite IH by done.
  destruct (decide (k = k')) as [->|Hne].
  - assert (obj_get k' obj = None) as -> by by apply obj_get_None.
    apply obj_get_set_eq.
  - destruct (obj_get k obj); [done|]. by apply obj_get_set_ne.
Qed.

Lemma keys_set k v obj k' :
  k' ∈ keys (obj_set k v obj) ↔ k' = k ∨ k' ∈ keys obj.
Proof.
  unfold keys. induction obj as [|[k0 v0] obj IH]; simpl.
  - rewrite list_elem_of_singleton. set_solver.
  - destruct (decide (k = k0)) as [->|Hne]; simpl.
    + set_solver.
    + rewrite !elem_of_cons, IH. tauto.
Qed.

Lemma NoDup_keys_set k v obj :
  NoDup (keys obj) → NoDup (keys (obj_set k v obj)).
Proof.
  unfold keys. induction obj as [|[k' v'] obj IH]; simpl.
  - intros _. apply NoDup_singleton.
  - rewrite NoDup_cons. intros [Hk Hnd].
    destruct (decide (k = k')) as [->|Hne]; simpl.
    + by apply NoDup_cons.
    + apply NoDup_cons. split; [|auto].
      intros Hin. apply keys_set in Hin as [?|?]; done.
Qed.

Lemma NoDup_keys_spread acc obj :
  NoDup (keys acc) → NoDup (keys (obj_spread acc obj)).
Proof.
  unfold obj_spread. revert acc.
  induction obj as [|[k v] obj IH]; intros acc Hnd; simpl; [done|].
  apply IH. by apply NoDup_keys_set.
Qed.
End ObjectFacts.

(** ** Sequencing *)

Section MonadFacts.
Context {S : Type}.

Lemma bind_Some {A B} (m : M S A) (k : A → M S B) s r :
  bind m k s = Some r ↔
  (∃ msg s', m s = Some (Throw msg, s') ∧ r = (Throw msg, s')) ∨
  (∃ a s', m s = Some (Return a, s') ∧ k a s' = Some r).
Proof.
  unfold bind. destruct (m s) as [[[a|msg] s']|]; split.
  - intros H. right. eauto.
  - intros [(? & ? & [=] & _)|(? & ? & [= -> ->] & H)]. done.
  - intros [= <-]. left. eauto.
  - intros [(? & ? & [= -> ->] & ->)|(? & ? & [=] & _)]. done.
  - done.
  - intros [(? & ? & [=] & _)|(? & ? & [=] & _)].
Qed.

Lemma bind_Return {A B} (m : M S A) (k : A → M S B) s a s' :
  m s = Some (Return a, s') → bind m k s = k a s'.
Proof. unfold bind. by intros ->. Qed.

Lemma bind_Throw {A B} (m : M S A) (k : A → M S B) s msg s' :
  m s = Some (Throw msg, s') → bind m k s = Some (Throw msg, s').
Proof. unfold bind. by intros ->. Qed.
End MonadFacts.

(** Settles a decidable closed proposition by evaluation. *)
Ltac by_compute := apply (bool_decide_unpack _); vm_compute; exact I.

(** Splits a hypothesis [bind m k s = Some r] into its two cases. *)
Ltac inv_bind H :=
  let msg := fresh "msg" in
  let a := fresh "a" in
  let s := fresh "s" in
  let E := fresh "E" in
  apply bind_Some in H as [(msg & s & E & H)|(a & s & E & H)].

Tactic Notation "inv_bind_as" hyp(H) ident(a) ident(s) ident(E) :=
  apply bind_Some in H as [(a & s & E & H)|(a & s & E & H)].

(** A loop whose body never throws and moves the state along a preorder
    does the same. *)
Section Loops.
Context {S T U : Type}.
Variable R : S → S → Prop.
Hypothesis R_refl : ∀ s, R s s.
Hypothesis R_trans : ∀ s1 s2 s3, R s1 s2 → R s2 s3 → R s1 s3.

Lemma arrayMap_steps (fn : T → M S U) arr :
  Forall (steps R fn) arr →
  ∀ s o s', arrayMap fn arr s = Some (o, s') → R s s'.
Proof.
  induction 1 as [|x arr Hx _ IH]; intros s o s' H; simpl in H.
  - injection H as <- <-. done.
  - inv_bind H.
    + injection H as -> ->. eauto.
    + apply Hx in E. inv_bind H.
      * injection H as -> ->. eauto.
      * injection H as <- <-. eauto.
Qed.

Lemma objectMap_loop_steps (fn : T → M S U) entries :
  Forall (steps R fn) entries.*2 →
  ∀ acc s o s', objectMap_loop fn entries acc s = Some (o, s') → R s s'.
Proof.
  induction entries as [|[k x] entries IH]; intros Hall acc s o s' H;
    simpl in *.
  - injection H as <- <-. done.
  - apply Forall_cons in Hall as [Hx Hall]. inv_bind H.
    + injection H as -> ->. eauto.
    + apply Hx in E. eauto.
Qed.

Lemma forOf_steps (fn : T → M S U) items :
  Forall (steps R fn) items →
  ∀ s o s', forOf fn items s = Some (o, s') → R s s'.
Proof.
  induction 1 as [|x items Hx _ IH]; intros s o s' H; simpl in H.
  - injection H as <- <-. done.
  - inv_bind H.
    + injection H as -> ->. eauto.
    + apply Hx in E. eauto.
Qed.
End Loops.

(** A loop over a body that never throws never throws. *)
Section LoopsReturn.
Context {S T U : Type}.

Lemma arrayMap_returns (fn : T → M S U) arr :
  Forall (returns fn) arr →
  ∀ s o s', arrayMap fn arr s = Some (o, s') → ∃ us, o = Return us.
Proof.
  induction 1 as [|x arr Hx _ IH]; intros s o s' H; simpl in H.
  - injection H as <- <-. eauto.
  - inv_bind H; [by apply Hx in E as [? ?]|].
    inv_bind H; [by apply IH in E0 as [? ?]|].
    injection H as <- <-. eauto.
Qed.

Lemma objectMap_loop_returns (fn : T → M S U) entries :
  Forall (returns fn) entries.*2 →
  ∀ acc s o s',
    objectMap_loop fn entries acc s = Some (o, s') → ∃ us, o = Return us.
Proof.
  induction entries as [|[k x] entries IH]; intros Hall acc s o s' H;
    simpl in *.
  - injection H as <- <-. eauto.
  - apply Forall_cons in Hall as [Hx Hall].
    inv_bind H; [by apply Hx in E as [? ?]|]. eauto.
Qed.
End LoopsReturn.

(** More fuel in the body gives the same result. *)
Section LoopsMono.
Context {S T U : Type}.

Lemma arrayMap_below (f g : T → M S U) arr :
  Forall (below f g) arr →
  ∀ s r, arrayMap f arr s = Some r → arrayMap g arr s = Some r.
Proof.
  induction 1 as [|x arr Hx _ IH]; intros s r H; simpl in *; [done|].
  inv_bind H.
  - subst r. apply Hx in E. by rewrite (bind_Throw _ _ _ _ _ E).
  - apply Hx in E. rewrite (bind_Return _ _ _ _ _ E).
    inv_bind H.
    + subst r. apply IH in E0. by rewrite (bind_Throw _ _ _ _ _ E0).
    + apply IH in E0. by rewrite (bind_Return _ _ _ _ _ E0).
Qed.

Lemma objectMap_loop_below (f g : T → M S U) entries :
  Forall (below f g) entries.*2 →
  ∀ acc s r,
    objectMap_loop f entries acc s = Some r →
    objectMap_loop g entries acc s = Some r.
Proof.
  induction entries as [|[k x] entries IH]; intros Hall acc s r H;
    simpl in *; [done|].
  apply Forall_cons in Hall as [Hx Hall]. inv_bind H.
  - subst r. apply Hx in E. by rewrite (bind_Throw _ _ _ _ _ E).
  - apply Hx in E. rewrite (bind_Return _ _ _ _ _ E). eauto.
Qed.

Lemma forOf_below (f g : T → M S U) items :
  Forall (below f g) items →
  ∀ s r, forOf f items s = Some r → forOf g items s = Some r.
Proof.
  induction 1 as [|x items Hx _ IH]; intros s r H; simpl in *; [done|].
  inv_bind H.
  - subst r. apply Hx in E. by rewrite (bind_Throw _ _ _ _ _ E).
  - apply Hx in E. rewrite (bind_Return _ _ _ _ _ E). eauto.
Qed.
End LoopsMono.

(** What a loop of [objectMap] gives each name. *)
Section LoopFields.
Context {S T U : Type}.
Variable fn : T → M S U.

Lemma objectMap_loop_NoDup entries :
  ∀ acc s us s',
    NoDup (keys acc) →
    objectMap_loop fn entries acc s = Some (Return us, s') → NoDup (keys us).
Proof.
  induction entries as [|[k x] entries IH]; intros acc s us s' Hnd H;
    simpl in H.
  - by injection H as <- <-.
  - inv_bind H; [done|]. eapply IH; [|done]. by apply NoDup_keys_set.
Qed.

(** The loop keeps a property it has set while it sets others. *)
Lemma objectMap_loop_keeps entries k v :
  k ∉ keys entries →
  ∀ acc s us s',
    obj_get k acc = Some v →
    objectMap_loop fn entries acc s = Some (Return us, s') →
    obj_get k us = Some v.
Proof.
  unfold keys.
  induction entries as [|[k' x] entries IH]; intros Hk acc s us s' Hget H;
    simpl in *.
  - by injection H as <- <-.
  - apply not_elem_of_cons in Hk as [Hne Hk]. inv_bind H; [done|].
    eapply IH; [done| |done]. by rewrite obj_get_set_ne.
Qed.

(** Each property of the result is what the body has returned for the
    value of that name. *)
Lemma objectMap_loop_field entries k x :
  NoDup (keys entries) → (k, x) ∈ entries →
  ∀ acc s us s',
    objectMap_loop fn entries acc s = Some (Return us, s') →
    ∃ s1 u s1', fn x s1 = Some (Return u, s1') ∧ obj_get k us = Some u.
Proof.
  unfold keys.
  induction entries as [|[k' x'] entries IH]; intros Hnd Hin acc s us s' H;
    simpl in *.
  - by apply elem_of_nil in Hin.
  - apply NoDup_cons in Hnd as [Hk Hnd]. inv_bind H; [done|].
    apply elem_of_cons in Hin as [[= -> ->]|Hin].
    + exists s, a, s0. split; [done|].
      eapply objectMap_loop_keeps; [done| |done]. apply obj_get_set_eq.
    + by eapply IH.
Qed.
End LoopFields.

(** Loops over a body that keeps an invariant of the state: what the
    result holds at each place is what the body has returned there. *)
Section LoopsAt.
Context {S T U : Type}.
Variable fn : T → M S U.
Variable I : S → Prop.
Hypothesis fn_keeps : ∀ x s o s', I s → fn x s = Some (o, s') → I s'.


End LoopsAt.

(** ** The read path *)

Lemma resolveFields_below (f g : PoolAny → M Stack Resolved) ref entries :
  Forall (below f g) entries.*2 →
  ∀ s r, resolveFields f ref entries s = Some r →
         resolveFields g ref entries s = Some r.
Proof.
  induction entries as [|[k x] entries IH]; intros Hall s r H;
    simpl in *; [done|].
  apply Forall_cons in Hall as [Hx Hall]. inv_bind H.
  - subst r. apply Hx in E. by rewrite (bind_Throw _ _ _ _ _ E).
  - apply Hx in E. rewrite (bind_Return _ _ _ _ _ E).
    inv_bind H; [done|]. injection E0 as <- <-.
    unfold bind at 1. simpl. eauto.
Qed.

Lemma resolveFields_inv (I : Stack → Prop) fn ref entries :
  Forall (λ x, ∀ s o s', I s → fn x s = Some (o, s') →
                         I s' ∧ ∃ v, o = Return v) entries.*2 →
  (∀ k v s, I s → I (assign ref k v s)) →
  ∀ s o s', I s → resolveFields fn ref entries s = Some (o, s') →
            I s' ∧ o = Return tt.
Proof.
  intros Hall Hassign.
  induction entries as [|[k x] entries IH]; intros s o s' Hs H; simpl in *.
  - by injection H as <- <-.
  - apply Forall_cons in Hall as [Hx Hall]. inv_bind H.
    + by destruct (Hx _ _ _ Hs E) as [_ [? ?]].
    + destruct (Hx _ _ _ Hs E) as [Hs0 _].
      inv_bind H; [done|]. injection E0 as <- <-. eauto.
Qed.

Section ResolverFacts.
Variable store : gmap string PoolObject.

Lemma resolveValue_S fuel value :
  resolveValue store (S fuel) value =
    match value with
    | PScalar s => ret (RScalar s)
    | PArray items =>
        let* vs := arrayMap (resolveValue store fuel) items in
        ret (RArray vs)
    | PObject entries =>
        let inline :=
          (let* vs := objectMap (resolveValue store fuel) entries in
           ret (RObject vs)) in
        match obj_get REF_LABEL entries with
        | Some (PScalar (SStr ref)) =>
            let* found := resolvePoolObject store fuel ref in
            if truthy found then ret found else inline
        | _ => inline
        end
    end.
Proof. reflexivity. Qed.

Lemma resolvePoolObject_S fuel ref :
  resolvePoolObject store (S fuel) ref =
    (let* stack := get in
     if decide (is_Some (stack !! ref)) then ret (RShared ref)
     else
       match store !! ref with
       | None => ret (RScalar SNull)
       | Some poolObject =>
           do modify (insert ref []) in
           do resolveFields (resolveValue store fuel) ref
                (fields poolObject) in
           ret (RShared ref)
       end).
Proof. reflexivity. Qed.

(** *** More fuel, same result *)

Lemma resolve_step_mono fuel :
  (∀ v, below (resolveValue store fuel) (resolveValue store (S fuel)) v) ∧
  (∀ ref s r, resolvePoolObject store fuel ref s = Some r →
              resolvePoolObject store (S fuel) ref s = Some r).
Proof.
  induction fuel as [|fuel [IHv IHp]]; [by split|].
  assert (∀ entries s r,
    (let* vs := objectMap (resolveValue store fuel) entries in
     ret (RObject vs)) s = Some r →
    (let* vs := objectMap (resolveValue store (S fuel)) entries in
     ret (RObject vs)) s = Some r) as Hinline.
  { intros entries s r H. inv_bind H.
    - subst r. eapply objectMap_loop_below in E.
      + unfold objectMap. by rewrite (bind_Throw _ _ _ _ _ E).
      + apply Forall_forall. auto.
    - eapply objectMap_loop_below in E.
      + unfold objectMap. by rewrite (bind_Return _ _ _ _ _ E).
      + apply Forall_forall. auto. }
  split.
  - intros v s r H. rewrite resolveValue_S in *.
    destruct v as [sc|items|entries]; [done| |].
    + inv_bind H.
      * subst r. eapply arrayMap_below in E.
        -- by rewrite (bind_Throw _ _ _ _ _ E).
        -- apply Forall_forall. auto.
      * eapply arrayMap_below in E.
        -- by rewrite (bind_Return _ _ _ _ _ E).
        -- apply Forall_forall. auto.
    + cbv zeta in *.
      destruct (obj_get REF_LABEL entries) as [[[| | | |ref]| |]|]; auto.
      inv_bind H.
      * subst r. apply IHp in E. by rewrite (bind_Throw _ _ _ _ _ E).
      * apply IHp in E. rewrite (bind_Return _ _ _ _ _ E).
        destruct (truthy a); auto.
  - intros ref s r H. rewrite resolvePoolObject_S in *.
    unfold bind at 1 in H. unfold bind at 1. simpl in *.
    destruct (decide (is_Some (s !! ref))); [done|].
    destruct (store !! ref) as [poolObject|]; [|done].
    unfold bind at 1 in H. unfold bind at 1. simpl in *.
    inv_bind H.
    + subst r. eapply resolveFields_below in E.
      * by rewrite (bind_Throw _ _ _ _ _ E).
      * apply Forall_forall. auto.
    + eapply resolveFields_below in E.
      * by rewrite (bind_Return _ _ _ _ _ E).
      * apply Forall_forall. auto.
Qed.

Lemma resolveValue_mono fuel fuel' v s r :
  (fuel ≤ fuel')%nat →
  resolveValue store fuel v s = Some r →
  resolveValue store fuel' v s = Some r.
Proof.
  induction 1 as [|fuel' _ IH]; [done|].
  intros H. by apply resolve_step_mono, IH.
Qed.

Lemma resolvePoolObject_mono fuel fuel' ref s r :
  (fuel ≤ fuel')%nat →
  resolvePoolObject store fuel ref s = Some r →
  resolvePoolObject store fuel' ref s = Some r.
Proof.
  induction 1 as [|fuel' _ IH]; [done|].
  intros H. by apply resolve_step_mono, IH.
Qed.
End ResolverFacts.

(** *** What a resolution does to the cache

    A resolution never throws, registers objects for stored refs only, and
    leaves the objects that the cache already holds as they are. *)

Lemma extends_refl s : extends s s.
Proof. by intros r _. Qed.

Lemma extends_trans s1 s2 s3 : extends s1 s2 → extends s2 s3 → extends s1 s3.
Proof.
  intros H12 H23 r Hr. rewrite H23, H12; [done..|]. by rewrite H12.
Qed.

Lemma extends_is_Some s s' r : extends s s' → is_Some (s !! r) → is_Some (s' !! r).
Proof. intros H Hr. by rewrite H. Qed.

Lemma good_refl store s : good store s s.
Proof. split; [apply extends_refl | done]. Qed.

Lemma good_trans store s1 s2 s3 :
  good store s1 s2 → good store s2 s3 → good store s1 s3.
Proof.
  intros [H12 I12] [H23 I23]. split; [by eapply extends_trans | auto].
Qed.

Section ResolverInvariants.
Variable store : gmap string PoolObject.

Lemma resolve_good fuel :
  (∀ v s o s', resolveValue store fuel v s = Some (o, s') →
               good store s s' ∧ ∃ rv, o = Return rv) ∧
  (∀ ref s o s', resolvePoolObject store fuel ref s = Some (o, s') →
                 good store s s' ∧ resolved_ref store ref s o s').
Proof.
  induction fuel as [|fuel [IHv IHp]]; [by split|].
  assert (∀ l : list PoolAny,
    Forall (steps (good store) (resolveValue store fuel)) l) as Hsteps.
  { intros l. apply Forall_forall. intros x _ s o s' H.
    by apply IHv in H as [? _]. }
  assert (∀ l : list PoolAny,
    Forall (returns (resolveValue store fuel)) l) as Hrets.
  { intros l. apply Forall_forall. intros x _ s o s' H.
    by apply IHv in H as [_ ?]. }
  assert (∀ entries s o s',
    (let* vs := objectMap (resolveValue store fuel) entries in
     ret (RObject vs)) s = Some (o, s') →
    good store s s' ∧ ∃ rv, o = Return rv) as Hinline.
  { intros entries s o s' H. inv_bind H.
    - by eapply objectMap_loop_returns in E as [? ?].
    - eapply (objectMap_loop_steps (good store) (good_refl store)
                (good_trans store)) in E; [|apply Hsteps].
      injection H as <- <-. eauto. }
  split.
  - intros v s o s' H. rewrite resolveValue_S in H.
    destruct v as [sc|items|entries].
    + injection H as <- <-. eauto using good_refl.
    + inv_bind H.
      * by eapply arrayMap_returns in E as [? ?].
      * eapply (arrayMap_steps (good store) (good_refl store)
                  (good_trans store)) in E; [|apply Hsteps].
        injection H as <- <-. eauto.
    + cbv zeta in H.
      destruct (obj_get REF_LABEL entries) as [[[| | | |ref]| |]|];
        try (by eapply Hinline).
      inv_bind H.
      * by apply IHp in E as [_ [[? _]|[? _]]].
      * apply IHp in E as [Hg [[[= ->] _]|([= ->] & _ & _ & ->)]]; simpl in H.
        -- injection H as <- <-. eauto.
        -- by eapply Hinline.
  - intros ref s o s' H. rewrite resolvePoolObject_S in H.
    unfold bind at 1 in H. simpl in H.
    destruct (decide (is_Some (s !! ref))) as [Hin|Hout].
    { injection H as <- <-. split; [apply good_refl|]. by left. }
    destruct (store !! ref) as [poolObject|] eqn:Hstore.
    2:{ injection H as <- <-. split; [apply good_refl|]. right.
        split_and!; try done. by apply eq_None_not_Some. }
    unfold bind at 1 in H. simpl in H.
    apply eq_None_not_Some in Hout.
    set (I := λ s1 : Stack,
      extends s s1 ∧ is_Some (s1 !! ref) ∧
      (cached_stored store s → cached_stored store s1)).
    assert (I (<[ref:=[]]> s)) as HI0.
    { split_and!.
      - intros r Hr. rewrite lookup_insert_ne; [done|].
        intros <-. rewrite Hout in Hr. by destruct Hr.
      - by rewrite lookup_insert_eq.
      - intros Hs r. destruct (decide (r = ref)) as [->|Hne].
        + by rewrite Hstore.
        + rewrite lookup_insert_ne by done. apply Hs. }
    inv_bind H.
    + eapply (resolveFields_inv I) in E as [_ [=]]; [| |done].
      * apply Forall_forall. intros x _ s1 o1 s1' (He & Hr & Hc) Hx.
        apply IHv in Hx as [[He' Hc'] Hret]. split; [|done].
        split_and!; [by eapply extends_trans | by eapply extends_is_Some|].
        auto.
      * intros k v s1 (He & Hr & Hc). unfold assign. split_and!.
        -- intros r Hr'. rewrite lookup_insert_ne; [by apply He|].
           intros <-. rewrite Hout in Hr'. by destruct Hr'.
        -- by rewrite lookup_insert_eq.
        -- intros Hs r. destruct (decide (r = ref)) as [->|Hne].
           ++ by rewrite Hstore.
           ++ rewrite lookup_insert_ne by done. by apply Hc.
    + eapply (resolveFields_inv I) in E as [(He & Hr & Hc) _]; [| | |done].
      * injection H as <- <-. split; [by split | by left].
      * apply Forall_forall. intros x _ s1 o1 s1' (He & Hr & Hc) Hx.
        apply IHv in Hx as [[He' Hc'] Hret]. split; [|done].
        split_and!; [by eapply extends_trans | by eapply extends_is_Some|].
        auto.
      * intros k v s1 (He & Hr & Hc). unfold assign. split_and!.
        -- intros r Hr'. rewrite lookup_insert_ne; [by apply He|].
           intros <-. rewrite Hout in Hr'. by destruct Hr'.
        -- by rewrite lookup_insert_eq.
        -- intros Hs r. destruct (decide (r = ref)) as [->|Hne].
           ++ by rewrite Hstore.
           ++ rewrite lookup_insert_ne by done. by apply Hc.
Qed.
End ResolverInvariants.

(** *** Loops over a body that returns, given enough fuel *)

Section LoopsTotal.
Context {S T U : Type}.
Variable fn : nat → T → M S U.
Variable Q : S → Prop.
Hypothesis fn_mono :
  ∀ n n' x s r, (n ≤ n')%nat → fn n x s = Some r → fn n' x s = Some r.

Lemma arrayMap_total arr :
  Forall (finishes fn Q) arr →
  ∀ s, Q s → ∃ n us s', arrayMap (fn n) arr s = Some (Return us, s') ∧ Q s'.
Proof.
  induction 1 as [|x arr Hx _ IH]; intros s Hs; simpl.
  - exists 0%nat, [], s. done.
  - destruct (Hx s Hs) as (n1 & u & s1 & E1 & Hs1).
    destruct (IH s1 Hs1) as (n2 & us & s2 & E2 & Hs2).
    exists (n1 `max` n2)%nat, (u :: us), s2. split; [|done].
    rewrite (bind_Return _ _ _ _ _ (fn_mono n1 _ _ _ _ (Nat.le_max_l _ _) E1)).
    eapply (arrayMap_below (fn n2)) in E2.
    + by rewrite (bind_Return _ _ _ _ _ E2).
    + apply Forall_forall. intros y _ s' r. apply fn_mono, Nat.le_max_r.
Qed.

Lemma objectMap_loop_total entries :
  Forall (finishes fn Q) entries.*2 →
  ∀ acc s, Q s →
    ∃ n us s', objectMap_loop (fn n) entries acc s = Some (Return us, s')
               ∧ Q s'.
Proof.
  induction entries as [|[k x] entries IH]; intros Hall acc s Hs; simpl in *.
  - exists 0%nat, acc, s. done.
  - apply Forall_cons in Hall as [Hx Hall].
    destruct (Hx s Hs) as (n1 & u & s1 & E1 & Hs1).
    destruct (IH Hall (obj_set k u acc) s1 Hs1) as (n2 & us & s2 & E2 & Hs2).
    exists (n1 `max` n2)%nat, us, s2. split; [|done].
    rewrite (bind_Return _ _ _ _ _ (fn_mono n1 _ _ _ _ (Nat.le_max_l _ _) E1)).
    eapply (objectMap_loop_below (fn n2)); [|done].
    apply Forall_forall. intros y _ s' r. apply fn_mono, Nat.le_max_r.
Qed.
End LoopsTotal.

Lemma resolveFields_total (fn : nat → PoolAny → M Stack Resolved)
    (Q : Stack → Prop) ref entries :
  (∀ n n' x s r, (n ≤ n')%nat → fn n x s = Some r → fn n' x s = Some r) →
  (∀ k v s, Q s → Q (assign ref k v s)) →
  Forall (finishes fn Q) entries.*2 →
  ∀ s, Q s →
    ∃ n s', resolveFields (fn n) ref entries s = Some (Return tt, s') ∧ Q s'.
Proof.
  intros fn_mono Hassign.
  induction entries as [|[k x] entries IH]; intros Hall s Hs; simpl in *.
  - exists 0%nat, s. done.
  - apply Forall_cons in Hall as [Hx Hall].
    destruct (Hx s Hs) as (n1 & u & s1 & E1 & Hs1).
    destruct (IH Hall _ (Hassign k u _ Hs1)) as (n2 & s2 & E2 & Hs2).
    exists (n1 `max` n2)%nat, s2. split; [|done].
    rewrite (bind_Return _ _ _ _ _ (fn_mono n1 _ _ _ _ (Nat.le_max_l _ _) E1)).
    unfold bind at 1. simpl.
    eapply (resolveFields_below (fn n2)); [|done].
    apply Forall_forall. intros y _ s' r. apply fn_mono, Nat.le_max_r.
Qed.

(** *** Every resolution terminates

    The refs that are stored but not yet cached decrease each time an
    object is registered. *)

Section ResolverTotal.
Variable store : gmap string PoolObject.

Lemma pending_extends s s' :
  extends s s' → (pending store s' ≤ pending store s)%nat.
Proof.
  intros He. apply subseteq_size. intros r.
  rewrite !elem_of_difference, !elem_of_dom.
  intros [Hr Hs']. split; [done|]. intros Hs. apply Hs'.
  by eapply extends_is_Some.
Qed.

Lemma pending_assign ref k v s :
  (pending store (assign ref k v s) ≤ pending store s)%nat.
Proof.
  apply subseteq_size. unfold assign. rewrite dom_insert_L. set_solver.
Qed.

Lemma pending_register ref s :
  s !! ref = None → is_Some (store !! ref) →
  (pending store (<[ref:=[]]> s) < pending store s)%nat.
Proof.
  intros Hs Hst. apply subset_size. rewrite dom_insert_L.
  apply elem_of_dom in Hst. apply not_elem_of_dom in Hs. set_solver.
Qed.

Lemma resolve_total_pending m :
  ∀ v s, (pending store s ≤ m)%nat →
    ∃ n rv s', resolveValue store n v s = Some (Return rv, s').
Proof.
  induction (lt_wf m) as [m _ IHm].
  pose (Q := λ s : Stack, (pending store s ≤ m)%nat).
  assert (∀ v, (∀ s, Q s → ∃ n rv s',
                  resolveValue store n v s = Some (Return rv, s')) →
               finishes (resolveValue store) Q v) as Hfin.
  { intros v Hv s Hs. destruct (Hv s Hs) as (n & rv & s' & E).
    exists n, rv, s'. split; [done|].
    apply resolve_good in E as [[He _] _].
    unfold Q in *. pose proof (pending_extends _ _ He). lia. }
  assert (∀ n n' x s r, (n ≤ n')%nat →
    resolveValue store n x s = Some r → resolveValue store n' x s = Some r)
    as Hmono by (intros; by eapply resolveValue_mono).
  intros v.
  induction v as [sc|items IH|entries IH] using PoolAny_nested_ind;
    intros s Hs.
  - exists 1%nat, (RScalar sc), s. done.
  - destruct (arrayMap_total (resolveValue store) Q Hmono items) with s
      as (n & us & s' & E & _); [|done|].
    { eapply Forall_impl; [exact IH|]. intros x Hx. by apply Hfin. }
    exists (S n), (RArray us), s'. rewrite resolveValue_S.
    by rewrite (bind_Return _ _ _ _ _ E).
  - assert (∃ n rv s',
      (let* vs := objectMap (resolveValue store n) entries in
       ret (RObject vs)) s = Some (Return rv, s')) as (n & rv & s' & Hinline).
    { destruct (objectMap_loop_total (resolveValue store) Q Hmono entries)
        with (@nil (string * Resolved)) s as (n & us & s' & E & _); [|done|].
      { eapply Forall_impl; [exact IH|]. intros x Hx. by apply Hfin. }
      exists n, (RObject us), s'. unfold objectMap.
      by rewrite (bind_Return _ _ _ _ _ E). }
    destruct (obj_get REF_LABEL entries) as [[[| | | |ref]| |]|] eqn:Hget;
      try (exists (S n), rv, s'; rewrite resolveValue_S; cbv zeta;
           by rewrite Hget).
    destruct (decide (is_Some (s !! ref))) as [Hin|Hout].
    { exists 2%nat, (RShared ref), s. rewrite resolveValue_S. cbv zeta.
      rewrite Hget, resolvePoolObject_S. unfold bind at 1 2. simpl.
      by rewrite decide_True. }
    destruct (store !! ref) as [poolObject|] eqn:Hstore.
    2:{ exists (S (S n)), rv, s'. rewrite resolveValue_S. cbv zeta.
        rewrite Hget, resolvePoolObject_S. unfold bind at 1 2. simpl.
        rewrite decide_False, Hstore by done. simpl.
        inv_bind Hinline; [done|]. injection Hinline as <- <-.
        eapply objectMap_loop_below in E.
        - unfold objectMap. by rewrite (bind_Return _ _ _ _ _ E).
        - apply Forall_forall. intros x _ s1 r.
          apply Hmono. lia. }
    apply eq_None_not_Some in Hout.
    assert (pending store (<[ref:=[]]> s) < pending store s)%nat as Hlt
      by by apply pending_register.
    destruct m as [|m]; [lia|].
    pose (Q' := λ s : Stack, (pending store s ≤ m)%nat).
    destruct (resolveFields_total (resolveValue store) Q' ref
                (fields poolObject) Hmono) with (<[ref:=[]]> s)
      as (n' & s1 & E & _).
    { intros k v s0 Hs0. unfold Q' in *.
      pose proof (pending_assign ref k v s0). lia. }
    { apply Forall_forall. intros x _ s0 Hs0.
      destruct (IHm m (Nat.lt_succ_diag_r m) x s0 Hs0) as (n0 & rv0 & s0' & E).
      exists n0, rv0, s0'. split; [done|].
      apply resolve_good in E as [[He _] _].
      unfold Q' in *. pose proof (pending_extends _ _ He). lia. }
    { unfold Q'. lia. }
    exists (S (S n')), (RShared ref), s1. rewrite resolveValue_S. cbv zeta.
    rewrite Hget, resolvePoolObject_S. unfold bind at 1 2. simpl.
    rewrite decide_False, Hstore by by apply eq_None_not_Some.
    unfold bind at 1 2. simpl. by rewrite E.
Qed.

Lemma resolveValue_total v s :
  ∃ n, ∀ fuel, (n ≤ fuel)%nat →
    ∃ rv s', resolveValue store fuel v s = Some (Return rv, s').
Proof.
  destruct (resolve_total_pending _ v s (Nat.le_refl _)) as (n & rv & s' & E).
  exists n. intros fuel Hle. exists rv, s'. by eapply resolveValue_mono.
Qed.

Lemma resolvePoolObject_total ref s :
  ∃ n, ∀ fuel, (n ≤ fuel)%nat →
    ∃ rv s', resolvePoolObject store fuel ref s = Some (Return rv, s').
Proof.
  destruct (resolveValue_total (marker ref) s) as [n Hn].
  exists (S n). intros fuel Hle.
  destruct fuel as [|fuel]; [lia|].
  destruct (Hn (S (S fuel))) as (rv & s' & E); [lia|].
  rewrite resolveValue_S in E. simpl in E.
  inv_bind E.
  { apply resolve_good in E0 as [_ [[[=] _]|[[=] _]]]. }
  pose proof E0 as E1.
  apply resolve_good in E1 as [_ Href]. eauto.
Qed.
End ResolverTotal.

(** *** The fields of a resolved object *)

Lemma keys_scalar_entries {A} (inj : scalar → A) obj :
  keys (scalar_entries inj obj) = keys obj.
Proof.
  unfold keys, scalar_entries. rewrite <- list_fmap_compose.
  apply list_fmap_ext. by intros _ [k v] _.
Qed.

Lemma obj_get_scalar_entries {A} (inj : scalar → A) k obj :
  obj_get k (scalar_entries inj obj) = inj <$> obj_get k obj.
Proof.
  induction obj as [|[k' v] obj IH]; simpl; [done|].
  destruct (decide (k = k')); done.
Qed.

Section ResolvedFields.
Variable store : gmap string PoolObject.

Lemma cached_stored_assign ref k v s :
  is_Some (s !! ref) → cached_stored store s →
  cached_stored store (assign ref k v s).
Proof.
  intros Hr Hs r. unfold assign.
  destruct (decide (r = ref)) as [->|Hne]; [intros _; by apply Hs|].
  rewrite lookup_insert_ne by done. apply Hs.
Qed.

(** The loop keeps a property it has assigned while it assigns others. *)
Lemma resolveFields_keeps fuel ref entries k v :
  k ∉ keys entries →
  ∀ s s' obj,
    s !! ref = Some obj → obj_get k obj = Some v →
    cached_stored store s →
    resolveFields (resolveValue store fuel) ref entries s
      = Some (Return tt, s') →
    ∃ obj', s' !! ref = Some obj' ∧ obj_get k obj' = Some v.
Proof.
  unfold keys.
  induction entries as [|[k' x] entries IH]; intros Hk s s' obj Hs Hget Hc H;
    simpl in *.
  - injection H as <-. eauto.
  - apply not_elem_of_cons in Hk as [Hne Hk].
    inv_bind H; [done|]. inv_bind H; [done|]. injection E0 as <- <-.
    apply resolve_good in E as [[He Hc'] _].
    assert (s0 !! ref = Some obj) as Hs0 by (rewrite He; eauto).
    eapply IH; [done| | |by apply cached_stored_assign; eauto|done].
    + unfold assign. apply lookup_insert_eq.
    + rewrite Hs0. simpl. by rewrite obj_get_set_ne.
Qed.

(** Each field of the stored entity is resolved, in some state of the
    cache, and the result is assigned to the property of its name. *)
Lemma resolveFields_field fuel ref entries k item :
  NoDup (keys entries) → (k, item) ∈ entries →
  ∀ s s',
    cached_stored store s → is_Some (s !! ref) →
    resolveFields (resolveValue store fuel) ref entries s
      = Some (Return tt, s') →
    ∃ s_a v s_b obj,
      cached_stored store s_a ∧ is_Some (s_a !! ref) ∧
      resolveValue store fuel item s_a = Some (Return v, s_b) ∧
      s' !! ref = Some obj ∧ obj_get k obj = Some v.
Proof.
  unfold keys.
  induction entries as [|[k' x] entries IH]; intros Hnd Hin s s' Hc Hr H;
    simpl in *.
  - by apply elem_of_nil in Hin.
  - apply NoDup_cons in Hnd as [Hk Hnd].
    inv_bind H; [done|]. inv_bind H; [done|]. injection E0 as <- <-.
    pose proof E as Hgood. apply resolve_good in Hgood as [[He Hc'] _].
    assert (is_Some (s0 !! ref)) as Hr0 by by eapply extends_is_Some.
    apply elem_of_cons in Hin as [[= -> ->]|Hin].
    + eapply resolveFields_keeps in H as (obj' & Hs' & Hget);
        [| done | apply lookup_insert_eq | apply obj_get_set_eq
         | apply cached_stored_assign; auto ].
      exists s, a, s0, obj'. done.
    + eapply IH; [done | done | | | done].
      * apply cached_stored_assign; auto.
      * unfold assign. by rewrite lookup_insert_eq.
Qed.

(** Scalar fields resolve to themselves. *)
Lemma resolveFields_scalars fuel ref obj :
  ∀ s acc, s !! ref = Some acc →
    resolveFields (resolveValue store (S fuel)) ref
      (scalar_entries PScalar obj) s
    = Some (Return tt,
            <[ref := obj_spread acc (scalar_entries RScalar obj)]> s).
Proof.
  induction obj as [|[k v] obj IH]; intros s acc Hs; simpl.
  - by rewrite insert_id.
  - rewrite resolveValue_S. unfold bind at 1. simpl.
    unfold bind at 1. simpl.
    erewrite IH; [|unfold assign; apply lookup_insert_eq].
    unfold assign. by rewrite insert_insert_eq, Hs.
Qed.
End ResolvedFields.

(** ** What [read] returns *)

(** C4 — [read] of a ref for which the backing store holds no entity
    returns [null]: it does not throw, and it needs no recursion. *)
Theorem read_missing_ref (this : ObjectPool) (ref : string) (fuel : nat) :
  backing this !! ref = None →
  read (S fuel) this ref = Some (Return (RScalar SNull), ∅).
Proof.
  intros Hnone. unfold read. rewrite resolvePoolObject_S.
  unfold bind, get. simpl.
  rewrite decide_False by (rewrite lookup_empty; by intros [? ?]).
  by rewrite Hnone.
Qed.

Lemma read_missing_ref_witness :
  read 1 empty_pool "user:999" = Some (Return (RScalar SNull), ∅).
Proof. apply (read_missing_ref empty_pool "user:999" 0). reflexivity. Defined.


Lemma cached_stored_empty store : cached_stored store ∅.
Proof. intros r. rewrite lookup_empty. by intros [? ?]. Qed.

(** What [read] returns for a stored entity: the object registered for the
    ref, in which each property is the resolution of the stored field. *)
Lemma read_field (this : ObjectPool) ref poolObject k item fuel o cache :
  backing this !! ref = Some poolObject →
  NoDup (keys (fields poolObject)) →
  obj_get k (fields poolObject) = Some item →
  read fuel this ref = Some (o, cache) →
  o = Return (RShared ref) ∧
  ∃ s_a v s_b obj,
    cached_stored (backing this) s_a ∧ is_Some (s_a !! ref) ∧
    resolveValue (backing this) fuel item s_a = Some (Return v, s_b) ∧
    cache !! ref = Some obj ∧ obj_get k obj = Some v.
Proof.
  intros Hstore Hnd Hget H. unfold read in H.
  destruct fuel as [|fuel]; [done|].
  rewrite resolvePoolObject_S in H. unfold bind at 1 in H. simpl in H.
  rewrite decide_False in H by (rewrite lookup_empty; by intros [? ?]).
  rewrite Hstore in H. unfold bind at 1 in H. simpl in H.
  inv_bind H.
  { eapply (resolveFields_inv (λ _, True)) in E as [_ [=]]; [|done..].
    apply Forall_forall. intros x _ s1 o1 s1' _ Hx. split; [done|].
    by apply resolve_good in Hx as [_ ?]. }
  injection H as <- <-. split; [done|]. destruct a.
  eapply resolveFields_field
    in E as (s_a & v & s_b & obj & Hc & Hreg & Hv & Hs & Hk);
    [|done|by apply obj_get_Some_elem| |].
  - exists s_a, v, s_b, obj. split_and!; try done.
    eapply resolveValue_mono; [|done]. lia.
  - intros r. destruct (decide (r = ref)) as [->|Hne]; [by rewrite Hstore|].
    rewrite lookup_insert_ne, lookup_empty by done. by intros [? ?].
  - by rewrite lookup_insert_eq.
Qed.

Lemma read_total (this : ObjectPool) ref :
  ∃ n, ∀ fuel, (n ≤ fuel)%nat →
    ∃ v cache, read fuel this ref = Some (Return v, cache).
Proof. apply resolvePoolObject_total. Qed.




(** C7 — every [read] terminates, whatever the stored entities refer to:
    the call returns for all sufficient fuel.  A ref that the cache holds
    is answered by the shared object registered for it, without recursion
    and without touching the cache; and the object of a stored ref is
    registered before any of its fields is resolved. *)
Theorem read_terminates (this : ObjectPool) (ref : string) :
  (∃ n, ∀ fuel, (n ≤ fuel)%nat →
     ∃ v cache, read fuel this ref = Some (Return v, cache)) ∧
  (∀ fuel r s, is_Some (s !! r) →
     resolvePoolObject (backing this) (S fuel) r s
       = Some (Return (RShared r), s)) ∧
  (∀ fuel poolObject k item o cache,
     backing this !! ref = Some poolObject →
     NoDup (keys (fields poolObject)) →
     obj_get k (fields poolObject) = Some item →
     read fuel this ref = Some (o, cache) →
     ∃ s v s',
       is_Some (s !! ref) ∧
       resolveValue (backing this) fuel item s = Some (Return v, s')).
Proof.
  split_and!.
  - apply read_total.
  - intros fuel r s Hin. rewrite resolvePoolObject_S.
    unfold bind, get. simpl. by rewrite decide_True.
  - intros fuel poolObject k item o cache Hstore Hnd Hget Hread.
    destruct (read_field _ _ _ _ _ _ _ _ Hstore Hnd Hget Hread)
      as (_ & s & v & s' & _ & _ & Hreg & Hv & _).
    eauto.
Qed.

(** ** The write path *)

(** *** Input graphs *)

Section InputGraphs.
Variable heap : Heap.

Lemma node_at_cons_0 v values path :
  node_at heap (v :: values) (0%nat :: path) = node_at heap [v] (0%nat :: path).
Proof. done. Qed.

Lemma node_at_cons_S v values i path :
  node_at heap (v :: values) (S i :: path) = node_at heap values (i :: path).
Proof. done. Qed.

Lemma node_at_single_S v i path : node_at heap [v] (S i :: path) = None.
Proof. done. Qed.

Lemma met_once_nil V : met_once heap [] V V.
Proof. split; [done|]. by intros [|i p] a. Qed.

Lemma met_once_scalar s V : met_once heap [JScalar s] V V.
Proof. split; [done|]. by intros [|[|i] p] a. Qed.

Lemma met_once_cons v values V0 V1 V2 :
  met_once heap [v] V0 V1 → met_once heap values V1 V2 →
  met_once heap (v :: values) V0 V2.
Proof.
  intros [Hsub1 H1] [Hsub2 H2]. split; [set_solver|].
  intros [|[|i] q] a Hp; [done| |].
  - rewrite node_at_cons_0 in Hp. destruct (H1 _ _ Hp) as (Ha0 & Ha1 & Huniq).
    split_and!; [done | set_solver |].
    intros [|[|i'] q'] Hp'; [done| |].
    + rewrite node_at_cons_0 in Hp'. by apply Huniq.
    + rewrite node_at_cons_S in Hp'.
      destruct (H2 _ _ Hp') as (Hn & _). done.
  - rewrite node_at_cons_S in Hp. destruct (H2 _ _ Hp) as (Ha1 & Ha2 & Huniq).
    split_and!; [set_solver | done |].
    intros [|[|i'] q'] Hp'; [done| |].
    + rewrite node_at_cons_0 in Hp'.
      destruct (H1 _ _ Hp') as (_ & Hin & _). done.
    + rewrite node_at_cons_S in Hp'. apply Huniq in Hp'. congruence.
Qed.

Lemma met_once_node a node V V' :
  heap !! a = Some node → a ∉ V →
  met_once heap (children node) ({[a]} ∪ V) V' →
  met_once heap [JPtr a] V V'.
Proof.
  intros Hnode Ha [Hsub H]. split; [set_solver|].
  intros [|[|i] q] b Hp; [done| |done].
  simpl in Hp. destruct q as [|j q].
  - injection Hp as <-. split_and!; [done | set_solver |].
    intros [|[|i'] q'] Hp'; [done| |done].
    simpl in Hp'. destruct q' as [|j' q']; [done|].
    rewrite Hnode in Hp'. destruct (H _ _ Hp') as (Hn & _). set_solver.
  - rewrite Hnode in Hp. destruct (H _ _ Hp) as (Hb0 & Hb1 & Huniq).
    split_and!; [set_solver | done |].
    intros [|[|i'] q'] Hp'; [done| |done].
    simpl in Hp'. destruct q' as [|j' q'].
    + injection Hp' as ->. set_solver.
    + rewrite Hnode in Hp'. apply Huniq in Hp'. congruence.
Qed.
End InputGraphs.

(** *** Loops whose every step returned *)

Section LoopsChain.
Context {S T U : Type}.
Variable fn : T → M S U.
Variable P : list T → S → S → Prop.
Hypothesis P_nil : ∀ s, P [] s s.
Hypothesis P_cons : ∀ x xs s s1 s2, P [x] s s1 → P xs s1 s2 → P (x :: xs) s s2.

Lemma arrayMap_chain arr :
  Forall (linked fn P) arr →
  ∀ s us s', arrayMap fn arr s = Some (Return us, s') → P arr s s'.
Proof.
  induction 1 as [|x arr Hx _ IH]; intros s us s' H; simpl in H.
  - injection H as <- <-. done.
  - inv_bind H; [done|]. inv_bind H; [done|]. injection H as <- <-. eauto.
Qed.

Lemma objectMap_loop_chain entries :
  Forall (linked fn P) entries.*2 →
  ∀ acc s us s',
    objectMap_loop fn entries acc s = Some (Return us, s') →
    P entries.*2 s s'.
Proof.
  induction entries as [|[k x] entries IH]; intros Hall acc s us s' H;
    simpl in *.
  - injection H as <- <-. done.
  - apply Forall_cons in Hall as [Hx Hall]. inv_bind H; [done|]. eauto.
Qed.

Lemma forOf_chain items :
  Forall (linked fn P) items →
  ∀ s u s', forOf fn items s = Some (Return u, s') → P items s s'.
Proof.
  induction 1 as [|x items Hx _ IH]; intros s u s' H; simpl in H.
  - injection H as <- <-. done.
  - inv_bind H; [done|]. eauto.
Qed.
End LoopsChain.

(** *** Loops that run to an outcome *)

Section LoopsRun.
Context {S T U : Type}.
Variable fn : T → M S U.
Variable Q : S → Prop.

Lemma arrayMap_runs arr :
  Forall (runs fn Q) arr →
  ∀ s, Q s → ∃ o s', arrayMap fn arr s = Some (o, s') ∧ Q s'.
Proof.
  induction 1 as [|x arr Hx _ IH]; intros s Hs; simpl.
  - eexists _, _. done.
  - destruct (Hx s Hs) as ([u|msg] & s1 & E1 & Hs1).
    + rewrite (bind_Return _ _ _ _ _ E1).
      destruct (IH s1 Hs1) as ([us|msg] & s2 & E2 & Hs2).
      * rewrite (bind_Return _ _ _ _ _ E2). eexists _, _. done.
      * rewrite (bind_Throw _ _ _ _ _ E2). eexists _, _. done.
    + rewrite (bind_Throw _ _ _ _ _ E1). eexists _, _. done.
Qed.

Lemma objectMap_loop_runs entries :
  Forall (runs fn Q) entries.*2 →
  ∀ acc s, Q s →
    ∃ o s', objectMap_loop fn entries acc s = Some (o, s') ∧ Q s'.
Proof.
  induction entries as [|[k x] entries IH]; intros Hall acc s Hs; simpl in *.
  - eexists _, _. done.
  - apply Forall_cons in Hall as [Hx Hall].
    destruct (Hx s Hs) as ([u|msg] & s1 & E1 & Hs1).
    + rewrite (bind_Return _ _ _ _ _ E1). eauto.
    + rewrite (bind_Throw _ _ _ _ _ E1). eexists _, _. done.
Qed.

Lemma forOf_runs items :
  Forall (runs fn Q) items →
  ∀ s, Q s → ∃ o s', forOf fn items s = Some (o, s') ∧ Q s'.
Proof.
  induction 1 as [|x items Hx _ IH]; intros s Hs; simpl.
  - eexists _, _. done.
  - destruct (Hx s Hs) as ([u|msg] & s1 & E1 & Hs1).
    + rewrite (bind_Return _ _ _ _ _ E1). eauto.
    + rewrite (bind_Throw _ _ _ _ _ E1). eexists _, _. done.
Qed.
End LoopsRun.

(** A loop throws only what its body throws. *)
Section LoopsThrow.
Context {S T U : Type}.
Variable fn : T → M S U.
Variable msg : string.

Lemma arrayMap_throws arr :
  Forall (throws_only fn msg) arr →
  ∀ s m s', arrayMap fn arr s = Some (Throw m, s') → m = msg.
Proof.
  induction 1 as [|x arr Hx _ IH]; intros s m s' H; simpl in H; [done|].
  inv_bind H; [injection H as -> ->; eauto|].
  inv_bind H; [injection H as -> ->; eauto|]. done.
Qed.

Lemma objectMap_loop_throws entries :
  Forall (throws_only fn msg) entries.*2 →
  ∀ acc s m s',
    objectMap_loop fn entries acc s = Some (Throw m, s') → m = msg.
Proof.
  induction entries as [|[k x] entries IH]; intros Hall acc s m s' H;
    simpl in *; [done|].
  apply Forall_cons in Hall as [Hx Hall].
  inv_bind H; [injection H as -> ->; eauto|]. eauto.
Qed.

Lemma forOf_throws items :
  Forall (throws_only fn msg) items →
  ∀ s m s', forOf fn items s = Some (Throw m, s') → m = msg.
Proof.
  induction 1 as [|x items Hx _ IH]; intros s m s' H; simpl in H; [done|].
  inv_bind H; [injection H as -> ->; eauto|]. eauto.
Qed.
End LoopsThrow.

(** *** What a normalization does to the state of the call *)

Lemma advances_refl st : advances st st.
Proof. by split_and!. Qed.

Lemma advances_trans st1 st2 st3 :
  advances st1 st2 → advances st2 st3 → advances st1 st3.
Proof.
  intros (G1 & L1 & B1 & V1 & N1) (G2 & L2 & B2 & V2 & N2).
  split_and!; [congruence | congruence | set_solver | set_solver | auto].
Qed.

Lemma NoDup_set_add x s : NoDup s → NoDup (set_add x s).
Proof.
  intros Hnd. unfold set_add. case_decide; [done|].
  apply NoDup_app. split_and!; [done | | apply NoDup_singleton].
  intros y Hy ->%list_elem_of_singleton. done.
Qed.

Lemma elem_of_set_add x y s : y ∈ set_add x s ↔ y = x ∨ y ∈ s.
Proof.
  unfold set_add. case_decide.
  - split; [auto | intros [->|?]; done].
  - rewrite elem_of_app, list_elem_of_singleton. tauto.
Qed.

Section NormalizerFacts.
Variable heap : Heap.

Lemma updateValue_S fuel value :
  updateValue heap (S fuel) value =
    match value with
    | JScalar s => ret (PScalar s)
    | JPtr a =>
        let* st := get in
        if decide (a ∈ visited st) then throw CYCLIC
        else
          do modify (visit a) in
          match heap !! a with
          | None => diverge
          | Some (JArray items) =>
              let* vs := arrayMap (updateValue heap fuel) items in
              ret (PArray vs)
          | Some (JObject data) =>
              match identify data with
              | Some ref => updatePoolObject (updateValue heap fuel) data ref
              | None =>
                  let* vs := objectMap (updateValue heap fuel) data in
                  ret (PObject vs)
              end
          end
    end.
Proof. reflexivity. Qed.

(** The cases of a call on an object not yet visited. *)
Lemma updateValue_node fuel a st r :
  updateValue heap (S fuel) (JPtr a) st = Some r →
  (a ∈ visited st ∧ r = (Throw CYCLIC, st)) ∨
  ((a ∉ visited st) ∧ ∃ node, heap !! a = Some node ∧
   match node with
   | JArray items =>
       (let* vs := arrayMap (updateValue heap fuel) items in
        ret (PArray vs)) (visit a st) = Some r
   | JObject data =>
       match identify data with
       | Some ref =>
           updatePoolObject (updateValue heap fuel) data ref (visit a st)
             = Some r
       | None =>
           (let* vs := objectMap (updateValue heap fuel) data in
            ret (PObject vs)) (visit a st) = Some r
       end
   end).
Proof.
  rewrite updateValue_S. unfold bind at 1. simpl.
  destruct (decide (a ∈ visited st)) as [Hin|Hout].
  - intros [= <-]. by left.
  - unfold bind at 1. simpl. intros H. right. split; [done|].
    destruct (heap !! a) as [node|]; [|by unfold diverge in H].
    exists node. split; [done|].
    destruct node as [items|data]; [done|]. by destruct (identify data).
Qed.

(** [updatePoolObject] around a loop over the fields. *)
Lemma updatePoolObject_inv update data ref st r :
  updatePoolObject update data ref st = Some r →
  (∃ msg st', objectMap update data (touch ref st) = Some (Throw msg, st')
              ∧ r = (Throw msg, st')) ∨
  (∃ new st',
     objectMap update data (touch ref st) = Some (Return new, st') ∧
     r = (Return (marker ref),
          backing_set ref
            (mkPoolObject (generation (pool st'))
               (obj_spread
                  (obj_spread []
                     (from_option fields [] (backing (pool st) !! ref)))
                  new)) st')).
Proof.
  unfold updatePoolObject. unfold bind at 1 2. simpl. intros H.
  inv_bind H; [left; eauto|]. right.
  unfold bind at 1 2 in H. simpl in H. injection H as <-. eauto.
Qed.

Lemma advances_visit a st : advances st (visit a st).
Proof. split_and!; simpl; [done | done | done | set_solver | done]. Qed.

Lemma advances_touch ref st : advances st (touch ref st).
Proof. split_and!; simpl; [done..|]. apply NoDup_set_add. Qed.

Lemma advances_backing_set ref o st : advances st (backing_set ref o st).
Proof.
  split_and!; simpl; [done | done | | done | done].
  rewrite dom_insert_L. set_solver.
Qed.

Lemma updateValue_advances fuel :
  ∀ v st o st', updateValue heap fuel v st = Some (o, st') →
    advances st st' ∧ (∀ m, o = Throw m → m = CYCLIC).
Proof.
  induction fuel as [|fuel IH]; [done|].
  assert (∀ l : list JSONValue,
    Forall (steps advances (updateValue heap fuel)) l) as Hsteps.
  { intros l. apply Forall_forall. intros x _ s o s' H.
    by apply IH in H as [? _]. }
  assert (∀ l : list JSONValue,
    Forall (throws_only (updateValue heap fuel) CYCLIC) l) as Hthrows.
  { intros l. apply Forall_forall. intros x _ s m s' H.
    apply IH in H as [_ H]. by apply H. }
  assert (∀ data acc s o s',
    objectMap_loop (updateValue heap fuel) data acc s = Some (o, s') →
    advances s s' ∧ (∀ m, o = Throw m → m = CYCLIC)) as Hobj.
  { intros data acc s o s' H. split.
    - eapply (objectMap_loop_steps advances advances_refl advances_trans);
        [apply Hsteps | done].
    - intros m ->. eapply objectMap_loop_throws; [apply Hthrows | done]. }
  intros [sc|a] st o st' H.
  { rewrite updateValue_S in H. injection H as <- <-.
    split; [apply advances_refl | done]. }
  apply updateValue_node in H as [[_ [= -> ->]]|(_ & node & _ & H)].
  { split; [apply advances_refl | by intros m [= <-]]. }
  pose proof (advances_visit a st) as Hvisit.
  destruct node as [items|data].
  - inv_bind H.
    + injection H as -> ->. split.
      * eapply advances_trans; [done|].
        eapply (arrayMap_steps advances advances_refl advances_trans);
          [apply Hsteps | done].
      * intros m [= <-]. eapply arrayMap_throws; [apply Hthrows | done].
    + injection H as <- <-. split; [|done].
      eapply advances_trans; [done|].
      eapply (arrayMap_steps advances advances_refl advances_trans);
        [apply Hsteps | done].
  - destruct (identify data) as [ref|].
    + apply updatePoolObject_inv in H
        as [(msg & s1 & E & [= -> ->])|(new & s1 & E & [= -> ->])];
        apply Hobj in E as [Hadv Hthrow].
      * split; [|by intros m [= <-]; apply Hthrow].
        eauto using advances_trans, advances_touch.
      * split; [|done].
        eauto 6 using advances_trans, advances_touch, advances_backing_set.
    + inv_bind H.
      * injection H as -> ->. apply Hobj in E as [Hadv Hthrow].
        split; [by eapply advances_trans | by intros m [= <-]; apply Hthrow].
      * injection H as <- <-. apply Hobj in E as [Hadv _].
        split; [by eapply advances_trans | done].
Qed.
End NormalizerFacts.

Section NormalizerTraversal.
Variable heap : Heap.

Lemma updateValue_fresh fuel a node st :
  a ∉ visited st → heap !! a = Some node →
  updateValue heap (S fuel) (JPtr a) st =
    match node with
    | JArray items =>
        (let* vs := arrayMap (updateValue heap fuel) items in
         ret (PArray vs)) (visit a st)
    | JObject data =>
        match identify data with
        | Some ref =>
            updatePoolObject (updateValue heap fuel) data ref (visit a st)
        | None =>
            (let* vs := objectMap (updateValue heap fuel) data in
             ret (PObject vs)) (visit a st)
        end
    end.
Proof.
  intros Hout Hnode. rewrite updateValue_S. unfold bind at 1. simpl.
  rewrite decide_False by done. unfold bind at 1. simpl. rewrite Hnode.
  destruct node as [items|data]; [done|]. by destruct (identify data).
Qed.

Lemma updateValue_visited fuel a st :
  a ∈ visited st →
  updateValue heap (S fuel) (JPtr a) st = Some (Throw CYCLIC, st).
Proof.
  intros Hin. rewrite updateValue_S. unfold bind at 1. simpl.
  by rewrite decide_True.
Qed.

(** A normalization that returns has met each object once. *)
Lemma updateValue_met_once fuel :
  ∀ v st pv st', updateValue heap fuel v st = Some (Return pv, st') →
    met_once heap [v] (visited st) (visited st').
Proof.
  induction fuel as [|fuel IH]; [done|].
  pose (P := λ (vs : list JSONValue) (s s' : Normalizing),
               met_once heap vs (visited s) (visited s')).
  assert (∀ s, P [] s s) as P_nil by (intros; apply met_once_nil).
  assert (∀ x xs s s1 s2, P [x] s s1 → P xs s1 s2 → P (x :: xs) s s2)
    as P_cons by (intros; by eapply met_once_cons).
  assert (∀ l : list JSONValue,
    Forall (linked (updateValue heap fuel) P) l) as Hlinked.
  { intros l. apply Forall_forall. intros x _ s u s' H. by eapply IH. }
  intros [sc|a] st pv st' H.
  { rewrite updateValue_S in H. injection H as <- <-.
    apply met_once_scalar. }
  apply updateValue_node in H as [[_ [=]]|(Hout & node & Hnode & H)].
  eapply met_once_node; [done..|].
  destruct node as [items|data]; simpl.
  - inv_bind H; [done|]. injection H as <- <-.
    by eapply (arrayMap_chain _ P P_nil P_cons) in E.
  - destruct (identify data) as [ref|].
    + apply updatePoolObject_inv in H
        as [(msg & s1 & E & [=])|(new & s1 & E & [= -> ->])].
      by eapply (objectMap_loop_chain _ P P_nil P_cons) in E.
    + inv_bind H; [done|]. injection H as <- <-.
      by eapply (objectMap_loop_chain _ P P_nil P_cons) in E.
Qed.

Lemma unvisited_visit a V :
  a ∉ V → is_Some (heap !! a) →
  (size (dom heap ∖ ({[a]} ∪ V)) < size (dom heap ∖ V))%nat.
Proof.
  intros Hout Hin. apply subset_size. apply elem_of_dom in Hin. set_solver.
Qed.

(** On a closed heap a normalization runs to an outcome as soon as the
    fuel exceeds the number of objects not yet visited. *)
Lemma updateValue_runs fuel :
  heap_closed heap →
  ∀ v st, points_into heap v →
    (size (dom heap ∖ visited st) < fuel)%nat →
    ∃ o st', updateValue heap fuel v st = Some (o, st').
Proof.
  intros Hclosed. induction fuel as [|fuel IH]; [lia|].
  intros [sc|a] st Hv Hfuel.
  { rewrite updateValue_S. eexists _, _. done. }
  destruct (decide (a ∈ visited st)) as [Hin|Hout].
  { rewrite updateValue_visited by done. eauto. }
  simpl in Hv. destruct Hv as [node Hnode].
  rewrite (updateValue_fresh _ _ node) by done.
  pose (Q := λ s : Normalizing, {[a]} ∪ visited st ⊆ visited s).
  assert (Forall (runs (updateValue heap fuel) Q) (children node)) as Hruns.
  { eapply Forall_impl; [by eapply Hclosed|].
    intros x Hx s Hs. destruct (IH x s Hx) as (o & s' & E).
    - pose proof (unvisited_visit a (visited st) Hout (mk_is_Some _ _ Hnode)).
      assert (size (dom heap ∖ visited s) ≤
              size (dom heap ∖ ({[a]} ∪ visited st)))%nat
        by (apply subseteq_size; unfold Q in Hs; set_solver).
      lia.
    - exists o, s'. split; [done|].
      apply updateValue_advances in E as [(_ & _ & _ & Hvis & _) _].
      unfold Q in *. set_solver. }
  assert (∀ refs, Q (mkNormalizing (pool st) ({[a]} ∪ visited st) refs))
    as HQ by (intros; unfold Q; done).
  destruct node as [items|data]; simpl in Hruns.
  - destruct (arrayMap_runs _ Q items Hruns (visit a st))
      as ([vs|msg] & s' & E & _); [apply HQ| |].
    + rewrite (bind_Return _ _ _ _ _ E). eexists _, _. done.
    + rewrite (bind_Throw _ _ _ _ _ E). eexists _, _. done.
  - destruct (identify data) as [ref|].
    + destruct (objectMap_loop_runs _ Q data Hruns [] (touch ref (visit a st)))
        as ([vs|msg] & s' & E & _); [apply HQ| |].
      * unfold updatePoolObject. unfold bind at 1 2. simpl.
        fold (objectMap (updateValue heap fuel) data) in E.
        rewrite (bind_Return _ _ _ _ _ E). eexists _, _. done.
      * unfold updatePoolObject. unfold bind at 1 2. simpl.
        fold (objectMap (updateValue heap fuel) data) in E.
        rewrite (bind_Throw _ _ _ _ _ E). eexists _, _. done.
    + destruct (objectMap_loop_runs _ Q data Hruns [] (visit a st))
        as ([vs|msg] & s' & E & _); [apply HQ| |].
      * fold (objectMap (updateValue heap fuel) data) in E.
        rewrite (bind_Return _ _ _ _ _ E). eexists _, _. done.
      * fold (objectMap (updateValue heap fuel) data) in E.
        rewrite (bind_Throw _ _ _ _ _ E). eexists _, _. done.
Qed.
End NormalizerTraversal.

(** *** More fuel, same normalization *)

Section NormalizerMono.
Variable heap : Heap.

Lemma updatePoolObject_below (f g : JSONValue → M Normalizing PoolAny)
    data ref :
  Forall (below f g) data.*2 →
  ∀ s r, updatePoolObject f data ref s = Some r →
         updatePoolObject g data ref s = Some r.
Proof.
  intros Hall s r H. unfold updatePoolObject in *.
  unfold bind at 1 2 in H. unfold bind at 1 2. simpl in *.
  inv_bind H.
  - subst r. eapply objectMap_loop_below in E; [|done].
    unfold objectMap. by rewrite (bind_Throw _ _ _ _ _ E).
  - eapply objectMap_loop_below in E; [|done].
    unfold objectMap. by rewrite (bind_Return _ _ _ _ _ E).
Qed.

Lemma updateValue_step_mono fuel :
  ∀ v, below (updateValue heap fuel) (updateValue heap (S fuel)) v.
Proof.
  induction fuel as [|fuel IH]; [done|].
  assert (∀ l : list JSONValue,
    Forall (below (updateValue heap fuel) (updateValue heap (S fuel))) l)
    as Hall by (intros l; apply Forall_forall; auto).
  intros [sc|a] st r H; [done|].
  apply updateValue_node in H as [[Hin ->]|(Hout & node & Hnode & H)].
  { by apply updateValue_visited. }
  rewrite (updateValue_fresh _ _ _ node) by done.
  destruct node as [items|data].
  - inv_bind H.
    + subst r. eapply arrayMap_below in E; [|apply Hall].
      by rewrite (bind_Throw _ _ _ _ _ E).
    + eapply arrayMap_below in E; [|apply Hall].
      by rewrite (bind_Return _ _ _ _ _ E).
  - destruct (identify data) as [ref|].
    + eapply updatePoolObject_below; [apply Hall | done].
    + inv_bind H.
      * subst r. eapply objectMap_loop_below in E; [|apply Hall].
        unfold objectMap. by rewrite (bind_Throw _ _ _ _ _ E).
      * eapply objectMap_loop_below in E; [|apply Hall].
        unfold objectMap. by rewrite (bind_Return _ _ _ _ _ E).
Qed.

Lemma updateValue_mono fuel fuel' v st r :
  (fuel ≤ fuel')%nat →
  updateValue heap fuel v st = Some r →
  updateValue heap fuel' v st = Some r.
Proof.
  induction 1 as [|fuel' _ IH]; [done|].
  intros H. by apply updateValue_step_mono, IH.
Qed.
End NormalizerMono.

(** ** The notification pass *)

Section NotifierFacts.
Variable this : ObjectPool.

Lemma resolutions_of_app ref evs1 evs2 :
  resolutions_of ref (evs1 ++ evs2)
    = resolutions_of ref evs1 ++ resolutions_of ref evs2.
Proof.
  induction evs1 as [|[r b v a|r f v] evs1 IH]; simpl; [done| |done].
  case_decide; [|done]. by rewrite IH.
Qed.

Lemma calls_of_app ref evs1 evs2 :
  calls_of ref (evs1 ++ evs2) = calls_of ref evs1 ++ calls_of ref evs2.
Proof.
  induction evs1 as [|[r b v a|r f v] evs1 IH]; simpl; [done|done|].
  case_decide; [|done]. by rewrite IH.
Qed.

Lemma resolutions_of_calls ref r value fns :
  resolutions_of ref (map (λ f, Call r f value) fns) = [].
Proof. by induction fns. Qed.

Lemma calls_of_calls_eq ref value (fns : list listener) :
  calls_of ref (map (λ f, Call ref f value) fns)
    = map (λ fn, (fn, value)) fns.
Proof.
  induction fns as [|fn fns IH]; simpl; [done|].
  by rewrite decide_True, IH.
Qed.

Lemma calls_of_calls_ne ref r value (fns : list listener) :
  r ≠ ref → calls_of ref (map (λ f, Call r f value) fns) = [].
Proof.
  intros Hne. induction fns as [|fn fns IH]; simpl; [done|].
  by rewrite decide_False.
Qed.

Lemma chained_calls s r value (fns : list listener) evs final :
  chained s (map (λ f, Call r f value) fns ++ evs) final
    ↔ chained s evs final.
Proof. by induction fns. Qed.

Lemma notifyEach_below fuel fuel' refs :
  (fuel ≤ fuel')%nat →
  ∀ s r, notifyEach fuel this refs s = Some r →
         notifyEach fuel' this refs s = Some r.
Proof.
  intros Hle. induction refs as [|ref refs IH]; intros s r H; simpl in *;
    [done|].
  destruct (listeners this !! ref) as [[|fn fns]|]; auto.
  unfold bind at 1 in H. unfold bind at 1. simpl in *.
  inv_bind H.
  { subst r. eapply resolvePoolObject_mono in E; [|done].
    by rewrite (bind_Throw _ _ _ _ _ E). }
  eapply resolvePoolObject_mono in E; [|done].
  rewrite (bind_Return _ _ _ _ _ E).
  unfold bind at 1 in H. unfold bind at 1. simpl in *.
  inv_bind H.
  { subst r. apply IH in E0. by rewrite (bind_Throw _ _ _ _ _ E0). }
  apply IH in E0. by rewrite (bind_Return _ _ _ _ _ E0).
Qed.

(** The pass returns, given enough fuel. *)
Lemma notifyEach_total refs :
  ∀ s, ∃ n evs s', ∀ fuel, (n ≤ fuel)%nat →
    notifyEach fuel this refs s = Some (Return evs, s').
Proof.
  induction refs as [|ref refs IH]; intros s; simpl.
  { exists 0%nat, [], s. done. }
  destruct (listeners this !! ref) as [[|fn fns]|]; auto.
  destruct (resolvePoolObject_total (backing this) ref s) as [n1 Hn1].
  destruct (Hn1 n1) as (value & s1 & E1); [done|].
  destruct (IH s1) as (n2 & evs & s2 & E2).
  exists (n1 `max` n2)%nat.
  exists (if is_null value then Resolve ref s value s1 :: evs
          else Resolve ref s value s1
                 :: map (λ f, Call ref f value) (fn :: fns) ++ evs), s2.
  intros fuel Hle.
  unfold bind at 1. simpl.
  rewrite (bind_Return _ _ _ _ _
             (resolvePoolObject_mono _ n1 fuel _ _ _ ltac:(lia) E1)).
  unfold bind at 1. simpl.
  rewrite (bind_Return _ _ _ _ _ (E2 fuel ltac:(lia))).
  destruct (is_null value) eqn:Hnull; reflexivity.
Qed.
End NotifierFacts.

Section NotifierSpec.
Variable this : ObjectPool.

Lemma notified_ext fuel ref evs evs' :
  resolutions_of ref evs = resolutions_of ref evs' →
  calls_of ref evs = calls_of ref evs' →
  notified fuel this ref evs' → notified fuel this ref evs.
Proof. unfold notified. by intros -> ->. Qed.

Lemma notifyEach_spec fuel refs :
  NoDup refs →
  ∀ s o s', notifyEach fuel this refs s = Some (o, s') →
    ∃ evs, o = Return evs ∧ chained s evs s' ∧
      (∀ ref, ref ∈ refs → notified fuel this ref evs) ∧
      (∀ ref, ref ∉ refs →
         resolutions_of ref evs = [] ∧ calls_of ref evs = []).
Proof.
  induction refs as [|ref0 refs IH]; intros Hnd s o s' H; simpl in H.
  { injection H as <- <-. exists []. split_and!; try done.
    intros ref Hin. by apply elem_of_nil in Hin. }
  apply NoDup_cons in Hnd as [Hfresh Hnd].
  assert (listeners this !! ref0 = None ∨ listeners this !! ref0 = Some [] →
          notifyEach fuel this refs s = Some (o, s') →
          ∃ evs, o = Return evs ∧ chained s evs s' ∧
            (∀ ref, ref ∈ ref0 :: refs → notified fuel this ref evs) ∧
            (∀ ref, ref ∉ ref0 :: refs →
               resolutions_of ref evs = [] ∧ calls_of ref evs = []))
    as Hskip.
  { intros Hnone H'. apply IH in H' as (evs & -> & Hch & Hin & Hout); [|done].
    exists evs. split_and!; [done..| |].
    - intros ref [->|Href]%elem_of_cons; [|auto].
      unfold notified. destruct Hnone as [-> | ->]; auto.
    - intros ref [_ Href]%not_elem_of_cons. auto. }
  destruct (listeners this !! ref0) as [[|fn fns]|] eqn:Hl; [auto| |auto].
  clear Hskip. unfold bind at 1 in H. simpl in H.
  inv_bind_as H value s1 E.
  { by apply resolve_good in E as [_ [[[=] _]|[[=] _]]]. }
  unfold bind at 1 in H. simpl in H.
  inv_bind_as H evs s2 E0.
  { apply IH in E0 as (? & [=] & _); done. }
  apply IH in E0 as (evs' & [= <-] & Hch & Hin & Hout); [|done].
  destruct (Hout _ Hfresh) as [Hres0 Hcalls0].
  set (calls := map (λ f, Call ref0 f value) (fn :: fns)).
  exists (if is_null value then Resolve ref0 s value s1 :: evs
          else Resolve ref0 s value s1 :: calls ++ evs).
  split_and!.
  - by destruct (is_null value); injection H as <- <-.
  - assert (s' = s2) as -> by by destruct (is_null value); injection H.
    destruct (is_null value); simpl; (split; [done|]); [done|].
    by apply (chained_calls s1 ref0 value fns evs s2).
  - intros ref [->|Href]%elem_of_cons.
    + unfold notified. rewrite Hl. exists s, value, s1.
      destruct (is_null value) eqn:Hnull; simpl; rewrite decide_True by done.
      * by rewrite Hres0.
      * rewrite (resolutions_of_app ref0 (map _ fns) evs),
          resolutions_of_calls, Hres0.
        rewrite (calls_of_app ref0 (map _ fns) evs), calls_of_calls_eq,
          Hcalls0.
        split_and!; [done..|]. case_decide; [|done]. by rewrite app_nil_r.
    + assert (ref ≠ ref0) as Hne by (intros ->; done).
      eapply notified_ext; [| |by apply Hin].
      * destruct (is_null value); simpl; rewrite decide_False by done;
          [done|].
        by rewrite (resolutions_of_app ref (map _ fns) evs),
          resolutions_of_calls.
      * destruct (is_null value); simpl; [done|].
        rewrite decide_False by done.
        by rewrite (calls_of_app ref (map _ fns) evs),
          calls_of_calls_ne by done.
  - intros ref [Hne Href]%not_elem_of_cons.
    destruct (Hout _ Href) as [Hres Hcalls].
    destruct (is_null value); simpl; rewrite decide_False by done;
      [done|].
    rewrite decide_False by done.
    rewrite (resolutions_of_app ref (map _ fns) evs), resolutions_of_calls.
    rewrite (calls_of_app ref (map _ fns) evs), calls_of_calls_ne by done.
    done.
Qed.
End NotifierSpec.

(** ** write *)

Section WriteFacts.
Variable heap : Heap.

Lemma forOf_advances fuel items st o st' :
  forOf (updateValue heap fuel) items st = Some (o, st') →
  advances st st' ∧ (∀ m, o = Throw m → m = CYCLIC).
Proof.
  intros H. split.
  - eapply (forOf_steps advances advances_refl advances_trans); [|done].
    apply Forall_forall. intros x _ s o1 s1 Hx.
    by apply updateValue_advances in Hx as [? _].
  - intros m ->. eapply forOf_throws; [|done].
    apply Forall_forall. intros x _ s m1 s1 Hx.
    apply updateValue_advances in Hx as [_ Hx]. by apply Hx.
Qed.

(** The two ways in which a call ends. *)
Lemma write_inv fuel this items o this' evs :
  write fuel heap this items = Some (o, this', evs) →
  (∃ st, forOf (updateValue heap fuel) items (mkNormalizing this ∅ [])
           = Some (Throw CYCLIC, st) ∧
         o = Throw CYCLIC ∧ this' = pool st ∧ evs = []) ∨
  (∃ st cache,
     forOf (updateValue heap fuel) items (mkNormalizing this ∅ [])
       = Some (Return tt, st) ∧
     o = Return tt ∧ this' = tick (pool st) ∧
     NoDup (references st) ∧
     notify fuel this' (references st) = Some (Return evs, cache)).
Proof.
  unfold write. intros H.
  destruct (forOf _ _ _) as [[[[]|msg] st]|] eqn:E; [| |done].
  - pose proof E as Hadv.
    apply forOf_advances in Hadv as [(_ & _ & _ & _ & Hnd) _].
    specialize (Hnd (NoDup_nil_2 : NoDup (references (mkNormalizing this ∅ [])))).
    destruct (notify _ _ _) as [[[evs'|msg] cache]|] eqn:En; [| |done].
    + injection H as <- <- <-. right. by exists st, cache.
    + apply notifyEach_spec in En as (? & [=] & _). done.
  - injection H as <- <- <-. left. exists st.
    pose proof E as Hadv. apply forOf_advances in Hadv as [_ Hm].
    by rewrite (Hm msg eq_refl) in *.
Qed.

Lemma forOf_below_fuel fuel fuel' items st r :
  (fuel ≤ fuel')%nat →
  forOf (updateValue heap fuel) items st = Some r →
  forOf (updateValue heap fuel') items st = Some r.
Proof.
  intros Hle. apply forOf_below, Forall_forall.
  intros x _ s r'. by apply updateValue_mono.
Qed.

Lemma forOf_runs_closed fuel items st :
  heap_closed heap → Forall (points_into heap) items →
  (size (dom heap) < fuel)%nat →
  ∃ o st', forOf (updateValue heap fuel) items st = Some (o, st').
Proof.
  intros Hclosed Hitems Hfuel.
  destruct (forOf_runs (updateValue heap fuel) (λ _, True) items) with st
    as (o & st' & E & _); [|done|by exists o, st'].
  eapply Forall_impl; [done|]. intros x Hx s _.
  destruct (updateValue_runs heap fuel Hclosed x s Hx) as (o & s' & E).
  - assert (size (dom heap ∖ visited s) ≤ size (dom heap))%nat
      by (apply subseteq_size; set_solver).
    lia.
  - by exists o, s'.
Qed.

(** On a closed heap every call ends, given enough fuel, and then more
    fuel changes nothing. *)
Lemma write_total this items :
  heap_closed heap → Forall (points_into heap) items →
  ∃ n r, ∀ fuel, (n ≤ fuel)%nat → write fuel heap this items = Some r.
Proof.
  intros Hclosed Hitems.
  destruct (forOf_runs_closed (S (size (dom heap))) items
              (mkNormalizing this ∅ []) Hclosed Hitems) as (o & st & E);
    [lia|].
  destruct o as [[]|msg].
  - destruct (notifyEach_total (tick (pool st)) (references st) ∅)
      as (n & evs & cache & En).
    exists (S (size (dom heap)) `max` n)%nat, (Return tt, tick (pool st), evs).
    intros fuel Hle. unfold write, notify.
    rewrite (forOf_below_fuel (S (size (dom heap))) fuel _ _ _ ltac:(lia) E).
    by rewrite En by lia.
  - exists (S (size (dom heap))), (Throw msg, pool st, []).
    intros fuel Hle. unfold write.
    by rewrite (forOf_below_fuel (S (size (dom heap))) fuel _ _ _ ltac:(lia) E).
Qed.
End WriteFacts.

(** ** What [write] does *)



(** An object that contains itself is rejected as well. *)
Example write_rejects_self_reference :
  write 2 self_heap empty_pool [JPtr 1%positive]
    = Some (Throw CYCLIC, empty_pool, []).
Proof. vm_compute. reflexivity. Qed.

(** C5, as stated, fails: a call that throws leaves the counter as it was. *)
Lemma time_after_rejected_write :
  ∃ this',
    write 2 self_heap empty_pool [JPtr 1%positive]
      = Some (Throw CYCLIC, this', []) ∧
    time this' ≠ S (time empty_pool).
Proof. exists empty_pool. split; [vm_compute; reflexivity | discriminate]. Qed.

(** C5 (amended) — every call to [write] that returns, whatever the number
    of items, leaves the counter one greater than it found it. *)
Theorem write_increments_time (fuel : nat) (heap : Heap) (this : ObjectPool)
    (items : list JSONValue) (this' : ObjectPool) (evs : list Event) :
  write fuel heap this items = Some (Return tt, this', evs) →
  time this' = S (time this).
Proof.
  intros H.
  apply write_inv in H as [(st & _ & [=] & _)|(st & cache & E & _ & -> & _)].
  apply forOf_advances in E as [(Hgen & _) _]. unfold time. simpl.
  by rewrite Hgen.
Qed.

Lemma write_increments_time_witness :
  time pool_after_batch = S (time empty_pool).
Proof.
  apply (write_increments_time 3 batch_heap empty_pool
           [JPtr 1%positive; JScalar (SNum 5)] pool_after_batch []).
  vm_compute. reflexivity.
Defined.

(** An empty batch counts as well. *)
Example write_nothing fuel heap this :
  write fuel heap this [] = Some (Return tt, tick this, []).
Proof. by destruct this. Qed.

(** C10 — a call to [write] that throws has thrown the cyclic reference
    error, leaves the counter as it was and has notified no listener. *)
Theorem rejected_write_is_silent (fuel : nat) (heap : Heap)
    (this : ObjectPool) (items : list JSONValue) (msg : string)
    (this' : ObjectPool) (evs : list Event) :
  write fuel heap this items = Some (Throw msg, this', evs) →
  msg = CYCLIC ∧ time this' = time this ∧ evs = [] ∧
  listeners this' = listeners this.
Proof.
  intros H.
  apply write_inv in H
    as [(st & E & [= ->] & -> & ->)|(st & cache & _ & [=] & _)].
  apply forOf_advances in E as [(Hgen & Hl & _) _]. done.
Qed.

Lemma rejected_write_is_silent_witness :
  CYCLIC = CYCLIC ∧ time pool_after_rejection = time watched_pool ∧
  @nil Event = [] ∧ listeners pool_after_rejection = listeners watched_pool.
Proof.
  apply (rejected_write_is_silent 3 batch_heap watched_pool
           [JPtr 1%positive; JPtr 2%positive] CYCLIC pool_after_rejection []).
  vm_compute. reflexivity.
Defined.

(** C8 — there is a batch in which a cycle is met after an entity has been
    normalized: the call throws, and the entity is in the backing store
    afterwards, where it was not before. *)
Theorem partial_batch_stays_committed :
  ∃ heap items this',
    write 3 heap empty_pool items = Some (Throw CYCLIC, this', []) ∧
    backing empty_pool !! "user:1" = None ∧
    backing this' !! "user:1"
      = Some (mkPoolObject 0
                [("id", PScalar (SNum 1)); ("__type", PScalar (SStr "user"));
                 ("name", PScalar (SStr "Alice"))]).
Proof.
  exists batch_heap, [JPtr 1%positive; JPtr 2%positive].
  eexists. split_and!; [vm_compute; reflexivity | reflexivity |].
  vm_compute. reflexivity.
Qed.

(** The notification pass of a call that returns is the pass over the refs
    that the batch has touched, which are a set. *)
Lemma write_notifies (fuel : nat) (heap : Heap) (this : ObjectPool)
    (items : list JSONValue) (this' : ObjectPool) (evs : list Event) :
  write fuel heap this items = Some (Return tt, this', evs) →
  ∃ st cache,
    forOf (updateValue heap fuel) items (mkNormalizing this ∅ [])
      = Some (Return tt, st) ∧
    NoDup (references st) ∧
    notify fuel this' (references st) = Some (Return evs, cache).
Proof.
  intros H.
  apply write_inv in H
    as [(st & _ & [=] & _)|(st & cache & E & _ & -> & Hnd & Hn)].
  by exists st, cache.
Qed.

(** C9, as stated, fails: a touched ref without listeners is resolved all
    the same when a touched entity with listeners refers to it.  After the
    write of Alice, who has a listener, with Bob nested in her, who has
    none, the resolution that the pass asks for on behalf of Alice takes a
    cache without Bob to a cache with the object of Bob. *)
Lemma unlistened_ref_is_resolved :
  ∃ this' before value after rest bob,
    write 4 friends_heap watched_pool [JPtr 1%positive]
      = Some (Return tt, this',
              Resolve "user:1" before value after :: rest) ∧
    node_at friends_heap [JPtr 1%positive] [0; 3]%nat = Some 2%positive ∧
    friends_heap !! 2%positive = Some (JObject bob) ∧
    identify bob = Some "user:2" ∧
    listeners this' !! "user:2" = None ∧
    before !! "user:2" = None ∧
    is_Some (after !! "user:2").
Proof.
  eexists _, _, _, _, _, _.
  split_and!; [vm_compute; reflexivity | reflexivity | reflexivity
              | reflexivity | reflexivity | reflexivity | by_compute].
Qed.

(** C9 (amended) — the notification pass over the set of touched refs.
    For each touched ref without listeners the pass itself asks for no
    resolution and calls no listener.  For each touched ref with listeners
    it asks for exactly one resolution, and calls each listener of the ref
    with the value of that resolution, unless the value is [null], in which
    case it calls none.  The resolutions of the pass share one cache, empty
    at first. *)
Theorem notification_pass (this : ObjectPool) (refs : list string) :
  NoDup refs →
  ∃ n, ∀ fuel, (n ≤ fuel)%nat →
    ∃ evs cache,
      notify fuel this refs = Some (Return evs, cache) ∧
      chained ∅ evs cache ∧
      ∀ ref, ref ∈ refs → notified fuel this ref evs.
Proof.
  intros Hnd.
  destruct (notifyEach_total this refs ∅) as (n & evs & cache & Hn).
  exists n. intros fuel Hle. exists evs, cache.
  split; [by apply Hn|].
  specialize (Hn fuel Hle).
  apply notifyEach_spec in Hn as (evs' & [= <-] & Hch & Hin & _); done.
Qed.

Lemma notification_pass_witness :
  ∃ n, ∀ fuel, (n ≤ fuel)%nat →
    ∃ evs cache,
      notify fuel pool_heard_by_two ["user:1"; "user:2"; "ghost:1"]
        = Some (Return evs, cache) ∧
      chained ∅ evs cache ∧
      ∀ ref, ref ∈ ["user:1"; "user:2"; "ghost:1"] →
             notified fuel pool_heard_by_two ref evs.
Proof.
  apply (notification_pass pool_heard_by_two ["user:1"; "user:2"; "ghost:1"]).
  by_compute.
Defined.

(** The pass of the example: Alice is resolved and her listener called;
    no resolution is asked for Bob, who has no listener (his object is
    built all the same, as a part of Alice); the ref that is not stored
    resolves to [null] and its listener is not called. *)
Example heard_by_two_events :
  notify 4 pool_heard_by_two ["user:1"; "user:2"; "ghost:1"]
    = Some (Return heard_by_two, heard_cache) ∧
  ∃ cache,
    heard_by_two
      = [Resolve "user:1" ∅ (RShared "user:1") cache;
         Call "user:1" 7%nat (RShared "user:1");
         Resolve "ghost:1" cache (RScalar SNull) cache] ∧
    is_Some (cache !! "user:2").
Proof.
  split; [vm_compute; reflexivity|].
  eexists. split; [vm_compute; reflexivity | by_compute].
Qed.

(** ** Flat objects *)

Lemma keys_spread {A} (acc obj : list (string * A)) k :
  k ∈ keys (obj_spread acc obj) ↔ k ∈ keys acc ∨ k ∈ keys obj.
Proof.
  unfold obj_spread. revert acc.
  induction obj as [|[k' v'] obj IH]; intros acc; simpl.
  - unfold keys. simpl. rewrite elem_of_nil. tauto.
  - rewrite IH, keys_set. unfold keys. simpl. rewrite elem_of_cons. tauto.
Qed.

(** An object with distinct keys whose every property is a scalar. *)
Lemma all_scalar_entries (l : list (string * PoolAny)) :
  NoDup (keys l) →
  (∀ k v, obj_get k l = Some v → ∃ s, v = PScalar s) →
  ∃ obj, l = scalar_entries PScalar obj.
Proof.
  intros Hnd Hall.
  assert (Forall (λ kv, ∃ s, kv.2 = PScalar s) l) as Hfa.
  { apply Forall_forall. intros [k v] Hin. simpl.
    eapply Hall, obj_get_elem; done. }
  clear Hnd Hall. induction Hfa as [|[k v] l [s Hs] _ [obj ->]].
  - by exists [].
  - simpl in Hs. subst v. by exists ((k, s) :: obj).
Qed.

Section FlatObjects.
Variable heap : Heap.

Lemma objectMap_scalars fuel obj :
  ∀ acc s,
    objectMap_loop (updateValue heap (S fuel)) (scalar_entries JScalar obj)
      acc s
    = Some (Return (obj_spread acc (scalar_entries PScalar obj)), s).
Proof.
  induction obj as [|[k v] obj IH]; intros acc s; simpl; [done|].
  rewrite updateValue_S. unfold bind at 1. simpl. apply IH.
Qed.

Lemma forOf_flat fuel this a obj ref :
  heap !! a = Some (JObject (scalar_entries JScalar obj)) →
  identify (scalar_entries JScalar obj) = Some ref →
  ∃ st,
    forOf (updateValue heap (S (S fuel))) [JPtr a] (mkNormalizing this ∅ [])
      = Some (Return tt, st) ∧
    tick (pool st) = after_flat_write this ref obj ∧
    references st = [ref].
Proof.
  intros Hnode Hid. eexists. simpl. unfold bind at 1.
  erewrite updateValue_fresh; [|set_solver|done]. simpl. rewrite Hid.
  unfold updatePoolObject. unfold bind at 1 2 3. simpl.
  unfold objectMap. rewrite objectMap_scalars.
  unfold bind at 1 2. simpl. split_and!; reflexivity.
Qed.

Lemma write_flat this a obj ref :
  heap !! a = Some (JObject (scalar_entries JScalar obj)) →
  identify (scalar_entries JScalar obj) = Some ref →
  ∃ n evs, ∀ fuel, (n ≤ fuel)%nat →
    write fuel heap this [JPtr a]
      = Some (Return tt, after_flat_write this ref obj, evs).
Proof.
  intros Hnode Hid.
  destruct (notifyEach_total (after_flat_write this ref obj) [ref] ∅)
    as (n & evs & cache & En).
  exists (2 `max` n)%nat, evs. intros fuel Hle.
  destruct fuel as [|[|fuel]]; [lia..|].
  destruct (forOf_flat fuel this a obj ref Hnode Hid) as (st & E & Ht & Hr).
  unfold write, notify. rewrite E, Ht, Hr. by rewrite En by lia.
Qed.

(** New keys win, the keys that the object does not have are retained. *)
Lemma after_flat_write_fields this ref obj :
  NoDup (keys obj) →
  ∃ poolObject,
    backing (after_flat_write this ref obj) !! ref = Some poolObject ∧
    NoDup (keys (fields poolObject)) ∧
    ∀ k, obj_get k (fields poolObject) =
           match obj_get k obj with
           | Some s => Some (PScalar s)
           | None =>
               obj_get k
                 (obj_spread [] (from_option fields [] (backing this !! ref)))
           end.
Proof.
  intros Hnd. eexists. simpl. rewrite lookup_insert_eq.
  split_and!; [done| |]; simpl.
  - apply NoDup_keys_spread, NoDup_keys_spread. constructor.
  - intros k.
    assert (NoDup (keys (scalar_entries PScalar obj))) as Hnd'
      by by rewrite keys_scalar_entries.
    rewrite (obj_spread_nil (scalar_entries PScalar obj)) by done.
    rewrite obj_get_spread, obj_get_scalar_entries by done.
    by destruct (obj_get k obj).
Qed.
End FlatObjects.

Lemma obj_get_spread_nil {A} (obj : list (string * A)) k :
  NoDup (keys obj) → obj_get k (obj_spread [] obj) = obj_get k obj.
Proof. intros Hnd. by rewrite obj_spread_nil. Qed.

(** What [read] returns for an entity all of whose fields are scalars. *)
Lemma read_flat (this : ObjectPool) ref updated obj fuel :
  backing this !! ref = Some (mkPoolObject updated (scalar_entries PScalar obj)) →
  NoDup (keys obj) →
  read (S (S fuel)) this ref
    = Some (Return (RShared ref),
            {[ ref := scalar_entries RScalar obj ]}).
Proof.
  intros Hstore Hnd. unfold read. rewrite resolvePoolObject_S.
  unfold bind at 1. simpl.
  rewrite decide_False by (rewrite lookup_empty; by intros [? ?]).
  rewrite Hstore. unfold bind at 1 2. simpl.
  rewrite (resolveFields_scalars _ _ _ _ _ [])
    by apply lookup_insert_eq.
  simpl. rewrite insert_insert_eq, obj_spread_nil; [done|].
  by rewrite keys_scalar_entries.
Qed.

(** ** Round trip and merge *)

(** C1, as stated, fails: the entity may have fields from earlier writes,
    which [read] returns along with those of the object. *)
Lemma round_trip_after_earlier_write :
  ∃ this' evs cache result,
    identify (scalar_entries JScalar aged_obj) = Some "user:1" ∧
    write 3 users_heap pool_with_alice [JPtr 2%positive]
      = Some (Return tt, this', evs) ∧
    read 3 this' "user:1" = Some (Return (RShared "user:1"), cache) ∧
    cache !! "user:1" = Some result ∧
    obj_get "name" result ≠ RScalar <$> obj_get "name" aged_obj.
Proof.
  eexists _, _, _, _. split_and!; [vm_compute; reflexivity..|].
  vm_compute. discriminate.
Qed.

(** C1 (amended) — an object with an identity all of whose fields are
    scalars and none of whose fields is named [__proto__], written to a pool
    in which the entity of that identity, if there is one, has no field that
    the object lacks: [write] of the object and then [read] of the derived
    ref return a mapping equal to the object, the id and the type label
    included. *)
Theorem round_trip (heap : Heap) (this : ObjectPool) (a : addr)
    (obj : list (string * scalar)) (ref : string) :
  heap !! a = Some (JObject (scalar_entries JScalar obj)) →
  NoDup (keys obj) →
  PROTO ∉ keys obj →
  identify (scalar_entries JScalar obj) = Some ref →
  (∀ k, k ∈ keys (from_option fields [] (backing this !! ref)) →
        k ∈ keys obj) →
  ∃ n, ∀ fuel, (n ≤ fuel)%nat →
    ∃ this' evs cache result,
      write fuel heap this [JPtr a] = Some (Return tt, this', evs) ∧
      read fuel this' ref = Some (Return (RShared ref), cache) ∧
      cache !! ref = Some result ∧
      ∀ k, obj_get k result = RScalar <$> obj_get k obj.
Proof.
  intros Hnode Hnd _ Hid Hkeys.
  destruct (write_flat heap this a obj ref Hnode Hid) as (n & evs & Hwrite).
  destruct (after_flat_write_fields this ref obj Hnd)
    as ([updated stored] & Hstore & Hnd' & Hget).
  simpl in Hnd', Hget.
  assert (∀ k, obj_get k obj = None →
               obj_get k (obj_spread []
                 (from_option fields [] (backing this !! ref))) = None)
    as Hnone.
  { intros k Hk. apply obj_get_None. rewrite keys_spread.
    intros [Hin|Hin]; [by apply elem_of_nil in Hin|].
    apply Hkeys in Hin. by apply obj_get_None in Hk. }
  destruct (all_scalar_entries stored Hnd') as [obj' ->].
  { intros k v. rewrite Hget. destruct (obj_get k obj) as [s|] eqn:Hk.
    - intros [= <-]. eauto.
    - by rewrite Hnone. }
  rewrite keys_scalar_entries in Hnd'.
  exists (2 `max` n)%nat. intros fuel Hle.
  exists (after_flat_write this ref obj), evs,
    {[ ref := scalar_entries RScalar obj' ]}, (scalar_entries RScalar obj').
  split_and!.
  - apply Hwrite. lia.
  - destruct fuel as [|[|fuel]]; [lia..|]. by eapply read_flat.
  - apply lookup_singleton_eq.
  - intros k. rewrite obj_get_scalar_entries. f_equal.
    specialize (Hget k). rewrite obj_get_scalar_entries in Hget.
    destruct (obj_get k obj) as [s|] eqn:Hk.
    + destruct (obj_get k obj'); by simplify_eq/=.
    + rewrite Hnone in Hget by done. by destruct (obj_get k obj').
Qed.

Lemma round_trip_witness :
  ∃ n, ∀ fuel, (n ≤ fuel)%nat →
    ∃ this' evs cache result,
      write fuel users_heap empty_pool [JPtr 1%positive]
        = Some (Return tt, this', evs) ∧
      read fuel this' "user:1" = Some (Return (RShared "user:1"), cache) ∧
      cache !! "user:1" = Some result ∧
      ∀ k, obj_get k result = RScalar <$> obj_get k alice_obj.
Proof.
  apply (round_trip users_heap empty_pool 1%positive alice_obj "user:1").
  - reflexivity.
  - by_compute.
  - by_compute.
  - reflexivity.
  - intros k Hk. vm_compute in Hk. by apply elem_of_nil in Hk.
Defined.

(** The round trip on an empty pool, evaluated. *)
Example round_trip_alice :
  ∃ this' evs,
    write 3 users_heap empty_pool [JPtr 1%positive]
      = Some (Return tt, this', evs) ∧
    read 3 this' "user:1"
      = Some (Return (RShared "user:1"),
              {[ "user:1" := scalar_entries RScalar alice_obj ]}).
Proof. eexists _, _. split; vm_compute; reflexivity. Qed.

(** C2, as stated, fails: [type] is not the type label, so neither object
    has an identity, nothing is stored and [read] returns [null]. *)
Lemma merge_with_plain_type_label :
  ∃ this1 this2,
    write 3 plain_heap empty_pool [JPtr 1%positive]
      = Some (Return tt, this1, []) ∧
    write 3 plain_heap this1 [JPtr 2%positive]
      = Some (Return tt, this2, []) ∧
    read 3 this2 "user:1" = Some (Return (RScalar SNull), ∅).
Proof. eexists _, _. split_and!; vm_compute; reflexivity. Qed.

(** A write of a flat object merges its fields over those of the entity:
    new keys win, the other keys of the entity are retained. *)
Lemma write_flat_merges (heap : Heap) (this : ObjectPool) (a : addr)
    (obj : list (string * scalar)) (ref : string) :
  heap !! a = Some (JObject (scalar_entries JScalar obj)) →
  NoDup (keys obj) →
  identify (scalar_entries JScalar obj) = Some ref →
  NoDup (keys (from_option fields [] (backing this !! ref))) →
  ∃ n, ∀ fuel, (n ≤ fuel)%nat →
    ∃ this' evs stored,
      write fuel heap this [JPtr a] = Some (Return tt, this', evs) ∧
      backing this' !! ref = Some stored ∧
      NoDup (keys (fields stored)) ∧
      ∀ k, obj_get k (fields stored) =
             match obj_get k obj with
             | Some s => Some (PScalar s)
             | None => obj_get k (from_option fields [] (backing this !! ref))
             end.
Proof.
  intros Hnode Hnd Hid Hex.
  destruct (write_flat heap this a obj ref Hnode Hid) as (n & evs & Hwrite).
  destruct (after_flat_write_fields this ref obj Hnd)
    as (stored & Hstore & Hnd' & Hget).
  exists n. intros fuel Hle.
  exists (after_flat_write this ref obj), evs, stored.
  split_and!; [by apply Hwrite | done | done |].
  intros k. rewrite Hget. by rewrite obj_get_spread_nil.
Qed.

(** C2 (amended) — [{id:1, __type:'user', name:'Alice'}] is written and
    then, in a later call, [{id:1, __type:'user', age:30}]: the fields of
    the second object are merged over those that the entity has after the
    first write (new keys win, the others are retained), and
    [read('user:1')] returns a mapping with [name: 'Alice'] and
    [age: 30]. *)
Theorem merge_not_replace (heap : Heap) (this : ObjectPool) (a1 a2 : addr) :
  heap !! a1 = Some (JObject (scalar_entries JScalar alice_obj)) →
  heap !! a2 = Some (JObject (scalar_entries JScalar aged_obj)) →
  ∃ n, ∀ fuel, (n ≤ fuel)%nat →
    ∃ this1 evs1 this2 evs2 stored1 stored2 cache result,
      write fuel heap this [JPtr a1] = Some (Return tt, this1, evs1) ∧
      write fuel heap this1 [JPtr a2] = Some (Return tt, this2, evs2) ∧
      backing this1 !! "user:1" = Some stored1 ∧
      backing this2 !! "user:1" = Some stored2 ∧
      (∀ k, obj_get k (fields stored2) =
              match obj_get k aged_obj with
              | Some s => Some (PScalar s)
              | None => obj_get k (fields stored1)
              end) ∧
      read fuel this2 "user:1" = Some (Return (RShared "user:1"), cache) ∧
      cache !! "user:1" = Some result ∧
      obj_get "name" result = Some (RScalar (SStr "Alice")) ∧
      obj_get "age" result = Some (RScalar (SNum 30)).
Proof.
  intros Hnode1 Hnode2.
  assert (NoDup (keys alice_obj)) as Hnd1 by by_compute.
  assert (NoDup (keys aged_obj)) as Hnd2 by by_compute.
  destruct (write_flat heap this a1 alice_obj "user:1" Hnode1 eq_refl)
    as (n1 & evs1 & Hwrite1).
  set (this1 := after_flat_write this "user:1" alice_obj) in *.
  destruct (after_flat_write_fields this "user:1" alice_obj Hnd1)
    as (stored1 & Hstore1 & Hnds1 & Hget1).
  fold this1 in Hstore1.
  destruct (write_flat heap this1 a2 aged_obj "user:1" Hnode2 eq_refl)
    as (n2 & evs2 & Hwrite2).
  set (this2 := after_flat_write this1 "user:1" aged_obj) in *.
  destruct (after_flat_write_fields this1 "user:1" aged_obj Hnd2)
    as (stored2 & Hstore2 & Hnds2 & Hget2).
  fold this2 in Hstore2.
  rewrite Hstore1 in Hget2. simpl in Hget2.
  assert (∀ k, obj_get k (fields stored2) =
               match obj_get k aged_obj with
               | Some s => Some (PScalar s)
               | None => obj_get k (fields stored1)
               end) as Hmerge.
  { intros k. rewrite Hget2. by rewrite obj_get_spread_nil. }
  destruct (read_total this2 "user:1") as [n3 Hread].
  exists (1 `max` (n1 `max` (n2 `max` n3)))%nat. intros fuel Hle.
  destruct (Hread fuel ltac:(lia)) as (v & cache & Hr).
  assert (obj_get "name" (fields stored2) = Some (PScalar (SStr "Alice")))
    as Hname2 by (rewrite Hmerge, Hget1; reflexivity).
  assert (obj_get "age" (fields stored2) = Some (PScalar (SNum 30)))
    as Hage2 by (rewrite Hmerge; reflexivity).
  destruct (read_field this2 "user:1" stored2 "name" _ fuel _ _
              Hstore2 Hnds2 Hname2 Hr)
    as ([= ->] & s1 & v1 & s1' & result & _ & _ & Hv1 & Hc & Hname).
  destruct (read_field this2 "user:1" stored2 "age" _ fuel _ _
              Hstore2 Hnds2 Hage2 Hr)
    as (_ & s2 & v2 & s2' & result' & _ & _ & Hv2 & Hc' & Hage).
  rewrite Hc in Hc'. injection Hc' as <-.
  destruct fuel as [|fuel]; [lia|].
  rewrite resolveValue_S in Hv1, Hv2.
  injection Hv1 as <-. injection Hv2 as <-.
  exists this1, evs1, this2, evs2, stored1, stored2, cache, result.
  split_and!; try done.
  - apply Hwrite1. lia.
  - apply Hwrite2. lia.
Qed.

Lemma merge_not_replace_witness :
  ∃ n, ∀ fuel, (n ≤ fuel)%nat →
    ∃ this1 evs1 this2 evs2 stored1 stored2 cache result,
      write fuel users_heap empty_pool [JPtr 1%positive]
        = Some (Return tt, this1, evs1) ∧
      write fuel users_heap this1 [JPtr 2%positive]
        = Some (Return tt, this2, evs2) ∧
      backing this1 !! "user:1" = Some stored1 ∧
      backing this2 !! "user:1" = Some stored2 ∧
      (∀ k, obj_get k (fields stored2) =
              match obj_get k aged_obj with
              | Some s => Some (PScalar s)
              | None => obj_get k (fields stored1)
              end) ∧
      read fuel this2 "user:1" = Some (Return (RShared "user:1"), cache) ∧
      cache !! "user:1" = Some result ∧
      obj_get "name" result = Some (RScalar (SStr "Alice")) ∧
      obj_get "age" result = Some (RScalar (SNum 30)).
Proof.
  apply (merge_not_replace users_heap empty_pool 1%positive 2%positive);
    reflexivity.
Defined.

(** The scenario on an empty pool, evaluated. *)
Example merge_scenario :
  ∃ this1 this2,
    write 3 users_heap empty_pool [JPtr 1%positive]
      = Some (Return tt, this1, []) ∧
    write 3 users_heap this1 [JPtr 2%positive]
      = Some (Return tt, this2, []) ∧
    read 3 this2 "user:1"
      = Some (Return (RShared "user:1"),
              {[ "user:1" :=
                   [("id", RScalar (SNum 1)); ("__type", RScalar (SStr "user"));
                    ("name", RScalar (SStr "Alice"));
                    ("age", RScalar (SNum 30))] ]}).
Proof. eexists _, _. split_and!; vm_compute; reflexivity. Qed.

(** ** Scenarios with references *)

Example nested_object_is_pooled :
  write 4 friends_heap empty_pool [JPtr 1%positive]
    = Some (Return tt, pool_of_friends, []) ∧
  fields <$> backing pool_of_friends !! "user:1"
    = Some [("id", PScalar (SNum 1)); ("__type", PScalar (SStr "user"));
            ("name", PScalar (SStr "Alice")); ("friend", marker "user:2")] ∧
  read 4 pool_of_friends "user:2"
    = Some (Return (RShared "user:2"),
            {[ "user:2" :=
                 [("id", RScalar (SNum 2)); ("__type", RScalar (SStr "user"));
                  ("name", RScalar (SStr "Bob"))] ]}).
Proof. split_and!; vm_compute; reflexivity. Qed.

(** Entities that refer to each other: the objects that [read] builds
    refer to each other through the cache. *)
Example read_mutual_friends :
  read 5 pool_of_mutual_friends "user:1"
    = Some (Return (RShared "user:1"),
            {[ "user:1" :=
                 [("id", RScalar (SNum 1)); ("__type", RScalar (SStr "user"));
                  ("name", RScalar (SStr "Alice"));
                  ("friend", RShared "user:2")];
               "user:2" :=
                 [("id", RScalar (SNum 2)); ("__type", RScalar (SStr "user"));
                  ("name", RScalar (SStr "Bob"));
                  ("friend", RShared "user:1")] ]}).
Proof. vm_compute. reflexivity. Qed.

Lemma read_terminates_witness :
  ∃ n, ∀ fuel, (n ≤ fuel)%nat →
    ∃ v cache, read fuel pool_of_mutual_friends "user:1"
                 = Some (Return v, cache).
Proof. apply (read_terminates pool_of_mutual_friends "user:1"). Defined.

(** A write of Alice, with Bob nested in her, to a pool with a listener on
    Alice: the pass resolves Alice and calls her listener; it asks for no
    resolution of Bob. *)
Example write_notifies_listener :
  write 4 friends_heap watched_pool [JPtr 1%positive]
    = Some (Return tt, pool_heard, heard) ∧
  ∃ cache,
    heard = [Resolve "user:1" ∅ (RShared "user:1") cache;
             Call "user:1" 7%nat (RShared "user:1")] ∧
    resolutions_of "user:2" heard = [] ∧
    calls_of "user:2" heard = [].
Proof.
  split; [vm_compute; reflexivity|].
  eexists. split_and!; [vm_compute; reflexivity | reflexivity..].
Qed.

(** * Further properties *)

(** ** identify *)

(** X1 — a number id and the string of its decimal digits give the same
    ref: two objects of one type, one with the id [n] (a safe integer, which
    the template literal prints in decimal digits) and one with the string
    of these digits as its id, denote the same entity. *)
Theorem identify_number_as_string (obj1 obj2 : list (string * JSONValue))
    (n : Z) (type : string) :
  (Z.abs n < 2 ^ 53)%Z →
  obj_get "id" obj1 = Some (JScalar (SNum n)) →
  obj_get "id" obj2 = Some (JScalar (SStr (pretty n))) →
  obj_get TYPE_LABEL obj1 = Some (JScalar (SStr type)) →
  obj_get TYPE_LABEL obj2 = Some (JScalar (SStr type)) →
  identify obj1 = Some (type +:+ ":" +:+ pretty n) ∧
  identify obj2 = identify obj1.
Proof.
  intros Hsafe Hid1 Hid2 Ht1 Ht2. unfold identify.
  rewrite Hid1, Hid2, Ht1, Ht2. unfold number_to_string.
  replace (Z.abs n <? 9007199254740992)%Z with true; [done|].
  symmetry. apply Z.ltb_lt. by change 9007199254740992%Z with (2 ^ 53)%Z.
Qed.

Lemma identify_number_as_string_witness :
  identify (scalar_entries JScalar alice_obj) = Some "user:1" ∧
  identify [("__type", JScalar (SStr "user")); ("id", JScalar (SStr "1"))]
    = identify (scalar_entries JScalar alice_obj).
Proof.
  apply (identify_number_as_string (scalar_entries JScalar alice_obj)
           [("__type", JScalar (SStr "user")); ("id", JScalar (SStr "1"))]
           1 "user").
  - reflexivity.
  - reflexivity.
  - reflexivity.
  - reflexivity.
  - reflexivity.
Defined.

(** ** The listener registry *)

Section RegistryFacts.
Implicit Types (this : ObjectPool) (ref : string) (fn : listener).

Lemma listener_add_in fn fns f : f ∈ listener_add fn fns ↔ f = fn ∨ f ∈ fns.
Proof.
  unfold listener_add. case_decide.
  - split; [auto | intros [->|?]; done].
  - rewrite elem_of_app, list_elem_of_singleton. tauto.
Qed.

Lemma listener_add_NoDup fn fns : NoDup fns → NoDup (listener_add fn fns).
Proof.
  intros Hnd. unfold listener_add. case_decide; [done|].
  apply NoDup_app. split_and!; [done | | apply NoDup_singleton].
  intros y Hy ->%list_elem_of_singleton. done.
Qed.

Lemma listener_add_nonempty fn fns : listener_add fn fns ≠ [].
Proof.
  unfold listener_add. case_decide.
  - intros ->. by apply elem_of_nil in H.
  - by destruct fns.
Qed.

Lemma listener_delete_add fn fns :
  fn ∉ fns → listener_delete fn (listener_add fn fns) = fns.
Proof.
  intros Hout. unfold listener_add, listener_delete.
  rewrite decide_False by done. rewrite filter_app. simpl.
  rewrite filter_cons_False by (intros ?; done).
  rewrite filter_nil, app_nil_r.
  induction fns as [|f fns IH]; [done|].
  apply not_elem_of_cons in Hout as [Hne Hout].
  rewrite filter_cons_True by done. by rewrite IH.
Qed.
End RegistryFacts.

(** X2 — the two hooks keep the registry well formed: no listener set in
    it is empty, and none has a listener twice. *)
Theorem hooks_keep_registry (this : ObjectPool) (ref : string) (fn : listener) :
  registry_wf this →
  registry_wf (watched ref fn this) ∧ registry_wf (unwatched ref fn this).
Proof.
  intros Hwf. split.
  - unfold registry_wf, watched. simpl. apply map_Forall_insert_2; [|done].
    split; [apply listener_add_nonempty|].
    apply listener_add_NoDup.
    destruct (listeners this !! ref) as [fns|] eqn:Hl; simpl.
    + by apply Hwf in Hl as [_ ?].
    + constructor.
  - unfold registry_wf, unwatched.
    destruct (listeners this !! ref) as [fns|] eqn:Hl; [|done].
    simpl. case_decide; simpl.
    + by apply map_Forall_delete.
    + apply map_Forall_insert_2; [|done]. split; [done|].
      apply NoDup_filter. by apply Hwf in Hl as [_ ?].
Qed.

Lemma hooks_keep_registry_witness :
  registry_wf (watched "user:2" 9%nat watched_pool) ∧
  registry_wf (unwatched "user:2" 9%nat watched_pool).
Proof. apply (hooks_keep_registry watched_pool "user:2" 9%nat). by_compute. Defined.

(** X3 — a listener that was not registered under the ref is registered
    by [watched] and the registry is as before once [unwatched] has run. *)
Theorem unwatched_watched (this : ObjectPool) (ref : string) (fn : listener) :
  registry_wf this →
  fn ∉ default [] (listeners this !! ref) →
  unwatched ref fn (watched ref fn this) = this.
Proof.
  intros Hwf Hout. destruct this as [gen ls b].
  unfold unwatched, watched. cbn [listeners generation backing] in *.
  rewrite lookup_insert_eq. cbv zeta. rewrite listener_delete_add by done.
  destruct (ls !! ref) as [fns|] eqn:Hl; cbn [default] in *.
  - apply Hwf in Hl as Hfns. destruct Hfns as [Hne _].
    rewrite decide_False by done. by rewrite insert_insert_eq, insert_id.
  - rewrite decide_True by done. by rewrite delete_insert_eq, delete_id.
Qed.

Lemma unwatched_watched_witness :
  unwatched "user:1" 9%nat (watched "user:1" 9%nat watched_pool) = watched_pool.
Proof.
  apply (unwatched_watched watched_pool "user:1" 9%nat).
  - by_compute.
  - by_compute.
Defined.

(** ** What a normalization keeps *)

(** To show that a normalization moves the state along a preorder, it is
    enough to look at its own moves: the visit of an array or of an object
    without identity, the visit and touch of an object with an identity, and
    the storing of its entity, which was looked up before its fields were
    normalized. *)
Section NormalizerRule.
Variable heap : Heap.
Variable R : Normalizing → Normalizing → Prop.
Hypothesis R_refl : ∀ st, R st st.
Hypothesis R_trans : ∀ s1 s2 s3, R s1 s2 → R s2 s3 → R s1 s3.
Hypothesis R_array : ∀ a items st,
  heap !! a = Some (JArray items) → R st (visit a st).
Hypothesis R_inline : ∀ a data st,
  heap !! a = Some (JObject data) → identify data = None → R st (visit a st).
Hypothesis R_touch : ∀ a data ref st,
  heap !! a = Some (JObject data) → identify data = Some ref →
  R st (touch ref (visit a st)).
Hypothesis R_store : ∀ a data ref st st2 new,
  heap !! a = Some (JObject data) → identify data = Some ref →
  R (touch ref (visit a st)) st2 →
  R st (backing_set ref
          (mkPoolObject (generation (pool st2))
             (obj_spread
                (obj_spread []
                   (from_option fields [] (backing (pool st) !! ref)))
                new)) st2).

Lemma updateValue_rule fuel :
  ∀ v st o st', updateValue heap fuel v st = Some (o, st') → R st st'.
Proof.
  induction fuel as [|fuel IH]; [done|].
  assert (∀ l : list JSONValue,
    Forall (steps R (updateValue heap fuel)) l) as Hsteps.
  { intros l. apply Forall_forall. intros x _ s o s' H. by eapply IH. }
  intros [sc|a] st o st' H.
  { rewrite updateValue_S in H. by injection H as <- <-. }
  apply updateValue_node in H as [[_ [= -> ->]]|(_ & node & Hnode & H)];
    [done|].
  destruct node as [items|data].
  - assert (R (visit a st) st'); [|by eauto].
    inv_bind H.
    + injection H as -> ->.
      eapply (arrayMap_steps R R_refl R_trans); [apply Hsteps | done].
    + injection H as <- <-.
      eapply (arrayMap_steps R R_refl R_trans); [apply Hsteps | done].
  - destruct (identify data) as [ref|] eqn:Hid.
    + apply updatePoolObject_inv in H
        as [(msg & s1 & E & [= -> ->])|(new & s1 & E & [= -> ->])];
        eapply (objectMap_loop_steps R R_refl R_trans) in E;
        try apply Hsteps.
      * eauto.
      * by eapply R_store.
    + assert (R (visit a st) st'); [|by eauto].
      inv_bind H.
      * injection H as -> ->.
        eapply (objectMap_loop_steps R R_refl R_trans); [apply Hsteps | done].
      * injection H as <- <-.
        eapply (objectMap_loop_steps R R_refl R_trans); [apply Hsteps | done].
Qed.

Lemma forOf_rule fuel items st o st' :
  forOf (updateValue heap fuel) items st = Some (o, st') → R st st'.
Proof.
  apply (forOf_steps R R_refl R_trans). apply Forall_forall.
  intros x _ s o1 s1 Hx. by eapply updateValue_rule.
Qed.
End NormalizerRule.

(** The same for the normalizations that return. *)
Section NormalizerRuleReturned.
Variable heap : Heap.
Variable R : Normalizing → Normalizing → Prop.
Hypothesis R_refl : ∀ st, R st st.
Hypothesis R_trans : ∀ s1 s2 s3, R s1 s2 → R s2 s3 → R s1 s3.
Hypothesis R_array : ∀ a items st,
  heap !! a = Some (JArray items) → R st (visit a st).
Hypothesis R_inline : ∀ a data st,
  heap !! a = Some (JObject data) → identify data = None → R st (visit a st).
Hypothesis R_store : ∀ a data ref st st2 new,
  heap !! a = Some (JObject data) → identify data = Some ref →
  R (touch ref (visit a st)) st2 →
  R st (backing_set ref
          (mkPoolObject (generation (pool st2))
             (obj_spread
                (obj_spread []
                   (from_option fields [] (backing (pool st) !! ref)))
                new)) st2).

Lemma updateValue_rule_returned fuel :
  ∀ v st pv st', updateValue heap fuel v st = Some (Return pv, st') → R st st'.
Proof.
  induction fuel as [|fuel IH]; [done|].
  pose (P := λ (_ : list JSONValue) (s s' : Normalizing), R s s').
  assert (∀ l : list JSONValue,
    Forall (linked (updateValue heap fuel) P) l) as Hlinked.
  { intros l. apply Forall_forall. intros x _ s u s' H. by eapply IH. }
  assert (∀ s, P nil s s) as P_nil by done.
  assert (∀ x xs s s1 s2, P [x] s s1 → P xs s1 s2 → P (x :: xs) s s2)
    as P_cons by (intros; by eapply R_trans).
  intros [sc|a] st pv st' H.
  { rewrite updateValue_S in H. by injection H as <- <-. }
  apply updateValue_node in H as [[_ [=]]|(_ & node & Hnode & H)].
  destruct node as [items|data].
  - inv_bind H; [done|]. injection H as <- <-.
    eapply (arrayMap_chain _ P P_nil P_cons) in E; [|apply Hlinked].
    eapply R_trans; [by eapply R_array | done].
  - destruct (identify data) as [ref|] eqn:Hid.
    + apply updatePoolObject_inv in H
        as [(msg & s1 & E & [=])|(new & s1 & E & [= -> ->])].
      eapply (objectMap_loop_chain _ P P_nil P_cons) in E; [|apply Hlinked].
      by eapply R_store.
    + inv_bind H; [done|]. injection H as <- <-.
      eapply (objectMap_loop_chain _ P P_nil P_cons) in E; [|apply Hlinked].
      eapply R_trans; [by eapply R_inline | done].
Qed.

Lemma forOf_rule_returned fuel items st u st' :
  forOf (updateValue heap fuel) items st = Some (Return u, st') → R st st'.
Proof.
  pose (P := λ (_ : list JSONValue) (s s' : Normalizing), R s s').
  apply (forOf_chain (updateValue heap fuel) P); [done | |].
  - intros x xs s s1 s2. apply R_trans.
  - apply Forall_forall. intros x _ s pv s' Hx.
    by eapply updateValue_rule_returned.
Qed.
End NormalizerRuleReturned.

Section NormalizerKeeps.
Variable heap : Heap.

Lemma forOf_frames fuel items st o st' :
  forOf (updateValue heap fuel) items st = Some (o, st') → frames heap st st'.
Proof.
  apply (forOf_rule heap (frames heap)).
  - intros s. split_and!; [done | auto | done].
  - intros s1 s2 s3 (S12 & I12 & F12) (S23 & I23 & F23). split_and!.
    + set_solver.
    + intros r Hr. destruct (I23 r Hr) as [H2|?]; auto.
    + intros r Hr. rewrite F23 by done. apply F12. set_solver.
  - intros a items' s _. split_and!; simpl; [done | auto | done].
  - intros a data s _ _. split_and!; simpl; [done | auto | done].
  - intros a data ref s Hnode Hid. split_and!; simpl.
    + intros r Hr. apply elem_of_set_add. auto.
    + intros r [->|Hr]%elem_of_set_add; [right; by exists a, data | auto].
    + done.
  - intros a data ref s s2 new Hnode Hid (S12 & I12 & F12).
    simpl in S12, I12, F12. split_and!; simpl.
    + intros r Hr. apply S12, elem_of_set_add. auto.
    + intros r Hr. destruct (I12 r Hr) as [[->|?]%elem_of_set_add|?]; auto.
      right. by exists a, data.
    + intros r Hr. rewrite lookup_insert_ne; [by apply F12|].
      intros <-. apply Hr, S12, elem_of_set_add. auto.
Qed.

Lemma forOf_pool_wf fuel items st o st' :
  forOf (updateValue heap fuel) items st = Some (o, st') →
  pool_wf (pool st) → pool_wf (pool st').
Proof.
  apply (forOf_rule heap (λ s s', pool_wf (pool s) → pool_wf (pool s')));
    try by auto.
  intros a data ref s s2 new _ _ H12 Hwf. unfold pool_wf. simpl.
  apply map_Forall_insert_2; [|by apply H12].
  simpl. apply NoDup_keys_spread, NoDup_keys_spread. constructor.
Qed.

Lemma forOf_retains b0 fuel items st o st' :
  forOf (updateValue heap fuel) items st = Some (o, st') →
  retains b0 (backing (pool st)) → retains b0 (backing (pool st')).
Proof.
  apply (forOf_rule heap
           (λ s s', retains b0 (backing (pool s)) →
                    retains b0 (backing (pool s')))); try by auto.
  intros a data ref s s2 new _ _ H12 Hret r po0 Hr. simpl.
  destruct (decide (r = ref)) as [->|Hne].
  - rewrite lookup_insert_eq. eexists. split; [done|]. simpl.
    intros k Hk. apply keys_spread. left. apply keys_spread. right.
    destruct (Hret _ _ Hr) as (po & -> & Hkeys). simpl. auto.
  - rewrite lookup_insert_ne by done. by apply H12.
Qed.

Lemma stamps_refl st : stamps st st.
Proof. split; eauto. Qed.

Lemma stamps_same_pool st st' : pool st' = pool st → stamps st st'.
Proof. intros Hp. unfold stamps. rewrite Hp. eauto. Qed.

Lemma stamps_trans s1 s2 s3 : stamps s1 s2 → stamps s2 s3 → stamps s1 s3.
Proof.
  intros [G12 U12] [G23 U23]. split; [congruence|].
  intros r po Hr Hu. destruct (U12 r po Hr Hu) as (po2 & Hr2 & Hu2).
  apply (U23 r po2 Hr2). congruence.
Qed.

Lemma stamps_store ref fs s s2 :
  stamps s s2 →
  stamps s (backing_set ref (mkPoolObject (generation (pool s2)) fs) s2).
Proof.
  intros [G U]. split; [done|]. intros r po Hr Hu. simpl.
  destruct (decide (r = ref)) as [->|Hne].
  - rewrite lookup_insert_eq. eauto.
  - rewrite lookup_insert_ne by done. eauto.
Qed.

Lemma forOf_stamps fuel items st o st' :
  forOf (updateValue heap fuel) items st = Some (o, st') → stamps st st'.
Proof.
  apply (forOf_rule heap stamps);
    eauto using stamps_refl, stamps_trans.
  - intros. by apply stamps_same_pool.
  - intros. by apply stamps_same_pool.
  - intros. by apply stamps_same_pool.
  - intros a data ref s s2 new _ _ H12. apply stamps_store.
    eapply stamps_trans; [|done]. by apply stamps_same_pool.
Qed.

Lemma commits_refl st : commits st st.
Proof. split; [apply stamps_refl | auto]. Qed.

Lemma commits_trans s1 s2 s3 : commits s1 s2 → commits s2 s3 → commits s1 s3.
Proof.
  intros [U12 W12] [U23 W23]. split; [by eapply stamps_trans|].
  intros r Hr. destruct (W23 r Hr) as [H2|?]; [|auto].
  destruct (W12 r H2) as [?|(po & Hs & Hu)]; [auto|].
  right. destruct U23 as [_ U23]. eauto.
Qed.

Lemma forOf_commits fuel items st u st' :
  forOf (updateValue heap fuel) items st = Some (Return u, st') →
  commits st st'.
Proof.
  apply (forOf_rule_returned heap commits);
    eauto using commits_refl, commits_trans.
  - intros. split; [by apply stamps_same_pool | auto].
  - intros. split; [by apply stamps_same_pool | auto].
  - intros a data ref s s2 new _ _ [U12 W12]. split.
    + apply stamps_store. eapply stamps_trans; [|done].
      by apply stamps_same_pool.
    + intros r Hr. simpl in Hr.
      destruct (decide (r = ref)) as [->|Hne].
      * right. simpl. rewrite lookup_insert_eq. eauto.
      * destruct (W12 r Hr) as [[->|?]%elem_of_set_add|(po & Hs & Hu)];
          [done | auto |].
        right. simpl. rewrite lookup_insert_ne by done. eauto.
Qed.

Lemma forOf_visited_touched fuel items st o st' :
  forOf (updateValue heap fuel) items st = Some (o, st') →
  visited_touched heap st → visited_touched heap st'.
Proof.
  apply (forOf_rule heap
           (λ s s', visited_touched heap s → visited_touched heap s'));
    try by auto.
  - intros a items' s Hnode K b data ref Hb Hdata Hid. simpl in *.
    apply elem_of_union in Hb as [->%elem_of_singleton|Hb]; [congruence|].
    by eapply K.
  - intros a data s Hnode Hnone K b data' ref Hb Hdata Hid. simpl in *.
    apply elem_of_union in Hb as [->%elem_of_singleton|Hb]; [congruence|].
    by eapply K.
  - intros a data ref s Hnode Hid K b data' ref' Hb Hdata Hid'. simpl in *.
    apply elem_of_set_add.
    apply elem_of_union in Hb as [->%elem_of_singleton|Hb].
    + left. congruence.
    + right. by eapply K.
  - intros a data ref s s2 new Hnode Hid H12 K. 
    assert (visited_touched heap s2) as K2.
    { apply H12. intros b data' ref' Hb Hdata Hid'. simpl in *.
      apply elem_of_set_add.
      apply elem_of_union in Hb as [->%elem_of_singleton|Hb].
      - left. congruence.
      - right. by eapply K. }
    intros b data' ref' Hb Hdata Hid'. simpl in *. by eapply K2.
Qed.
End NormalizerKeeps.

(** ** What a call to write leaves *)

Lemma retains_refl b : retains b b.
Proof. intros r po Hr. eauto. Qed.

(** X4 — a call to [write], whether it returns or throws, deletes no
    entity and no field name of an entity, and leaves the listener registry
    as it was. *)
Theorem write_only_grows (fuel : nat) (heap : Heap) (this : ObjectPool)
    (items : list JSONValue) (o : Outcome unit) (this' : ObjectPool)
    (evs : list Event) :
  write fuel heap this items = Some (o, this', evs) →
  listeners this' = listeners this ∧ retains (backing this) (backing this').
Proof.
  intros H.
  apply write_inv in H
    as [(st & E & _ & -> & _)|(st & cache & E & _ & -> & _)].
  - split.
    + by apply forOf_advances in E as [(_ & Hl & _) _].
    + eapply forOf_retains in E; [done|]. apply retains_refl.
  - split.
    + by apply forOf_advances in E as [(_ & Hl & _) _].
    + eapply forOf_retains in E; [done|]. apply retains_refl.
Qed.

Lemma write_only_grows_witness :
  listeners pool_with_aged = listeners pool_with_alice ∧
  retains (backing pool_with_alice) (backing pool_with_aged).
Proof.
  apply (write_only_grows 3 users_heap pool_with_alice [JPtr 2%positive]
           (Return tt) pool_with_aged []).
  vm_compute. reflexivity.
Defined.

(** X5 — a call to [write], whether it returns or throws, leaves as it was
    the entity of every ref that is not the identity of an object of the
    input. *)
Theorem write_frame (fuel : nat) (heap : Heap) (this : ObjectPool)
    (items : list JSONValue) (o : Outcome unit) (this' : ObjectPool)
    (evs : list Event) (r : string) :
  write fuel heap this items = Some (o, this', evs) →
  ¬ identity_in heap r →
  backing this' !! r = backing this !! r.
Proof.
  intros H Hr.
  assert (∀ st, frames heap (mkNormalizing this ∅ []) st →
                backing (pool st) !! r = backing this !! r) as Hframe.
  { intros st (_ & I & F). apply F. intros Hin.
    destruct (I r Hin) as [Hnil|?]; [|done]. by apply elem_of_nil in Hnil. }
  apply write_inv in H
    as [(st & E & _ & -> & _)|(st & cache & E & _ & -> & _)];
    apply forOf_frames in E; by apply Hframe.
Qed.

Lemma write_frame_witness :
  backing pool_with_post_and_alice !! "post:1" = backing dangling_pool !! "post:1".
Proof.
  apply (write_frame 3 users_heap dangling_pool [JPtr 1%positive]
           (Return tt) pool_with_post_and_alice [] "post:1").
  - vm_compute. reflexivity.
  - by_compute.
Defined.

(** X6 — a call to [write] keeps the field names of each entity
    distinct. *)
Theorem write_keeps_pool_wf (fuel : nat) (heap : Heap) (this : ObjectPool)
    (items : list JSONValue) (o : Outcome unit) (this' : ObjectPool)
    (evs : list Event) :
  pool_wf this →
  write fuel heap this items = Some (o, this', evs) →
  pool_wf this'.
Proof.
  intros Hwf H.
  apply write_inv in H
    as [(st & E & _ & -> & _)|(st & cache & E & _ & -> & _)];
    by eapply forOf_pool_wf in E.
Qed.

Lemma write_keeps_pool_wf_witness : pool_wf pool_with_aged.
Proof.
  apply (write_keeps_pool_wf 3 users_heap pool_with_alice [JPtr 2%positive]
           (Return tt) pool_with_aged []).
  - by_compute.
  - vm_compute. reflexivity.
Defined.

(** In a call that returns, each object with an identity that can be
    reached from the batch has been touched, and its entity is stored. *)
Lemma write_returned_touches (fuel : nat) (heap : Heap) (this : ObjectPool)
    (items : list JSONValue) (st : Normalizing) (p : list nat) (a : addr)
    (data : list (string * JSONValue)) (ref : string) :
  forOf (updateValue heap fuel) items (mkNormalizing this ∅ [])
    = Some (Return tt, st) →
  node_at heap items p = Some a →
  heap !! a = Some (JObject data) → identify data = Some ref →
  ref ∈ references st ∧
  ∃ po, backing (pool st) !! ref = Some po ∧ updatedAt po = generation this.
Proof.
  intros E Hp Hnode Hid.
  assert (a ∈ visited st) as Hvis.
  { pose proof E as Honce.
    eapply (forOf_chain (updateValue heap fuel)
              (λ vs s s', met_once heap vs (visited s) (visited s')))
      in Honce as [_ Honce].
    - by destruct (Honce _ _ Hp) as (_ & ? & _).
    - intros s. apply met_once_nil.
    - intros x xs s s1 s2. apply met_once_cons.
    - apply Forall_forall. intros x _ s u s' Hx.
      by eapply updateValue_met_once. }
  assert (ref ∈ references st) as Href.
  { pose proof E as K. eapply forOf_visited_touched in K; [by eapply K|].
    intros b ? ? Hb. simpl in Hb. set_solver. }
  split; [done|].
  pose proof E as Hc. apply forOf_commits in Hc as [[G _] W].
  destruct (W ref Href) as [Hnil|(po & Hs & Hu)].
  - by apply elem_of_nil in Hnil.
  - exists po. split; [done|]. by rewrite Hu, G.
Qed.

(** X7 — after a call to [write] that returns, each object with an
    identity that can be reached from the batch has its entity in the
    backing store, stamped with the time before the call. *)
Theorem write_stamps_touched (fuel : nat) (heap : Heap) (this : ObjectPool)
    (items : list JSONValue) (this' : ObjectPool) (evs : list Event)
    (p : list nat) (a : addr) (data : list (string * JSONValue))
    (ref : string) :
  write fuel heap this items = Some (Return tt, this', evs) →
  node_at heap items p = Some a →
  heap !! a = Some (JObject data) → identify data = Some ref →
  ∃ po, backing this' !! ref = Some po ∧ updatedAt po = time this.
Proof.
  intros H Hp Hnode Hid.
  apply write_inv in H
    as [(st & _ & [=] & _)|(st & cache & E & _ & -> & _)].
  by destruct (write_returned_touches _ _ _ _ _ _ _ _ _ E Hp Hnode Hid)
    as [_ ?].
Qed.

Lemma write_stamps_touched_witness :
  ∃ po, backing pool_of_mutual_friends !! "user:1" = Some po ∧
        updatedAt po = time pool_of_friends.
Proof.
  apply (write_stamps_touched 4 friends_heap pool_of_friends
           [JPtr 3%positive] pool_of_mutual_friends [] [0; 2]%nat 4%positive
           [("id", JScalar (SNum 1)); ("__type", JScalar (SStr "user"))]
           "user:1").
  - vm_compute. reflexivity.
  - reflexivity.
  - reflexivity.
  - reflexivity.
Defined.

(** X8 — after a call to [write] that returns, each listener registered
    under the identity of an object that can be reached from the batch has
    been called, with the object that the pass has resolved for that
    ref. *)
Theorem write_calls_listener (fuel : nat) (heap : Heap) (this : ObjectPool)
    (items : list JSONValue) (this' : ObjectPool) (evs : list Event)
    (p : list nat) (a : addr) (data : list (string * JSONValue))
    (ref : string) (fns : list listener) (fn : listener) :
  write fuel heap this items = Some (Return tt, this', evs) →
  node_at heap items p = Some a →
  heap !! a = Some (JObject data) → identify data = Some ref →
  listeners this !! ref = Some fns → fn ∈ fns →
  (fn, RShared ref) ∈ calls_of ref evs.
Proof.
  intros H Hp Hnode Hid Hl Hfn.
  apply write_inv in H
    as [(st & _ & [=] & _)|(st & cache & E & _ & -> & Hnd & Hn)].
  destruct (write_returned_touches _ _ _ _ _ _ _ _ _ E Hp Hnode Hid)
    as [Href (po & Hs & _)].
  pose proof E as Hadv. apply forOf_advances in Hadv as [(_ & Hls & _) _].
  apply notifyEach_spec in Hn as (evs' & [= <-] & _ & Hin & _); [|done].
  specialize (Hin ref Href). unfold notified in Hin. simpl in Hin, Hls.
  rewrite Hls, Hl in Hin. destruct fns as [|f0 fns].
  { by apply elem_of_nil in Hfn. }
  destruct Hin as (before & value & after & _ & Hres & Hcalls).
  apply resolve_good in Hres as [_ [[[= ->] _]|(_ & Hnone & _)]].
  - rewrite Hcalls. simpl.
    apply (list_elem_of_fmap_2 (λ fn, (fn, RShared ref))) in Hfn. done.
  - by rewrite Hs in Hnone.
Qed.

Lemma write_calls_listener_witness :
  (7%nat, RShared "user:1") ∈ calls_of "user:1" heard.
Proof.
  apply (write_calls_listener 4 friends_heap watched_pool [JPtr 1%positive]
           pool_heard heard [0]%nat 1%positive
           [("id", JScalar (SNum 1)); ("__type", JScalar (SStr "user"));
            ("name", JScalar (SStr "Alice")); ("friend", JPtr 2%positive)]
           "user:1" [7%nat] 7%nat).
  - vm_compute. reflexivity.
  - reflexivity.
  - reflexivity.
  - reflexivity.
  - reflexivity.
  - by_compute.
Defined.

(** X9 — a call to [write] calls listeners only for refs that are
    identities of objects of the input and have listeners in the
    registry. *)
Theorem write_calls_only_touched (fuel : nat) (heap : Heap)
    (this : ObjectPool) (items : list JSONValue) (o : Outcome unit)
    (this' : ObjectPool) (evs : list Event) (ref : string) :
  write fuel heap this items = Some (o, this', evs) →
  calls_of ref evs ≠ [] →
  identity_in heap ref ∧
  ∃ fn fns, listeners this !! ref = Some (fn :: fns).
Proof.
  intros H Hcalls.
  apply write_inv in H
    as [(st & _ & _ & _ & ->)|(st & cache & E & _ & -> & Hnd & Hn)];
    [done|].
  pose proof E as Hadv. apply forOf_advances in Hadv as [(_ & Hls & _) _].
  pose proof E as Hfr. apply forOf_frames in Hfr as (_ & I & _).
  apply notifyEach_spec in Hn as (evs' & [= <-] & _ & Hin & Hout); [|done].
  destruct (decide (ref ∈ references st)) as [Href|Href].
  - split.
    + destruct (I ref Href) as [Hnil|?]; [|done]. by apply elem_of_nil in Hnil.
    + specialize (Hin ref Href). unfold notified in Hin. simpl in Hin, Hls.
      rewrite Hls in Hin.
      destruct (listeners this !! ref) as [[|fn fns]|]; [by destruct Hin| |
        by destruct Hin].
      eauto.
  - by destruct (Hout ref Href).
Qed.

Lemma write_calls_only_touched_witness :
  identity_in friends_heap "user:1" ∧
  ∃ fn fns, listeners watched_pool !! "user:1" = Some (fn :: fns).
Proof.
  apply (write_calls_only_touched 4 friends_heap watched_pool
           [JPtr 1%positive] (Return tt) pool_heard heard "user:1").
  - vm_compute. reflexivity.
  - discriminate.
Defined.

(** X10 — a batch without objects: the call returns, with the counter
    incremented and nothing else changed, and notifies nobody. *)
Theorem write_scalars (fuel : nat) (heap : Heap) (this : ObjectPool)
    (scalars : list scalar) :
  write (S fuel) heap this (JScalar <$> scalars)
    = Some (Return tt, tick this, []).
Proof.
  assert (∀ st, forOf (updateValue heap (S fuel)) (JScalar <$> scalars) st
                = Some (Return tt, st)) as Hloop.
  { induction scalars as [|sc scalars IH]; intros st; simpl; [done|].
    rewrite updateValue_S. unfold bind at 1. simpl. apply IH. }
  unfold write. by rewrite Hloop.
Qed.



(** ** What a resolution returns *)

(** X12 — markers are told by their shape: a stored object with a string
    under [__ref] that is the ref of a stored entity resolves to the object
    of that entity, whatever other properties it has. *)
Theorem marker_shaped_object_is_replaced (store : gmap string PoolObject)
    (entries : list (string * PoolAny)) (ref : string) (s : Stack) :
  obj_get REF_LABEL entries = Some (PScalar (SStr ref)) →
  is_Some (store !! ref) →
  ∃ n, ∀ fuel, (n ≤ fuel)%nat →
    ∃ s', resolveValue store fuel (PObject entries) s
            = Some (Return (RShared ref), s') ∧
          is_Some (s' !! ref).
Proof.
  intros Hget Hstored.
  destruct (resolvePoolObject_total store ref s) as [n Hn].
  exists (S n). intros fuel Hle. destruct fuel as [|fuel]; [lia|].
  destruct (Hn fuel) as (rv & s' & E); [lia|].
  exists s'. rewrite resolveValue_S. cbv zeta. rewrite Hget.
  rewrite (bind_Return _ _ _ _ _ E).
  apply resolve_good in E as [_ [[[= ->] Hs']|(_ & Hnone & _)]].
  - done.
  - rewrite Hnone in Hstored. by destruct Hstored.
Qed.

Lemma marker_shaped_object_is_replaced_witness :
  ∃ n, ∀ fuel, (n ≤ fuel)%nat →
    ∃ s', resolveValue (backing pool_with_alice) fuel
            (PObject [("note", PScalar (SStr "see"));
                      ("__ref", PScalar (SStr "user:1"))]) ∅
            = Some (Return (RShared "user:1"), s') ∧
          is_Some (s' !! "user:1").
Proof.
  apply (marker_shaped_object_is_replaced (backing pool_with_alice)
           [("note", PScalar (SStr "see")); ("__ref", PScalar (SStr "user:1"))]
           "user:1" ∅).
  - reflexivity.
  - by_compute.
Defined.

(** The loop of [resolvePoolObject] over fields with distinct names, none
    of which the object has, gives the object these names, in order. *)
Lemma resolveFields_keys store fuel ref entries :
  NoDup (keys entries) →
  ∀ s s' acc,
    s !! ref = Some acc → (∀ k, k ∈ keys entries → k ∉ keys acc) →
    resolveFields (resolveValue store fuel) ref entries s
      = Some (Return tt, s') →
    ∃ obj, s' !! ref = Some obj ∧ keys obj = keys acc ++ keys entries.
Proof.
  unfold keys.
  induction entries as [|[k x] entries IH]; intros Hnd s s' acc Hs Hfresh H;
    simpl in *.
  - injection H as <-. exists acc. by rewrite app_nil_r.
  - apply NoDup_cons in Hnd as [Hk Hnd].
    inv_bind H; [done|]. inv_bind H; [done|]. injection E0 as <- <-.
    apply resolve_good in E as [[He _] _].
    assert (s0 !! ref = Some acc) as Hs0 by (rewrite He; eauto).
    assert (obj_set k a acc = acc ++ [(k, a)]) as Hset
      by (apply keys_set_fresh, Hfresh; left).
    apply (IH Hnd _ _ (acc ++ [(k, a)])) in H as (obj & Hobj & Hkeys).
    + exists obj. split; [done|]. rewrite Hkeys.
      by rewrite fmap_app, <- app_assoc.
    + unfold assign. rewrite Hs0. simpl. rewrite Hset. apply lookup_insert_eq.
    + intros k' Hk'. rewrite fmap_app, elem_of_app. simpl.
      intros [Hin|Hin%list_elem_of_singleton].
      * eapply Hfresh; [right|]; done.
      * by subst.
Qed.

(** X13 — [read] of a stored entity returns, without throwing, the object
    registered for the ref, which has the names of the stored fields, in
    their order. *)
Theorem read_entity (this : ObjectPool) (ref : string) (poolObject : PoolObject) :
  ordinary_pool this →
  backing this !! ref = Some poolObject →
  NoDup (keys (fields poolObject)) →
  ∃ n, ∀ fuel, (n ≤ fuel)%nat →
    ∃ cache obj,
      read fuel this ref = Some (Return (RShared ref), cache) ∧
      cache !! ref = Some obj ∧
      keys obj = keys (fields poolObject).
Proof.
  intros _ Hstore Hnd.
  destruct (read_total this ref) as [n Hn].
  exists n. intros fuel Hle.
  destruct (Hn fuel) as (v & cache & Hread); [lia|].
  assert (v = RShared ref) as ->.
  { unfold read in Hread.
    apply resolve_good in Hread as [_ [[[= ->] _]|(_ & Hnone & _)]]; [done|].
    by rewrite Hstore in Hnone. }
  exists cache. unfold read in Hread. destruct fuel as [|fuel]; [done|].
  pose proof Hread as H.
  rewrite resolvePoolObject_S in H. unfold bind at 1 in H. simpl in H.
  rewrite decide_False in H by (rewrite lookup_empty; by intros [? ?]).
  rewrite Hstore in H. unfold bind at 1 in H. simpl in H.
  inv_bind H; [done|]. injection H as <-. destruct a.
  eapply resolveFields_keys in E as (obj & Hobj & Hkeys);
    [|done|apply lookup_insert_eq|].
  - by exists obj.
  - intros k _. apply not_elem_of_nil.
Qed.

Lemma read_entity_witness :
  ∃ n, ∀ fuel, (n ≤ fuel)%nat →
    ∃ cache obj,
      read fuel pool_of_mutual_friends "user:2"
        = Some (Return (RShared "user:2"), cache) ∧
      cache !! "user:2" = Some obj ∧
      keys obj = ["id"; "__type"; "name"; "friend"].
Proof.
  apply (read_entity pool_of_mutual_friends "user:2"
           (mkPoolObject 1
              [("id", PScalar (SNum 2)); ("__type", PScalar (SStr "user"));
               ("name", PScalar (SStr "Bob")); ("friend", marker "user:1")])).
  - by_compute.
  - vm_compute. reflexivity.
  - by_compute.
Defined.

(** X14 — an entity with a field that is the marker of its own ref reads
    as an object that contains itself: the property is the shared object
    registered for the ref. *)
Theorem self_reference_reads_circular (this : ObjectPool) (ref : string)
    (poolObject : PoolObject) (k : string) :
  backing this !! ref = Some poolObject →
  NoDup (keys (fields poolObject)) →
  obj_get k (fields poolObject) = Some (marker ref) →
  ∃ n, ∀ fuel, (n ≤ fuel)%nat →
    ∃ cache obj,
      read fuel this ref = Some (Return (RShared ref), cache) ∧
      cache !! ref = Some obj ∧
      obj_get k obj = Some (RShared ref).
Proof.
  intros Hstore Hnd Hget.
  destruct (read_total this ref) as [n Hn].
  exists (2 `max` n)%nat. intros fuel Hle.
  destruct (Hn fuel) as (v & cache & Hread); [lia|].
  destruct (read_field _ _ _ _ _ _ _ _ Hstore Hnd Hget Hread)
    as ([= ->] & s & v' & s' & obj & _ & Hreg & Hv & Hobj & Hk).
  exists cache, obj. split_and!; [done..|].
  destruct fuel as [|[|fuel]]; [lia..|].
  rewrite resolveValue_S in Hv. simpl in Hv.
  rewrite resolvePoolObject_S in Hv. unfold bind at 1 2 in Hv. simpl in Hv.
  rewrite decide_True in Hv by done. simpl in Hv.
  by injection Hv as <- _.
Qed.

Lemma self_reference_reads_circular_witness :
  ∃ n, ∀ fuel, (n ≤ fuel)%nat →
    ∃ cache obj,
      read fuel pool_selfish "user:1" = Some (Return (RShared "user:1"), cache) ∧
      cache !! "user:1" = Some obj ∧
      obj_get "me" obj = Some (RShared "user:1").
Proof.
  apply (self_reference_reads_circular pool_selfish "user:1"
           (mkPoolObject 0
              [("id", PScalar (SNum 1)); ("__type", PScalar (SStr "user"));
               ("me", marker "user:1")]) "me").
  - vm_compute. reflexivity.
  - by_compute.
  - reflexivity.
Defined.

(** ** Data without identities *)

Lemma to_resolved_object entries :
  to_resolved (PObject entries) = RObject (prod_map id to_resolved <$> entries).
Proof. reflexivity. Qed.

Lemma plain_object entries :
  plain (PObject entries) = true →
  marker_shaped entries = false ∧ NoDup (keys entries) ∧
  Forall (λ x, plain x = true) entries.*2.
Proof.
  simpl. intros [[Hm Hnd]%andb_prop Hall]%andb_prop.
  split_and!.
  - by destruct (marker_shaped entries).
  - by apply bool_decide_eq_true in Hnd.
  - clear Hm Hnd. induction entries as [|[k x] entries IH]; [done|].
    simpl in *. apply andb_prop in Hall as [Hx Hall]. constructor; auto.
Qed.

Lemma plain_array items :
  plain (PArray items) = true → Forall (λ x, plain x = true) items.
Proof.
  simpl. induction items as [|x items IH]; [done|].
  simpl. intros [Hx Hall]%andb_prop. constructor; auto.
Qed.

(** Loops over a body that, in this state, computes [g] and leaves the
    state alone. *)
Section LoopsPure.
Context {S T U : Type}.
Variable fn : T → M S U.
Variable g : T → U.
Variable s : S.

Lemma arrayMap_pure arr :
  Forall (λ x, fn x s = Some (Return (g x), s)) arr →
  arrayMap fn arr s = Some (Return (map g arr), s).
Proof.
  induction 1 as [|x arr Hx _ IH]; simpl; [done|].
  rewrite (bind_Return _ _ _ _ _ Hx). by rewrite (bind_Return _ _ _ _ _ IH).
Qed.

Lemma objectMap_loop_pure entries :
  Forall (λ x, fn x s = Some (Return (g x), s)) entries.*2 →
  ∀ acc, objectMap_loop fn entries acc s
         = Some (Return (obj_spread acc (prod_map id g <$> entries)), s).
Proof.
  induction entries as [|[k x] entries IH]; intros Hall acc; simpl in *;
    [done|].
  apply Forall_cons in Hall as [Hx Hall].
  rewrite (bind_Return _ _ _ _ _ Hx). by apply IH.
Qed.
End LoopsPure.

Lemma resolveFields_pure (fn : PoolAny → M Stack Resolved)
    (g : PoolAny → Resolved) ref entries :
  Forall (λ x, ∀ s, fn x s = Some (Return (g x), s)) entries.*2 →
  ∀ s acc, s !! ref = Some acc →
    resolveFields fn ref entries s
    = Some (Return tt,
            <[ref := obj_spread acc (prod_map id g <$> entries)]> s).
Proof.
  induction entries as [|[k x] entries IH]; intros Hall s acc Hs; simpl in *.
  - by rewrite insert_id.
  - apply Forall_cons in Hall as [Hx Hall].
    rewrite (bind_Return _ _ _ _ _ (Hx s)). unfold bind at 1. simpl.
    erewrite IH; [|done|unfold assign; apply lookup_insert_eq].
    unfold assign. by rewrite insert_insert_eq, Hs.
Qed.

Lemma Forall_common_fuel {A} (Q : nat → A → Prop) (l : list A) :
  (∀ n n' x, (n ≤ n')%nat → Q n x → Q n' x) →
  Forall (λ x, ∃ n, Q n x) l → ∃ n, Forall (Q n) l.
Proof.
  intros Hmono. induction 1 as [|x l [n Hn] _ [m Hm]].
  - by exists 0%nat.
  - exists (n `max` m)%nat. constructor.
    + eapply Hmono; [|done]. lia.
    + eapply Forall_impl; [done|]. intros y Hy. eapply Hmono; [|done]. lia.
Qed.

Section PlainResolution.
Variable store : gmap string PoolObject.

(** A plain value resolves to the value of its structure, and the cache
    is left alone. *)
Lemma resolve_plain p :
  plain p = true →
  ∃ n, ∀ s, resolveValue store n p s = Some (Return (to_resolved p), s).
Proof.
  induction p as [sc|items IH|entries IH] using PoolAny_nested_ind;
    intros Hp.
  - by exists 1%nat.
  - apply plain_array in Hp.
    destruct (Forall_common_fuel
                (λ n x, ∀ s, resolveValue store n x s
                             = Some (Return (to_resolved x), s)) items)
      as [n Hn].
    + intros n n' x Hle Hx s. eapply resolveValue_mono; [done|]. apply Hx.
    + eapply Forall_impl; [apply Forall_and; split; [exact IH | exact Hp]|].
      intros x [Hx Hpx]. by apply Hx.
    + exists (S n). intros s. rewrite resolveValue_S.
      erewrite bind_Return; [|apply (arrayMap_pure _ to_resolved)].
      * done.
      * eapply Forall_impl; [done|]. intros x Hx. apply Hx.
  - apply plain_object in Hp as (Hm & Hnd & Hp).
    destruct (Forall_common_fuel
                (λ n x, ∀ s, resolveValue store n x s
                             = Some (Return (to_resolved x), s)) entries.*2)
      as [n Hn].
    + intros n n' x Hle Hx s. eapply resolveValue_mono; [done|]. apply Hx.
    + eapply Forall_impl; [apply Forall_and; split; [exact IH | exact Hp]|].
      intros x [Hx Hpx]. by apply Hx.
    + exists (S n). intros s. rewrite resolveValue_S. cbv zeta.
      assert ((let* vs := objectMap (resolveValue store n) entries in
               ret (RObject vs)) s
              = Some (Return (to_resolved (PObject entries)), s)) as Hinline.
      { unfold objectMap.
        erewrite bind_Return; [|apply (objectMap_loop_pure _ to_resolved)].
        - rewrite to_resolved_object, obj_spread_nil; [done|].
          unfold keys. rewrite <- list_fmap_compose.
          erewrite list_fmap_ext; [exact Hnd|]. by intros i [k x] _.
        - eapply Forall_impl; [done|]. intros x Hx. apply Hx. }
      unfold marker_shaped in Hm.
      by destruct (obj_get REF_LABEL entries) as [[[| | | |ref]| |]|].
Qed.
End PlainResolution.

(** Loops over a body whose results, when it returns, are known. *)
Section LoopsAgree.
Context {S T U : Type}.
Variable fn : T → M S U.
Variable Q : S → S → Prop.
Hypothesis Q_refl : ∀ s, Q s s.
Hypothesis Q_trans : ∀ s1 s2 s3, Q s1 s2 → Q s2 s3 → Q s1 s3.

Lemma arrayMap_agrees arr ys :
  Forall2 (λ x y, ∀ s u s', fn x s = Some (Return u, s') → u = y ∧ Q s s')
    arr ys →
  ∀ s us s', arrayMap fn arr s = Some (Return us, s') → us = ys ∧ Q s s'.
Proof.
  induction 1 as [|x y arr ys Hx _ IH]; intros s us s' H; simpl in H.
  - by injection H as <- <-.
  - inv_bind H; [done|]. inv_bind H; [done|]. injection H as <- <-.
    apply Hx in E as [-> ?]. apply IH in E0 as [-> ?]. eauto.
Qed.

Lemma objectMap_loop_agrees entries ps :
  Forall2 (λ kx ky, ky.1 = kx.1 ∧
             ∀ s u s', fn kx.2 s = Some (Return u, s') → u = ky.2 ∧ Q s s')
    entries ps →
  ∀ acc s us s',
    objectMap_loop fn entries acc s = Some (Return us, s') →
    us = obj_spread acc ps ∧ Q s s'.
Proof.
  induction 1 as [|[k x] [k' y] entries ps [Hk Hx] _ IH];
    intros acc s us s' H; simpl in *.
  - by injection H as <- <-.
  - subst k'. inv_bind H; [done|].
    apply Hx in E as [-> ?]. apply IH in H as [-> ?]. eauto.
Qed.
End LoopsAgree.

Section PlainNormalization.
Variable heap : Heap.
Hypothesis heap_wf : objects_wf heap.

Lemma same_pool_refl st : same_pool st st.
Proof. done. Qed.

Lemma same_pool_trans s1 s2 s3 :
  same_pool s1 s2 → same_pool s2 s3 → same_pool s1 s3.
Proof. intros [? ?] [? ?]. split; congruence. Qed.

Lemma plain_fields_keys n data ps :
  plain_fields heap n data = Some ps → keys ps = keys data.
Proof.
  unfold plain_fields. intros H%mapM_Some_1. unfold keys.
  induction H as [|[k x] [k' y] data ps Hx _ IH]; [done|].
  simpl in *. apply fmap_Some in Hx as (? & _ & [= -> _]).
  unfold keys in IH. simpl. by f_equal.
Qed.

(** The normalization of a value in which no object has an identity
    returns the tree of the value, and leaves the pool and the touched refs
    alone. *)
Lemma updateValue_plain n :
  ∀ v p, plain_of heap n v = Some p →
    ∀ fuel st pv st',
      updateValue heap fuel v st = Some (Return pv, st') →
      pv = p ∧ same_pool st st'.
Proof.
  induction n as [|n IH]; [done|].
  assert (∀ data ps, plain_fields heap n data = Some ps →
    NoDup (keys data) →
    ∀ fuel s new s',
      objectMap (updateValue heap fuel) data s = Some (Return new, s') →
      new = ps ∧ same_pool s s') as Hfields.
  { intros data ps Hps Hnd fuel s new s' H.
    eapply (objectMap_loop_agrees _ same_pool same_pool_refl same_pool_trans
              data ps) in H as [-> ?].
    - split; [|done]. apply obj_spread_nil.
      by rewrite (plain_fields_keys _ _ _ Hps).
    - apply mapM_Some_1 in Hps. eapply Forall2_impl; [done|].
      intros [k x] [k' y] Hx. simpl in *.
      apply fmap_Some in Hx as (y' & Hy & [= -> ->]).
      split; [done|]. intros s0 u s0' Hu. exact (IH _ _ Hy _ _ _ _ Hu). }
  intros [sc|a] p Hp fuel st pv st' H; simpl in Hp.
  { injection Hp as <-. destruct fuel as [|fuel]; [done|].
    rewrite updateValue_S in H. by injection H as <- <-. }
  destruct fuel as [|fuel]; [done|].
  apply updateValue_node in H as [[_ [=]]|(_ & node & Hnode & H)].
  rewrite Hnode in Hp. destruct node as [items|data].
  - apply fmap_Some in Hp as (ps & Hps & ->).
    inv_bind H; [done|]. injection H as <- <-.
    eapply (arrayMap_agrees _ same_pool same_pool_refl same_pool_trans
              items ps) in E as [-> [? ?]].
    + done.
    + apply mapM_Some_1 in Hps. eapply Forall2_impl; [done|].
      intros x y Hx s0 u s0' Hu. exact (IH _ _ Hx _ _ _ _ Hu).
  - destruct (identify data) as [ref|]; [done|].
    apply fmap_Some in Hp as (ps & Hps & ->).
    inv_bind H; [done|]. injection H as <- <-.
    eapply Hfields in E as [-> [? ?]]; [done | done |].
    by apply (heap_wf a (JObject data)).
Qed.

Lemma objectMap_plain_fields n data ps fuel s new s' :
  plain_fields heap n data = Some ps → NoDup (keys data) →
  objectMap (updateValue heap fuel) data s = Some (Return new, s') →
  new = ps ∧ same_pool s s'.
Proof.
  intros Hps Hnd H.
  eapply (objectMap_loop_agrees _ same_pool same_pool_refl same_pool_trans
            data ps) in H as [-> ?].
  - split; [|done]. apply obj_spread_nil.
    by rewrite (plain_fields_keys _ _ _ Hps).
  - apply mapM_Some_1 in Hps. eapply Forall2_impl; [done|].
    intros [k x] [k' y] Hx. simpl in *.
    apply fmap_Some in Hx as (y' & Hy & [= -> ->]).
    split; [done|]. intros s0 u s0' Hu.
    exact (updateValue_plain _ _ _ Hy _ _ _ _ Hu).
Qed.
End PlainNormalization.

(** The normalization of a value in which no object has an identity,
    whatever its outcome, leaves the pool and the touched refs alone. *)
Lemma updateValue_same_pool (heap : Heap) n :
  ∀ v, is_Some (plain_of heap n v) →
    ∀ fuel, steps same_pool (updateValue heap fuel) v.
Proof.
  induction n as [|n IH]; intros v [p Hp]; [done|].
  intros fuel st o st' H. destruct fuel as [|fuel]; [done|].
  destruct v as [sc|a].
  { rewrite updateValue_S in H. by injection H as <- <-. }
  simpl in Hp.
  apply updateValue_node in H as [[_ [= -> ->]]|(_ & node & Hnode & H)];
    [done|].
  rewrite Hnode in Hp.
  assert (same_pool st (visit a st)) as Hvisit by done.
  destruct node as [items|data].
  - apply fmap_Some in Hp as (ps & Hps%mapM_Some_1 & _).
    assert (Forall (steps same_pool (updateValue heap fuel)) items) as Hall.
    { clear H Hnode. induction Hps as [|x y items ps Hx _ IHps];
        constructor; [|done].
      apply IH. by exists y. }
    eapply same_pool_trans; [exact Hvisit|].
    inv_bind H.
    + injection H as -> ->.
      by eapply (arrayMap_steps same_pool same_pool_refl same_pool_trans).
    + injection H as <- <-.
      by eapply (arrayMap_steps same_pool same_pool_refl same_pool_trans).
  - destruct (identify data) as [ref|]; [done|].
    apply fmap_Some in Hp as (ps & Hps%mapM_Some_1 & _).
    assert (Forall (steps same_pool (updateValue heap fuel)) data.*2) as Hall.
    { clear H Hnode. induction Hps as [|[k x] y data ps Hx _ IHps];
        constructor; [|done].
      simpl in *. apply fmap_Some in Hx as (y' & Hy & _).
      apply IH. by exists y'. }
    eapply same_pool_trans; [exact Hvisit|].
    unfold objectMap in H. inv_bind H.
    + injection H as -> ->.
      by eapply (objectMap_loop_steps same_pool same_pool_refl same_pool_trans).
    + injection H as <- <-.
      by eapply (objectMap_loop_steps same_pool same_pool_refl same_pool_trans).
Qed.

(** X15 — a batch in which no object has an identity stores nothing: the
    call, whether it returns or throws, leaves the entities and the
    registry as they were and notifies nobody; when it returns, the counter
    is incremented. *)
Theorem write_without_identities (fuel : nat) (heap : Heap)
    (this : ObjectPool) (items : list JSONValue) (n : nat)
    (o : Outcome unit) (this' : ObjectPool) (evs : list Event) :
  Forall (λ v, is_Some (plain_of heap n v)) items →
  write fuel heap this items = Some (o, this', evs) →
  this' = match o with Return _ => tick this | Throw _ => this end ∧
  evs = [].
Proof.
  intros Hitems H.
  assert (∀ o st, forOf (updateValue heap fuel) items (mkNormalizing this ∅ [])
                    = Some (o, st) →
                  pool st = this ∧ references st = []) as Hloop.
  { intros o1 st E.
    eapply (forOf_steps same_pool same_pool_refl same_pool_trans) in E;
      [exact E|].
    eapply Forall_impl; [done|]. intros v Hv.
    exact (updateValue_same_pool heap n v Hv fuel). }
  apply write_inv in H
    as [(st & E & -> & -> & ->)|(st & cache & E & -> & -> & _ & Hn)].
  - by apply Hloop in E as [-> _].
  - apply Hloop in E as [-> Hrefs]. rewrite Hrefs in Hn.
    by injection Hn as <- _.
Qed.

Lemma write_without_identities_witness :
  pool_after 3 plain_heap watched_pool [JPtr 1%positive; JPtr 2%positive]
    = tick watched_pool ∧
  ([] : list Event) = [].
Proof.
  apply (write_without_identities 3 plain_heap watched_pool
           [JPtr 1%positive; JPtr 2%positive] 2 (Return tt)
           (pool_after 3 plain_heap watched_pool
              [JPtr 1%positive; JPtr 2%positive]) []).
  - by_compute.
  - vm_compute. reflexivity.
Defined.

(** ** One object with an identity *)

(** A call that returns, on one object with an identity: the state after
    the fields of the object have been normalized, and the pool of the
    call. *)
Lemma write_one_inv (fuel : nat) (heap : Heap) (this : ObjectPool) (a : addr)
    (data : list (string * JSONValue)) (ref : string) (this' : ObjectPool)
    (evs : list Event) :
  heap !! a = Some (JObject data) →
  identify data = Some ref →
  write fuel heap this [JPtr a] = Some (Return tt, this', evs) →
  ∃ fuel0 new st',
    fuel = S fuel0 ∧
    objectMap (updateValue heap fuel0) data
      (touch ref (visit a (mkNormalizing this ∅ []))) = Some (Return new, st') ∧
    this' =
      tick (pool (backing_set ref
        (mkPoolObject (generation (pool st'))
           (obj_spread
              (obj_spread [] (from_option fields [] (backing this !! ref)))
              new)) st')).
Proof.
  intros Hnode Hid H.
  apply write_inv in H as [(st & _ & [=] & _)|(st & cache & E & _ & -> & _)].
  simpl in E. inv_bind E; [done|]. injection E as <-.
  destruct fuel as [|fuel]; [done|].
  apply updateValue_node in E0 as [[_ [=]]|(_ & node & Hnode' & E)].
  rewrite Hnode in Hnode'. injection Hnode' as <-. rewrite Hid in E.
  apply updatePoolObject_inv in E
    as [(msg & st' & _ & [=])|(new & st' & E & [= _ ->])].
  by exists fuel, new, st'.
Qed.

(** The names that a loop of [objectMap] gives the object. *)
Lemma objectMap_loop_keys {S T U : Type} (fn : T → M S U) entries :
  ∀ acc s us s',
    objectMap_loop fn entries acc s = Some (Return us, s') →
    ∀ k, k ∈ keys us ↔ k ∈ keys acc ∨ k ∈ keys entries.
Proof.
  induction entries as [|[k0 x] entries IH]; intros acc s us s' H k;
    simpl in H.
  - injection H as <- <-. unfold keys at 3. simpl. rewrite elem_of_nil. tauto.
  - inv_bind H; [done|]. apply IH with (k := k) in H. rewrite H, keys_set.
    unfold keys at 3 4. simpl. rewrite elem_of_cons. tauto.
Qed.

(** X16 — the entity is looked up before the fields of the object are
    normalized, and stored after: when the call of one object with an
    identity returns, on an input in which no property is named
    [__proto__], the entity of that identity has the names that it had
    before the call and the names of the object, and no other; a name that
    an object of the same identity nested in the object has stored in
    between, and that is not among these, is lost. *)
Theorem write_overwrites_nested_writes (fuel : nat) (heap : Heap)
    (this : ObjectPool) (a : addr) (data : list (string * JSONValue))
    (ref : string) (this' : ObjectPool) (evs : list Event) :
  ordinary_heap heap →
  heap !! a = Some (JObject data) →
  identify data = Some ref →
  write fuel heap this [JPtr a] = Some (Return tt, this', evs) →
  ∃ po, backing this' !! ref = Some po ∧
    ∀ k, k ∈ keys (fields po) ↔
         k ∈ keys (from_option fields [] (backing this !! ref)) ∨
         k ∈ keys data.
Proof.
  intros _ Hnode Hid H.
  destruct (write_one_inv _ _ _ _ _ _ _ _ Hnode Hid H)
    as (fuel0 & new & st' & -> & E & ->).
  eexists. split; [apply lookup_insert_eq|].
  intros k. simpl. rewrite !keys_spread.
  unfold objectMap in E. rewrite (objectMap_loop_keys _ _ _ _ _ _ E k).
  unfold keys at 1 4. simpl. rewrite !elem_of_nil. tauto.
Qed.

Lemma write_overwrites_nested_writes_witness :
  ∃ po, backing pool_selfish !! "user:1" = Some po ∧
    ∀ k, k ∈ keys (fields po) ↔
         k ∈ keys (from_option fields [] (backing empty_pool !! "user:1")) ∨
         k ∈ keys [("id", JScalar (SNum 1)); ("__type", JScalar (SStr "user"));
                   ("me", JPtr 2%positive)].
Proof.
  apply (write_overwrites_nested_writes 4 selfish_heap empty_pool 1%positive
           [("id", JScalar (SNum 1)); ("__type", JScalar (SStr "user"));
            ("me", JPtr 2%positive)] "user:1" pool_selfish []).
  - by_compute.
  - reflexivity.
  - reflexivity.
  - vm_compute. reflexivity.
Defined.

(** ** Nested data without identities *)

(** What [read] returns for an entity whose fields are plain. *)
Lemma read_plain_entity (this : ObjectPool) ref updated ps :
  backing this !! ref = Some (mkPoolObject updated ps) →
  NoDup (keys ps) →
  Forall (λ p, plain p = true) ps.*2 →
  ∃ n, ∀ fuel, (n ≤ fuel)%nat →
    read fuel this ref
      = Some (Return (RShared ref), {[ ref := prod_map id to_resolved <$> ps ]}).
Proof.
  intros Hstore Hnd Hplain.
  destruct (Forall_common_fuel
              (λ n x, ∀ s, resolveValue (backing this) n x s
                           = Some (Return (to_resolved x), s)) ps.*2)
    as [n Hn].
  { intros n n' x Hle Hx s. eapply resolveValue_mono; [done|]. apply Hx. }
  { eapply Forall_impl; [done|]. intros x Hx. by apply resolve_plain. }
  exists (S n). intros fuel Hle. unfold read.
  eapply resolvePoolObject_mono; [exact Hle|].
  rewrite resolvePoolObject_S. unfold bind at 1. simpl.
  rewrite decide_False by (rewrite lookup_empty; by intros [? ?]).
  rewrite Hstore. unfold bind at 1 2. simpl.
  rewrite (resolveFields_pure _ to_resolved _ _ Hn _ [])
    by apply lookup_insert_eq.
  simpl. rewrite insert_insert_eq, obj_spread_nil, insert_empty; [done|].
  unfold keys. rewrite <- list_fmap_compose.
  erewrite list_fmap_ext; [exact Hnd|]. by intros i [k x] _.
Qed.

(** X17 — nested arrays and objects without identities are stored inline
    and read back as they were written: after the write of an object with
    an identity that is not yet stored, whose fields hold no identity and
    nothing of the shape of a marker, on an input in which no property is
    named [__proto__], [read] of the ref returns the object with the fields
    of the input, in their order, arrays item by item. *)
Theorem round_trip_nested (fuel : nat) (heap : Heap) (this : ObjectPool)
    (a : addr) (data : list (string * JSONValue)) (ref : string) (n : nat)
    (ps : list (string * PoolAny)) (this' : ObjectPool) (evs : list Event) :
  objects_wf heap →
  ordinary_heap heap →
  heap !! a = Some (JObject data) →
  identify data = Some ref →
  plain_fields heap n data = Some ps →
  Forall (λ p, plain p = true) ps.*2 →
  backing this !! ref = None →
  write fuel heap this [JPtr a] = Some (Return tt, this', evs) →
  ∃ m, ∀ fuel', (m ≤ fuel')%nat →
    read fuel' this' ref
      = Some (Return (RShared ref), {[ ref := prod_map id to_resolved <$> ps ]}).
Proof.
  intros Hwf _ Hnode Hid Hps Hplain Hfresh H.
  destruct (write_one_inv _ _ _ _ _ _ _ _ Hnode Hid H)
    as (fuel0 & new & st' & -> & E & ->).
  assert (NoDup (keys data)) as Hnd by apply (Hwf a (JObject data) Hnode).
  eapply objectMap_plain_fields in E as [-> [Hpool _]]; [|done..].
  rewrite Hfresh. simpl.
  assert (NoDup (keys ps)) as Hnd'
    by by rewrite (plain_fields_keys _ _ _ _ Hps).
  rewrite (obj_spread_nil ps) by done.
  eapply read_plain_entity; [|done..]. simpl. apply lookup_insert_eq.
Qed.

Lemma round_trip_nested_witness :
  ∃ m, ∀ fuel', (m ≤ fuel')%nat →
    read fuel' pool_profile "user:3"
      = Some (Return (RShared "user:3"),
              {[ "user:3" := prod_map id to_resolved <$>
                   [("id", PScalar (SNum 3)); ("__type", PScalar (SStr "user"));
                    ("tags", PArray [PScalar (SStr "b"); PScalar (SStr "a");
                                     PArray [PScalar SNull]]);
                    ("address", PObject [("city", PScalar (SStr "Oslo"));
                                         ("zip", PScalar (SNum 150))])] ]}).
Proof.
  apply (round_trip_nested 5 profile_heap empty_pool 1%positive
           [("id", JScalar (SNum 3)); ("__type", JScalar (SStr "user"));
            ("tags", JPtr 2%positive); ("address", JPtr 3%positive)]
           "user:3" 3 _ pool_profile []).
  - by_compute.
  - by_compute.
  - reflexivity.
  - reflexivity.
  - vm_compute. reflexivity.
  - by_compute.
  - reflexivity.
  - vm_compute. reflexivity.
Defined.

(** ** Nested objects with identities *)


(** The marker of a stored entity resolves to the object of the entity. *)
Lemma marker_resolves_stored store target fuel s v s' :
  is_Some (store !! target) →
  resolveValue store fuel (marker target) s = Some (Return v, s') →
  v = RShared target.
Proof.
  intros Hstored H. destruct fuel as [|fuel]; [done|].
  rewrite resolveValue_S in H. simpl in H. inv_bind H; [done|].
  apply resolve_good in E as [_ [[[= ->] _]|(_ & Hnone & _)]].
  - simpl in H. by injection H as <- _.
  - rewrite Hnone in Hstored. by destruct Hstored.
Qed.

(** An object with an identity is normalized to the marker of its ref. *)
Lemma updateValue_identified heap fuel b child ref st pv st' :
  heap !! b = Some (JObject child) → identify child = Some ref →
  updateValue heap fuel (JPtr b) st = Some (Return pv, st') →
  pv = marker ref.
Proof.
  intros Hnode Hid H. destruct fuel as [|fuel]; [done|].
  apply updateValue_node in H as [[_ [=]]|(_ & node & Hnode' & H)].
  rewrite Hnode in Hnode'. injection Hnode' as <-. rewrite Hid in H.
  by apply updatePoolObject_inv in H
    as [(msg & s1 & _ & [=])|(new & s1 & _ & [= -> _])].
Qed.

(** X18 — an object with an identity nested in a written object is
    stored as an entity of its own; the entity of the outer object holds
    the marker of its ref in its place, and [read] of the outer ref returns,
    under that name, the object of the nested entity.  Neither the input
    nor the pool has a property named [__proto__]. *)
Theorem nested_entity_is_shared (fuel : nat) (heap : Heap) (this : ObjectPool)
    (a : addr) (data : list (string * JSONValue)) (ref : string) (i : nat)
    (k : string) (b : addr) (child : list (string * JSONValue))
    (ref' : string) (this' : ObjectPool) (evs : list Event) :
  pool_wf this → ordinary_pool this → ordinary_heap heap →
  heap !! a = Some (JObject data) → NoDup (keys data) →
  identify data = Some ref →
  data !! i = Some (k, JPtr b) →
  heap !! b = Some (JObject child) → identify child = Some ref' →
  write fuel heap this [JPtr a] = Some (Return tt, this', evs) →
  (∃ po, backing this' !! ref = Some po ∧
         obj_get k (fields po) = Some (marker ref')) ∧
  is_Some (backing this' !! ref') ∧
  ∃ n, ∀ fuel', (n ≤ fuel')%nat →
    ∃ cache obj,
      read fuel' this' ref = Some (Return (RShared ref), cache) ∧
      cache !! ref = Some obj ∧
      obj_get k obj = Some (RShared ref').
Proof.
  intros Hwf _ _ Hnode Hnd Hid Hi Hchild Hid' H.
  assert (∃ po, backing this' !! ref = Some po ∧
                obj_get k (fields po) = Some (marker ref')) as Hmarker.
  { destruct (write_one_inv _ _ _ _ _ _ _ _ Hnode Hid H)
      as (fuel0 & new & st' & -> & E & ->).
    eexists. split; [apply lookup_insert_eq|]. simpl.
    unfold objectMap in E.
    assert (NoDup (keys new)) as Hnew
      by (eapply objectMap_loop_NoDup; [|done]; constructor).
    eapply objectMap_loop_field in E as (s1 & u & s1' & Hu & Hget);
      [|done|by eapply list_elem_of_lookup_2].
    apply (updateValue_identified _ _ _ _ _ _ _ _ Hchild Hid') in Hu as ->.
    rewrite obj_get_spread by done. by rewrite Hget. }
  assert (is_Some (backing this' !! ref') ∧ pool_wf this') as [Hstored Hwf'].
  { apply write_inv in H
      as [(st & _ & [=] & _)|(st & cache & E & _ & -> & _)].
    split.
    - destruct (write_returned_touches fuel heap this [JPtr a] st
                  [0; i]%nat b child ref' E) as (_ & po & Hpo & _);
        [|done..|by exists po].
      simpl. rewrite Hnode. simpl. by rewrite list_lookup_fmap, Hi.
    - by eapply forOf_pool_wf in E. }
  split_and!; [done..|].
  destruct Hmarker as (po & Hpo & Hget).
  destruct (read_total this' ref) as [n Hn].
  exists n. intros fuel' Hle.
  destruct (Hn fuel') as (v & cache & Hread); [lia|].
  destruct (read_field _ _ _ _ _ _ _ _ Hpo (Hwf' _ _ Hpo) Hget Hread)
    as ([= ->] & s_a & v' & s_b & obj & _ & _ & Hv & Hobj & Hk).
  exists cache, obj. split_and!; [done..|].
  by apply marker_resolves_stored in Hv as ->.
Qed.

Lemma nested_entity_is_shared_witness :
  (∃ po, backing pool_of_friends !! "user:1" = Some po ∧
         obj_get "friend" (fields po) = Some (marker "user:2")) ∧
  is_Some (backing pool_of_friends !! "user:2") ∧
  ∃ n, ∀ fuel', (n ≤ fuel')%nat →
    ∃ cache obj,
      read fuel' pool_of_friends "user:1"
        = Some (Return (RShared "user:1"), cache) ∧
      cache !! "user:1" = Some obj ∧
      obj_get "friend" obj = Some (RShared "user:2").
Proof.
  apply (nested_entity_is_shared 4 friends_heap empty_pool 1%positive
           [("id", JScalar (SNum 1)); ("__type", JScalar (SStr "user"));
            ("name", JScalar (SStr "Alice")); ("friend", JPtr 2%positive)]
           "user:1" 3 "friend" 2%positive
           [("id", JScalar (SNum 2)); ("__type", JScalar (SStr "user"));
            ("name", JScalar (SStr "Bob"))]
           "user:2" pool_of_friends []).
  - by_compute.
  - by_compute.
  - by_compute.
  - reflexivity.
  - by_compute.
  - reflexivity.
  - reflexivity.
  - reflexivity.
  - reflexivity.
  - vm_compute. reflexivity.
Defined.

(** ** The guard of the notification pass *)

(** X19 — the pass of a call to [write] resolves stored refs only: each
    of its resolutions gives the object of the ref, none gives [null], so
    the guard of [notify] against [null] never skips a listener. *)
Theorem write_resolves_no_null (fuel : nat) (heap : Heap) (this : ObjectPool)
    (items : list JSONValue) (o : Outcome unit) (this' : ObjectPool)
    (evs : list Event) (ref : string) :
  write fuel heap this items = Some (o, this', evs) →
  Forall (λ r, r.1.2 = RShared ref) (resolutions_of ref evs).
Proof.
  intros H.
  apply write_inv in H
    as [(st & _ & _ & _ & ->)|(st & cache & E & _ & -> & Hnd & Hn)];
    [constructor|].
  apply notifyEach_spec in Hn as (evs' & [= <-] & _ & Hin & Hout); [|done].
  destruct (decide (ref ∈ references st)) as [Href|Href]; cycle 1.
  { destruct (Hout ref Href) as [-> _]. constructor. }
  specialize (Hin ref Href). unfold notified in Hin.
  destruct (listeners _ !! ref) as [[|fn fns]|].
  - destruct Hin as [-> _]. constructor.
  - destruct Hin as (before & value & after & -> & Hres & _).
    constructor; [|constructor]. simpl.
    apply resolve_good in Hres as [_ [[[= ->] _]|(_ & Hnone & _)]]; [done|].
    apply forOf_commits in E as [_ W].
    destruct (W ref Href) as [Hnil|(po & Hs & _)].
    + by apply elem_of_nil in Hnil.
    + simpl in Hnone. by rewrite Hs in Hnone.
  - destruct Hin as [-> _]. constructor.
Qed.

Lemma write_resolves_no_null_witness :
  Forall (λ r, r.1.2 = RShared "user:1") (resolutions_of "user:1" heard).
Proof.
  apply (write_resolves_no_null 4 friends_heap watched_pool [JPtr 1%positive]
           (Return tt) pool_heard heard "user:1").
  vm_compute. reflexivity.
Defined.

(** ** Ordinary property names *)

Lemma ordinary_object entries :
  (ordinary (PObject entries) = true) ↔
  ((PROTO ∉ keys entries) ∧ Forall (λ x, ordinary x = true) entries.*2).
Proof.
  simpl. rewrite andb_true_iff, negb_true_iff, bool_decide_eq_false.
  apply and_iff_compat_l.
  induction entries as [|[k x] entries IH]; simpl.
  - split; [constructor|done].
  - rewrite andb_true_iff, Forall_cons, IH. done.
Qed.

Lemma ordinary_array items :
  (ordinary (PArray items) = true) ↔ Forall (λ x, ordinary x = true) items.
Proof.
  simpl. induction items as [|x items IH]; simpl.
  - split; [constructor|done].
  - by rewrite andb_true_iff, Forall_cons, IH.
Qed.

Lemma Forall_values_set {A} (Q : A → Prop) k v (obj : list (string * A)) :
  Q v → Forall Q obj.*2 → Forall Q (obj_set k v obj).*2.
Proof.
  intros Hv. induction obj as [|[k' v'] obj IH]; simpl.
  - by constructor.
  - rewrite Forall_cons. intros [Hv' Hall].
    destruct (decide (k = k')); simpl; constructor; auto.
Qed.

Lemma Forall_values_spread {A} (Q : A → Prop) (acc obj : list (string * A)) :
  Forall Q acc.*2 → Forall Q obj.*2 → Forall Q (obj_spread acc obj).*2.
Proof.
  unfold obj_spread. revert acc.
  induction obj as [|[k v] obj IH]; intros acc Hacc Hobj; simpl in *; [done|].
  apply Forall_cons in Hobj as [Hv Hobj].
  apply IH; [|done]. by apply Forall_values_set.
Qed.

(** Loops over a body that keeps an invariant of the state and returns
    values in [Q]. *)
Section LoopsResults.
Context {S T U : Type}.
Variable fn : T → M S U.
Variable I : S → Prop.
Variable Q : U → Prop.
Hypothesis fn_ok : ∀ x s o s', I s → fn x s = Some (o, s') →
  I s' ∧ ∀ u, o = Return u → Q u.

Lemma arrayMap_results arr :
  ∀ s o s', I s → arrayMap fn arr s = Some (o, s') →
    I s' ∧ ∀ us, o = Return us → Forall Q us.
Proof.
  induction arr as [|x arr IH]; intros s o s' Hs H; simpl in H.
  - injection H as <- <-. split; [done|]. by intros us [= <-].
  - inv_bind H.
    + injection H as -> ->. by apply fn_ok in E as [? _].
    + apply fn_ok in E as [Hs0 Ha]; [|done]. inv_bind H.
      * injection H as -> ->. by apply IH in E as [? _].
      * injection H as <- <-. apply IH in E as [? Hall]; [|done].
        split; [done|]. intros us [= <-]. constructor; eauto.
Qed.

Lemma objectMap_loop_results entries :
  ∀ acc s o s', I s → Forall Q acc.*2 →
    objectMap_loop fn entries acc s = Some (o, s') →
    I s' ∧ ∀ us, o = Return us → Forall Q us.*2.
Proof.
  induction entries as [|[k x] entries IH]; intros acc s o s' Hs Hacc H;
    simpl in H.
  - injection H as <- <-. split; [done|]. by intros us [= <-].
  - inv_bind H.
    + injection H as -> ->. by apply fn_ok in E as [? _].
    + apply fn_ok in E as [Hs0 Ha]; [|done].
      eapply IH; [done| |done]. apply Forall_values_set; eauto.
Qed.
End LoopsResults.

Section NormalizerOrdinary.
Variable heap : Heap.
Hypothesis heap_ordinary : ordinary_heap heap.

Lemma updateValue_ordinary fuel :
  ∀ v st o st',
    ordinary_pool (pool st) →
    updateValue heap fuel v st = Some (o, st') →
    ordinary_pool (pool st') ∧ ∀ pv, o = Return pv → ordinary pv = true.
Proof.
  induction fuel as [|fuel IH]; [done|].
  intros [sc|a] st o st' Hst H.
  { rewrite updateValue_S in H. injection H as <- <-. split; [done|].
    by intros pv [= <-]. }
  apply updateValue_node in H as [[_ [= -> ->]]|(_ & node & Hnode & H)];
    [done|].
  assert (ordinary_pool (pool (visit a st))) as Hvisit by done.
  destruct node as [items|data].
  - inv_bind H.
    + injection H as -> ->.
      by eapply (arrayMap_results _ (λ s, ordinary_pool (pool s))
                   (λ u, ordinary u = true)) in E as [? _].
    + injection H as <- <-.
      eapply (arrayMap_results _ (λ s, ordinary_pool (pool s))
                (λ u, ordinary u = true)) in E as [? Hall]; [|done..].
      split; [done|]. intros pv [= <-]. apply ordinary_array. eauto.
  - assert (PROTO ∉ keys data) as Hdata
      by apply (heap_ordinary a (JObject data) Hnode).
    assert (∀ s o1 s1, ordinary_pool (pool s) →
              objectMap (updateValue heap fuel) data s = Some (o1, s1) →
              ordinary_pool (pool s1) ∧
              ∀ new, o1 = Return new →
                (PROTO ∉ keys new) ∧ Forall (λ x, ordinary x = true) new.*2)
      as Hfields.
    { intros s o1 s1 Hs E. unfold objectMap in E. pose proof E as E'.
      eapply (objectMap_loop_results _ (λ s, ordinary_pool (pool s))
                (λ u, ordinary u = true)) in E as [? Hall];
        [|done|done|constructor].
      split; [done|]. intros new ->. split; [|eauto].
      rewrite (objectMap_loop_keys _ _ _ _ _ _ E' PROTO).
      intros [Hin|Hin]; [by apply elem_of_nil in Hin|done]. }
    destruct (identify data) as [ref|].
    + apply updatePoolObject_inv in H
        as [(msg & s1 & E & [= -> ->])|(new & s1 & E & [= -> ->])].
      * by apply Hfields in E as [? _].
      * apply Hfields in E as [Hs1 Hnew]; [|done].
        destruct (Hnew new eq_refl) as [Hk Hall]. split; [|by intros pv [= <-]].
        unfold ordinary_pool. simpl. apply map_Forall_insert_2; [|done].
        simpl. apply ordinary_object. split.
        -- rewrite !keys_spread. intros [[Hin|Hin]|Hin]; [|
             |done].
           ++ by apply elem_of_nil in Hin.
           ++ destruct (backing (pool st) !! ref) as [po|] eqn:Hpo;
                simpl in Hin; [|by apply elem_of_nil in Hin].
              apply Hst in Hpo. simpl in Hpo.
              by apply ordinary_object in Hpo as [? _].
        -- apply Forall_values_spread; [|done].
           apply Forall_values_spread; [constructor|].
           destruct (backing (pool st) !! ref) as [po|] eqn:Hpo;
             simpl; [|constructor].
           apply Hst in Hpo. simpl in Hpo.
           by apply ordinary_object in Hpo as [_ ?].
    + inv_bind H.
      * injection H as -> ->. by apply Hfields in E as [? _].
      * injection H as <- <-. apply Hfields in E as [? Hnew]; [|done].
        split; [done|]. intros pv [= <-]. apply ordinary_object. eauto.
Qed.
End NormalizerOrdinary.

(** X20 — on an input in which no property is named [__proto__], a call
    to [write], whether it returns or throws, stores no such property: a
    pool that has none in its entities, at any depth, has none after the
    call. *)
Theorem write_keeps_ordinary (fuel : nat) (heap : Heap) (this : ObjectPool)
    (items : list JSONValue) (o : Outcome unit) (this' : ObjectPool)
    (evs : list Event) :
  ordinary_heap heap → ordinary_pool this →
  write fuel heap this items = Some (o, this', evs) →
  ordinary_pool this'.
Proof.
  intros Hheap Hthis H.
  assert (∀ o1 st, forOf (updateValue heap fuel) items (mkNormalizing this ∅ [])
                     = Some (o1, st) → ordinary_pool (pool st)) as Hloop.
  { intros o1 st E.
    refine (forOf_steps (λ s s', ordinary_pool (pool s) →
                                 ordinary_pool (pool s'))
              _ _ _ items _ _ _ _ E Hthis); [auto | auto |].
    apply Forall_forall. intros x _ s o2 s2 Hx Hs.
    by eapply updateValue_ordinary in Hx as [? _]. }
  apply write_inv in H
    as [(st & E & _ & -> & _)|(st & cache & E & _ & -> & _)];
    by apply Hloop in E.
Qed.

Lemma write_keeps_ordinary_witness : ordinary_pool pool_of_mutual_friends.
Proof.
  apply (write_keeps_ordinary 4 friends_heap pool_of_friends
           [JPtr 3%positive] (Return tt) pool_of_mutual_friends []).
  - by_compute.
  - by_compute.
  - vm_compute. reflexivity.
Defined.
